(** * sha1-hulud-checker: the lockfile scanner of [scan-lockfiles.js]

    A shallow embedding of the scanner and the properties of its
    extraction and matching engine.

    - JavaScript strings are sequences of UTF-16 code units: [jsstring] is
      a list of code units, each a number [N].
    - A parsed JSON document is a value of the inductive type [json].
    - The three objects the source passes around by reference
      ([affectedPackages], [found], [checked]) and the error stream live in
      a [store]; a statement of the source is a function from stores to a
      completion (normal or thrown) and a store.
    - The walk that finds the lockfiles recurses on a directory as
      [readdirSync] shows it: a tree of entries.
    - The generator of demo lockfiles, [generate-infected-lockfiles.js],
      is in the module [Generator], up to the document and the text that
      it writes; its random choices are parameters. *)

From Stdlib Require Import NArith Ascii Decimal.
From stdpp Require Import gmap list strings.

Local Open Scope N_scope.
Local Open Scope nat_scope.

(** ** Strings *)

Definition char := N.
Definition jsstring := list char.

(** The code units of an ASCII literal. *)
Definition js (s : string) : jsstring := N_of_ascii <$> String.list_ascii_of_string s.

(** [WhiteSpace] and [LineTerminator] code units: the class [\s] of a
    regular expression, and what [String.prototype.trim] strips. *)
Definition isLineTerminator (c : char) : bool :=
  (c =? 10)%N || (c =? 13)%N || (c =? 8232)%N || (c =? 8233)%N.

Definition isSpace (c : char) : bool :=
  ((9 <=? c)%N && (c <=? 13)%N) || (c =? 32)%N || (c =? 160)%N || (c =? 5760)%N
  || ((8192 <=? c)%N && (c <=? 8202)%N) || (c =? 8232)%N || (c =? 8233)%N
  || (c =? 8239)%N || (c =? 8287)%N || (c =? 12288)%N || (c =? 65279)%N.

(** The class [\w]: [A-Za-z0-9_]. *)
Definition isWord (c : char) : bool :=
  ((65 <=? c)%N && (c <=? 90)%N) || ((97 <=? c)%N && (c <=? 122)%N)
  || ((48 <=? c)%N && (c <=? 57)%N) || (c =? 95)%N.

(** The class [.] (no [s] flag): anything but a line terminator. *)
Definition isDot (c : char) : bool := negb (isLineTerminator c).

(** Membership in an explicit class of characters and its complement. *)
Definition oneOf (cs : string) (c : char) : bool := bool_decide (c ∈ js cs).
Definition noneOf (cs : string) (c : char) : bool := negb (oneOf cs c).

(** [s.startsWith(p)], as a boolean. *)
Fixpoint startsWith (p s : jsstring) : bool :=
  match p, s with
  | [], _ => true
  | a :: p', b :: s' => (a =? b)%N && startsWith p' s'
  | _ :: _, [] => false
  end.

(** [s.endsWith(p)]. *)
Definition endsWith (s p : jsstring) : bool := startsWith (reverse p) (reverse s).

(** [s.lastIndexOf(p)]: the largest index at which [p] occurs in [s], or
    [-1].  [lastIndexOf_from] scans left to right from index [i] and
    remembers the last hit in [best]. *)
Fixpoint lastIndexOf_from (p s : jsstring) (i best : Z) : Z :=
  let best' := if startsWith p s then i else best in
  match s with
  | [] => best'
  | _ :: s' => lastIndexOf_from p s' (i + 1)%Z best'
  end.

Definition lastIndexOf (s p : jsstring) : Z := lastIndexOf_from p s 0%Z (-1)%Z.

(** [s.substring(i)] for an index [i]: negative indices are clamped to 0. *)
Definition substring (s : jsstring) (i : Z) : jsstring := drop (Z.to_nat i) s.

(** [s.trim()]. *)
Fixpoint trimStart (s : jsstring) : jsstring :=
  match s with
  | c :: s' => if isSpace c then trimStart s' else s
  | [] => []
  end.

Definition trim (s : jsstring) : jsstring := reverse (trimStart (reverse (trimStart s))).

(** [s.split('\n')]: the pieces between line feeds; never empty. *)
Fixpoint split_lines (s : jsstring) : list jsstring :=
  match s with
  | [] => [[]]
  | c :: s' =>
      if (c =? 10)%N then [] :: split_lines s'
      else match split_lines s' with
           | l :: ls => (c :: l) :: ls
           | [] => [[c]]
           end
  end.

(** The decimal digits of an array index, as [String(i)] prints it. *)
Fixpoint uint_digits (d : Decimal.uint) : jsstring :=
  match d with
  | Decimal.Nil => []
  | Decimal.D0 d => 48%N :: uint_digits d
  | Decimal.D1 d => 49%N :: uint_digits d
  | Decimal.D2 d => 50%N :: uint_digits d
  | Decimal.D3 d => 51%N :: uint_digits d
  | Decimal.D4 d => 52%N :: uint_digits d
  | Decimal.D5 d => 53%N :: uint_digits d
  | Decimal.D6 d => 54%N :: uint_digits d
  | Decimal.D7 d => 55%N :: uint_digits d
  | Decimal.D8 d => 56%N :: uint_digits d
  | Decimal.D9 d => 57%N :: uint_digits d
  end.

Definition index_key (i : nat) : jsstring := uint_digits (Nat.to_uint i).

(** ** Regular expressions

    The fragment of ECMAScript regular expressions the scanner uses, with
    the backtracking semantics of the language: alternatives are tried in
    priority order (greedy quantifiers take as much as they can first) and
    the first overall success wins.  Quantifiers [+] and [*] only occur on
    single-character classes in the source. *)

Inductive regex : Type :=
| Lit (s : jsstring)            (* a literal run of characters *)
| Class (p : char → bool)       (* one character of a class *)
| Opt (r : regex)               (* r?  *)
| Plus (p : char → bool)        (* [class]+ *)
| Star (p : char → bool)        (* [class]* *)
| Group (r : regex)             (* ( r ), capturing *)
| Bol                           (* ^ without the m flag *)
| Eol                           (* $ without the m flag *)
| Seq (r1 r2 : regex).

Infix "⋅" := Seq (at level 41, right associativity).

(** A successful match: where it starts and ends, and the captured groups
    in the order of their closing parentheses. *)
Record mresult := MResult { m_start : nat; m_end : nat; m_groups : list jsstring }.

Section matcher.
Context {R : Type}.

(** Greedy iteration of a class, at index [i] with [s] left to read: take
    a character and go on if that leads to a match, else stop here. *)
Fixpoint star (p : char → bool) (k : nat → jsstring → option R)
    (i : nat) (s : jsstring) : option R :=
  match s with
  | c :: s' =>
      if p c then
        match star p k (S i) s' with
        | Some m => Some m
        | None => k i s
        end
      else k i s
  | [] => k i s
  end.

(** [rmatch r i s caps k]: match [r] at index [i] where [s] is the rest
    of the input and [caps] the groups closed so far, then continue with
    [k]; [None] makes the caller backtrack. *)
Fixpoint rmatch (r : regex) (i : nat) (s : jsstring) (caps : list jsstring)
    (k : nat → jsstring → list jsstring → option R) : option R :=
  match r with
  | Lit l => if startsWith l s then k (i + length l) (drop (length l) s) caps else None
  | Class p =>
      match s with
      | c :: s' => if p c then k (S i) s' caps else None
      | [] => None
      end
  | Opt r' =>
      match rmatch r' i s caps k with
      | Some m => Some m
      | None => k i s caps
      end
  | Plus p =>
      match s with
      | c :: s' => if p c then star p (λ i' s'', k i' s'' caps) (S i) s' else None
      | [] => None
      end
  | Star p => star p (λ i' s'', k i' s'' caps) i s
  | Group r' => rmatch r' i s caps (λ i' s' caps', k i' s' (caps' ++ [take (i' - i) s]))
  | Bol => if i =? 0 then k i s caps else None
  | Eol => match s with [] => k i s caps | _ :: _ => None end
  | Seq r1 r2 => rmatch r1 i s caps (λ i' s' caps', rmatch r2 i' s' caps' k)
  end.
End matcher.

(** A match of [r] that starts exactly at index [i], [s] being the input
    from [i] on. *)
Definition match_at (r : regex) (i : nat) (s : jsstring) : option mresult :=
  rmatch r i s [] (λ e _ caps, Some (MResult i e caps)).

(** The leftmost match at or after index [i]. *)
Fixpoint search_from (r : regex) (i : nat) (s : jsstring) : option mresult :=
  match match_at r i s with
  | Some m => Some m
  | None =>
      match s with
      | [] => None
      | _ :: s' => search_from r (S i) s'
      end
  end.

(** [s.match(r)] for a regular expression without the [g] flag: the
    captured groups of the leftmost match, or [None] for [null]. *)
Definition str_match (s : jsstring) (r : regex) : option (list jsstring) :=
  m_groups <$> search_from r 0 s.

(** The successive results of [r.exec(s)] for a regular expression with
    the [g] flag, until it answers [null]: each search starts at
    [lastIndex], the end of the previous match.  The walk is over the
    start positions: those before [lastIndex] are passed over. *)
Fixpoint exec_loop (r : regex) (i : nat) (s : jsstring) (lastIndex : nat) : list mresult :=
  let next li := match s with [] => [] | _ :: s' => exec_loop r (S i) s' li end in
  if i <? lastIndex then next lastIndex
  else match match_at r i s with
       | Some m => m :: next (m_end m)
       | None => next lastIndex
       end.

Definition exec_all (r : regex) (s : jsstring) : list (list jsstring) :=
  m_groups <$> exec_loop r 0 s 0.

(** The regular expressions of the source.  In the comments [\x22] stands
    for the double quote character. *)

(* /\x22([^\x22]+)\x22;\x22([^\x22]+)\x22/ *)
Definition csvLineRegex : regex :=
  Lit [34%N] ⋅ Group (Plus (λ c, negb (c =? 34)%N)) ⋅ Lit ([34%N] ++ js ";" ++ [34%N])
  ⋅ Group (Plus (λ c, negb (c =? 34)%N)) ⋅ Lit [34%N].

(* /node_modules\/(.+)$/ *)
Definition nodeModulesRegex : regex :=
  Lit (js "node_modules/") ⋅ Group (Plus isDot) ⋅ Eol.

Definition isQuote (c : char) : bool := (c =? 39)%N || (c =? 34)%N.

(* /['\x22]?(@?[^@'\x22]+)@([^'\x22:\s]+)['\x22]?:/g *)
Definition packageAtVersionRegex : regex :=
  Opt (Class isQuote)
  ⋅ Group (Opt (Lit (js "@")) ⋅ Plus (λ c, negb ((c =? 64)%N || isQuote c)))
  ⋅ Lit (js "@")
  ⋅ Group (Plus (λ c, negb (isQuote c || (c =? 58)%N || isSpace c)))
  ⋅ Opt (Class isQuote) ⋅ Lit (js ":").

(* /^\s+['\x22]?(@?[\w\-./]+)['\x22]?:\s*$/ *)
Definition pkgLineRegex : regex :=
  Bol ⋅ Plus isSpace ⋅ Opt (Class isQuote)
  ⋅ Group (Opt (Lit (js "@")) ⋅ Plus (λ c, isWord c || oneOf "-./" c))
  ⋅ Opt (Class isQuote) ⋅ Lit (js ":") ⋅ Star isSpace ⋅ Eol.

(* /^\s+version:\s*['\x22]?([^'\x22(\s]+)/ *)
Definition versionLineRegex : regex :=
  Bol ⋅ Plus isSpace ⋅ Lit (js "version:") ⋅ Star isSpace ⋅ Opt (Class isQuote)
  ⋅ Group (Plus (λ c, negb (isQuote c || (c =? 40)%N || isSpace c))).

(* /^\s+specifier:/ *)
Definition specifierLineRegex : regex :=
  Bol ⋅ Plus isSpace ⋅ Lit (js "specifier:").

(** The [n]-th capture of a match array (index 0 is the whole match). *)
Definition capture (m : list jsstring) (n : nat) : jsstring := default [] (m !! pred n).

(** ** JSON values

    What [JSON.parse] returns.  A number carries the string that the
    language prints for it (so [-0] and [0] are both the number printed
    0); an object carries its own properties in the order in which
    [Object.entries] enumerates them. *)

#[local] Set Warnings "-register-all".
Inductive json : Type :=
| JNull
| JBool (b : bool)
| JNumber (repr : jsstring)
| JString (s : jsstring)
| JArray (elts : list json)
| JObject (props : list (jsstring * json)).

(** Truthiness: [null], [false], zero and the empty string are falsy. *)
Definition truthy (v : json) : bool :=
  match v with
  | JNull => false
  | JBool b => b
  | JNumber repr => negb (bool_decide (repr = js "0"))
  | JString s => negb (bool_decide (s = []))
  | JArray _ | JObject _ => true
  end.

Fixpoint assoc (k : jsstring) (props : list (jsstring * json)) : option json :=
  match props with
  | [] => None
  | (k', v) :: rest => if bool_decide (k' = k) then Some v else assoc k rest
  end.

(** [v.k] for a value [v] other than [null]: [None] stands for
    [undefined].  Only objects have own properties named [packages],
    [dependencies] or [version]; no prototype has them. *)
Definition prop (v : json) (k : jsstring) : option json :=
  match v with
  | JObject props => assoc k props
  | _ => None
  end.

(** [Object.entries(v)] for a truthy value [v]: the properties of an
    object, the indexed elements of an array, the indexed characters of a
    string, nothing for a number or a boolean. *)
Definition Object_entries (v : json) : list (jsstring * json) :=
  match v with
  | JObject props => props
  | JArray elts => imap (λ i x, (index_key i, x)) elts
  | JString s => imap (λ i c, (index_key i, JString [c])) s
  | JNull | JBool _ | JNumber _ => []
  end.

(** The string a template literal substitutes for a value, [None] when
    the conversion throws a [TypeError]: an object converts through
    [Object.prototype.toString] unless it has an own property [toString],
    which, coming from JSON, is not callable; an array joins the
    conversions of its elements with commas, [null] giving the empty
    string. *)
Fixpoint ToString (v : json) : option jsstring :=
  match v with
  | JNull => Some (js "null")
  | JBool b => Some (if b then js "true" else js "false")
  | JNumber repr => Some repr
  | JString s => Some s
  | JArray elts =>
      let element x := match x with JNull => Some [] | _ => ToString x end in
      (fix join (l : list json) : option jsstring :=
         match l with
         | [] => Some []
         | [x] => element x
         | x :: rest => a ← element x; b ← join rest; Some (a ++ js "," ++ b)
         end) elts
  | JObject props =>
      match assoc (js "toString") props with
      | Some _ => None
      | None => Some (js "[object Object]")
      end
  end.

(** ** The store and the scanning monad *)

Inductive exn := SyntaxError | TypeError | SystemError.

Inductive completion (A : Type) : Type :=
| Normal (a : A)
| Throw (e : exn).
Arguments Normal {A} a.
Arguments Throw {A} e.

(** An element of [found]: the object [{ packageName, version }]. *)
Record pkg := Pkg { packageName : jsstring; version : jsstring }.

Global Instance pkg_eq_dec : EqDecision pkg.
Proof. solve_decision. Defined.

(** [affectedPackages] is the [Map] from a name to the [Set] of its
    affected versions; [found] and [checked] are the array and the [Set]
    that [scanLockfile] allocates; [stderr] holds the errors that were
    printed with [console.error]. *)
Record store := Store {
  affectedPackages : gmap (list N) (gset (list N));
  found : list pkg;
  checked : gset (list N);
  stderr : list exn
}.

Definition M (A : Type) : Type := store → completion A * store.

Global Instance M_ret : MRet M := λ A a σ, (Normal a, σ).
Global Instance M_bind : MBind M := λ A B f m σ,
  match m σ with
  | (Normal a, σ') => f a σ'
  | (Throw e, σ') => (Throw e, σ')
  end.

Definition throw {A} (e : exn) : M A := λ σ, (Throw e, σ).
Definition get_store : M store := λ σ, (Normal σ, σ).
Definition put_store (σ : store) : M unit := λ _, (Normal tt, σ).

(** [try { m } catch (e) { h e }]. *)
Definition try_catch (m : M unit) (h : exn → M unit) : M unit := λ σ,
  match m σ with
  | (Normal a, σ') => (Normal a, σ')
  | (Throw e, σ') => h e σ'
  end.

(** A [for ... of] loop over a list. *)
Fixpoint forM {A} (l : list A) (body : A → M unit) : M unit :=
  match l with
  | [] => mret tt
  | x :: rest => body x ;; forM rest body
  end.

Definition checked_add (key : jsstring) : M unit := λ σ,
  (Normal tt, Store (affectedPackages σ) (found σ) ({[ key ]} ∪ checked σ) (stderr σ)).

Definition found_push (p : pkg) : M unit := λ σ,
  (Normal tt, Store (affectedPackages σ) (found σ ++ [p]) (checked σ) (stderr σ)).

Definition console_error (e : exn) : M unit := λ σ,
  (Normal tt, Store (affectedPackages σ) (found σ) (checked σ) (stderr σ ++ [e])).

(** ** The matcher

    [version] is whatever value the extractor read; the key is built by a
    template literal, which converts it to a string.  The version sets
    hold strings only, so [affectedVersions.has(version)] can only hold
    for a string. *)
Definition checkAndAddPackage (packageName : jsstring) (version : json) : M unit :=
  match ToString version with
  | None => throw TypeError
  | Some versionText =>
      let key := packageName ++ js "@" ++ versionText in
      σ ← get_store;
      if bool_decide (key ∈ checked σ) then mret tt
      else
        checked_add key ;;
        match affectedPackages σ !! packageName with
        | Some affectedVersions =>
            match version with
            | JString v =>
                if bool_decide (v ∈ affectedVersions)
                then found_push (Pkg packageName v)
                else mret tt
            | _ => mret tt
            end
        | None => mret tt
        end
  end.

(** ** The JSON extractor *)

(** The name that Pass A derives from a key of [packages]. *)
Definition derivePackageName (key : jsstring) : jsstring :=
  match str_match key nodeModulesRegex with
  | Some nodeModulesMatch =>
      let packageName := capture nodeModulesMatch 1 in
      let lastNodeModules := lastIndexOf packageName (js "node_modules/") in
      if bool_decide (lastNodeModules ≠ (-1)%Z)
      then substring packageName (lastNodeModules + Z.of_nat (length (js "node_modules/")))
      else packageName
  | None => key
  end.

(** [value && value.k] when it is truthy: the property is read only when
    [value] itself is truthy, hence not [null]. *)
Definition truthyProp (value : json) (k : jsstring) : option json :=
  if truthy value then
    match prop value k with
    | Some x => if truthy x then Some x else None
    | None => None
    end
  else None.

(** The body of the loop over [Object.entries(lockfile.packages)]. *)
Definition scanPackagesEntry (entry : jsstring * json) : M unit :=
  let '(key, value) := entry in
  match truthyProp value (js "version") with
  | None => mret tt                       (* continue *)
  | Some version =>
      let packageName := derivePackageName key in
      if bool_decide (packageName = []) then mret tt   (* continue *)
      else checkAndAddPackage packageName version
  end.

(** The recursion is on the structure of the document: the call on
    [value.dependencies] is made where the property is found among the
    properties of [value].  [scanNpmV1Dependencies_unfold] below states the
    function as the source writes it. *)
Fixpoint scanNpmV1Dependencies (deps : json) : M unit :=
  let recurse (value : json) : M unit :=
    match value with
    | JObject props =>
        (fix find (props : list (jsstring * json)) : M unit :=
           match props with
           | [] => mret tt
           | (k, d) :: rest =>
               if bool_decide (k = js "dependencies")
               then (if truthy d then scanNpmV1Dependencies d else mret tt)
               else find rest
           end) props
    | _ => mret tt
    end in
  let body (packageName : jsstring) (value : json) : M unit :=
    match truthyProp value (js "version") with
    | Some version => checkAndAddPackage packageName version
    | None => mret tt
    end ;;
    recurse value in
  match deps with
  | JObject props =>
      (fix loop (props : list (jsstring * json)) : M unit :=
         match props with
         | [] => mret tt
         | (packageName, value) :: rest => body packageName value ;; loop rest
         end) props
  | JArray elts =>
      (fix loop (i : nat) (elts : list json) : M unit :=
         match elts with
         | [] => mret tt
         | value :: rest => body (index_key i) value ;; loop (S i) rest
         end) 0 elts
  | JString _ | JNull | JBool _ | JNumber _ => mret tt
  end.

(** ** The text extractor *)

(** Method 2, the loop over the lines: [currentPackage] is [null] ([None])
    or the pending name. *)
Fixpoint scanImporterLines (lines : list jsstring) (currentPackage : option jsstring) : M unit :=
  match lines with
  | [] => mret tt
  | line :: rest =>
      match str_match line pkgLineRegex with
      | Some pkgMatch => scanImporterLines rest (Some (capture pkgMatch 1))
      | None =>
          match currentPackage with
          | Some name =>
              if bool_decide (name = []) then scanImporterLines rest currentPackage
              else
                match str_match line versionLineRegex with
                | Some versionMatch =>
                    checkAndAddPackage name (JString (capture versionMatch 1)) ;;
                    scanImporterLines rest None
                | None =>
                    match str_match line specifierLineRegex with
                    | None => scanImporterLines rest None
                    | Some _ => scanImporterLines rest currentPackage
                    end
                end
          | None => scanImporterLines rest currentPackage
          end
      end
  end.

(** Method 1 runs [exec] until it answers [null]; the matches do not
    depend on the store, so they are listed first and visited in order. *)
Definition scanYamlLockfile (content : jsstring) : M unit :=
  let lines := split_lines content in
  forM (exec_all packageAtVersionRegex content)
       (λ m, checkAndAddPackage (capture m 1) (JString (capture m 2))) ;;
  scanImporterLines lines None.

Section runtime.
(** [JSON.parse] and the file system are the host's: [None] is a
    [SyntaxError], respectively a failed read. *)
Variable JSON_parse : jsstring → option json.
Variable readFileSync : jsstring → option jsstring.

(** [lockfile.packages], [lockfile.dependencies]: reading a property of
    [null] throws. *)
Definition member (v : json) (k : jsstring) : M (option json) :=
  match v with
  | JNull => throw TypeError
  | _ => mret (prop v k)
  end.

Definition scanJsonLockfile (content : jsstring) : M unit :=
  try_catch
    (match JSON_parse content with
     | None => throw SyntaxError
     | Some lockfile =>
         packages ← member lockfile (js "packages");
         match packages with
         | Some packages =>
             if truthy packages
             then forM (Object_entries packages) scanPackagesEntry
             else mret tt
         | None => mret tt
         end ;;
         dependencies ← member lockfile (js "dependencies");
         match dependencies with
         | Some dependencies =>
             if truthy dependencies then scanNpmV1Dependencies dependencies else mret tt
         | None => mret tt
         end
     end)
    (λ e, console_error e).

Definition scanLockfile (lockfilePath : jsstring) : M (list pkg) :=
  match readFileSync lockfilePath with
  | None => throw SystemError
  | Some content =>
      σ ← get_store;
      put_store (Store (affectedPackages σ) [] ∅ (stderr σ)) ;;
      (if endsWith lockfilePath (js ".json")
       then scanJsonLockfile content
       else scanYamlLockfile content) ;;
      σ' ← get_store;
      mret (found σ')
  end.

(** [parseAffectedPackages]: the [Map] is built line by line. *)
Definition addAffected (packages : gmap (list N) (gset (list N))) (line : jsstring)
    : gmap (list N) (gset (list N)) :=
  let line := trim line in
  if bool_decide (line = []) then packages
  else match str_match line csvLineRegex with
       | Some m =>
           let packageName := capture m 1 in
           let version := capture m 2 in
           let packages :=
             match packages !! packageName with
             | Some _ => packages
             | None => <[ packageName := ∅ ]> packages
             end in
           match packages !! packageName with
           | Some versions => <[ packageName := {[ version ]} ∪ versions ]> packages
           | None => packages
           end
       | None => packages
       end.

Definition parseAffectedPackages (csvPath : jsstring)
    : completion (gmap (list N) (gset (list N))) :=
  match readFileSync csvPath with
  | None => Throw SystemError
  | Some content =>
      let lines := split_lines (trim content) in
      Normal (foldl addAffected ∅ (drop 1 lines))
  end.

(** ** The command

    [getLockfiles] walks the file system and is taken as given, with
    [basename]; the flags [--quiet] and [--json] only select what is
    printed.  A run ends by [process.exit] with a code, after printing a
    report, or by an exception that nothing catches. *)
Variable AFFECTED_PACKAGES_FILE : jsstring.
Variable getLockfiles : option jsstring → completion (list jsstring).
Variable basename : jsstring → jsstring.

Record report := Report {
  totalAffectedPackages : nat;
  lockfilesScanned : nat;
  results : list (jsstring * list pkg)
}.

Inductive outcome :=
| Exit (code : Z) (printed : option report)
| Uncaught (e : exn).

(** The loop of [main] over the lockfiles: [totalFound] and [allResults]
    are its accumulators. *)
Fixpoint scanAll (lockfiles : list jsstring) (totalFound : nat)
    (allResults : list (jsstring * list pkg)) : M (nat * list (jsstring * list pkg)) :=
  match lockfiles with
  | [] => mret (totalFound, allResults)
  | lockfile :: rest =>
      let filename := basename lockfile in
      found ← scanLockfile lockfile;
      if 0 <? length found
      then scanAll rest (totalFound + length found) (allResults ++ [(filename, found)])
      else scanAll rest totalFound allResults
  end.

Definition main (help : bool) (pathArg : option jsstring) : outcome :=
  if help then Exit 0 None
  else
    match parseAffectedPackages AFFECTED_PACKAGES_FILE with
    | Throw e => Uncaught e
    | Normal affectedPackages =>
        match getLockfiles pathArg with
        | Throw e => Uncaught e
        | Normal lockfiles =>
            if length lockfiles =? 0 then Exit 1 None
            else
              match scanAll lockfiles 0 [] (Store affectedPackages [] ∅ []) with
              | (Throw e, _) => Uncaught e
              | (Normal (totalFound, allResults), _) =>
                  Exit (if 0 <? totalFound then 1 else 0)
                       (Some (Report totalFound (length lockfiles) allResults))
              end
        end
    end.
End runtime.

(** ** The candidates of a scan

    The pairs with which an extractor calls [checkAndAddPackage], in the
    order of the calls.  The lemmas [scanPackages_candidates],
    [scanNpmV1Dependencies_candidates] and [scanYamlLockfile_candidates]
    show that each extractor is the matcher run over these lists. *)

Definition candidate : Type := jsstring * json.

Definition packagesCandidate (entry : jsstring * json) : option candidate :=
  let '(key, value) := entry in
  version ← truthyProp value (js "version");
  let packageName := derivePackageName key in
  if bool_decide (packageName = []) then None else Some (packageName, version).

Definition packagesCandidates (entries : list (jsstring * json)) : list candidate :=
  omap packagesCandidate entries.

Fixpoint v1Candidates (deps : json) : list candidate :=
  let recurse (value : json) : list candidate :=
    match value with
    | JObject props =>
        (fix find (props : list (jsstring * json)) : list candidate :=
           match props with
           | [] => []
           | (k, d) :: rest =>
               if bool_decide (k = js "dependencies")
               then (if truthy d then v1Candidates d else [])
               else find rest
           end) props
    | _ => []
    end in
  let body (packageName : jsstring) (value : json) : list candidate :=
    match truthyProp value (js "version") with
    | Some version => [(packageName, version)]
    | None => []
    end ++ recurse value in
  match deps with
  | JObject props =>
      (fix loop (props : list (jsstring * json)) : list candidate :=
         match props with
         | [] => []
         | (packageName, value) :: rest => body packageName value ++ loop rest
         end) props
  | JArray elts =>
      (fix loop (i : nat) (elts : list json) : list candidate :=
         match elts with
         | [] => []
         | value :: rest => body (index_key i) value ++ loop (S i) rest
         end) 0 elts
  | JString _ | JNull | JBool _ | JNumber _ => []
  end.

(** The candidates of a parsed document other than [null]. *)
Definition jsonCandidates (lockfile : json) : list candidate :=
  match truthyProp lockfile (js "packages") with
  | Some packages => packagesCandidates (Object_entries packages)
  | None => []
  end ++
  match truthyProp lockfile (js "dependencies") with
  | Some dependencies => v1Candidates dependencies
  | None => []
  end.

Fixpoint importerCandidates (lines : list jsstring) (currentPackage : option jsstring)
    : list candidate :=
  match lines with
  | [] => []
  | line :: rest =>
      match str_match line pkgLineRegex with
      | Some pkgMatch => importerCandidates rest (Some (capture pkgMatch 1))
      | None =>
          match currentPackage with
          | Some name =>
              if bool_decide (name = []) then importerCandidates rest currentPackage
              else
                match str_match line versionLineRegex with
                | Some versionMatch =>
                    (name, JString (capture versionMatch 1)) :: importerCandidates rest None
                | None =>
                    match str_match line specifierLineRegex with
                    | None => importerCandidates rest None
                    | Some _ => importerCandidates rest currentPackage
                    end
                end
          | None => importerCandidates rest currentPackage
          end
      end
  end.

Definition yamlCandidates (content : jsstring) : list candidate :=
  ((λ m, (capture m 1, JString (capture m 2))) <$> exec_all packageAtVersionRegex content)
  ++ importerCandidates (split_lines content) None.

(** The matcher over a list of candidates. *)
Definition matchAll (cs : list candidate) : M unit :=
  forM cs (λ c, checkAndAddPackage c.1 c.2).

(** The key under which a candidate is remembered, when its version
    converts to a string. *)
Definition dedupKey (c : candidate) : option jsstring :=
  t ← ToString c.2; Some (c.1 ++ js "@" ++ t).

(** What the index answers for a candidate. *)
Definition hit (idx : gmap (list N) (gset (list N))) (c : candidate) : list pkg :=
  match c.2 with
  | JString v =>
      match idx !! c.1 with
      | Some affectedVersions =>
          if bool_decide (v ∈ affectedVersions) then [Pkg c.1 v] else []
      | None => []
      end
  | _ => []
  end.

(** What the matcher appends to [found] over a list of candidates, [seen]
    being the keys already checked: it stops where a conversion throws. *)
Fixpoint reported (idx : gmap (list N) (gset (list N))) (seen : gset (list N))
    (cs : list candidate) : list pkg :=
  match cs with
  | [] => []
  | c :: rest =>
      match dedupKey c with
      | None => []
      | Some key =>
          if bool_decide (key ∈ seen) then reported idx seen rest
          else hit idx c ++ reported idx ({[ key ]} ∪ seen) rest
      end
  end.

(** The candidates whose version is a string, as pairs. *)
Definition asPkg (c : candidate) : option pkg :=
  match c.2 with
  | JString v => Some (Pkg c.1 v)
  | _ => None
  end.

(** The elements of a list at their first occurrence, those of [seen]
    left out. *)
Fixpoint firstOccurrences (seen : list pkg) (l : list pkg) : list pkg :=
  match l with
  | [] => []
  | x :: rest =>
      if bool_decide (x ∈ seen) then firstOccurrences seen rest
      else x :: firstOccurrences (x :: seen) rest
  end.

(** [s.includes(p)]. *)
Fixpoint includes (s p : jsstring) : bool :=
  startsWith p s || match s with [] => false | _ :: s' => includes s' p end.

(** The store in which [scanLockfile] starts the extraction. *)
Definition fresh (σ : store) : store := Store (affectedPackages σ) [] ∅ (stderr σ).

(** ** The parts of the nested-tree pass, by name

    [scanNpmV1Dependencies] and [v1Candidates] are defined with local
    functions; these are the same functions, stated once and for all, in
    which the lemmas about the two are written.  [v1Entry] is the body of
    the loop as the source writes it. *)

Fixpoint v1Find (props : list (jsstring * json)) : M unit :=
  match props with
  | [] => mret tt
  | (k, d) :: rest =>
      if bool_decide (k = js "dependencies")
      then (if truthy d then scanNpmV1Dependencies d else mret tt)
      else v1Find rest
  end.

Definition v1Recurse (value : json) : M unit :=
  match value with
  | JObject props => v1Find props
  | _ => mret tt
  end.

Definition v1Entry (entry : jsstring * json) : M unit :=
  let '(packageName, value) := entry in
  match truthyProp value (js "version") with
  | Some version => checkAndAddPackage packageName version
  | None => mret tt
  end ;;
  match truthyProp value (js "dependencies") with
  | Some dependencies => scanNpmV1Dependencies dependencies
  | None => mret tt
  end.

Fixpoint v1Loop (i : nat) (elts : list json) : M unit :=
  match elts with
  | [] => mret tt
  | value :: rest =>
      (match truthyProp value (js "version") with
       | Some version => checkAndAddPackage (index_key i) version
       | None => mret tt
       end ;; v1Recurse value) ;;
      v1Loop (S i) rest
  end.

Fixpoint v1FindC (props : list (jsstring * json)) : list candidate :=
  match props with
  | [] => []
  | (k, d) :: rest =>
      if bool_decide (k = js "dependencies")
      then (if truthy d then v1Candidates d else [])
      else v1FindC rest
  end.

Definition v1RecurseC (value : json) : list candidate :=
  match value with
  | JObject props => v1FindC props
  | _ => []
  end.

Definition v1EntryCandidates (entry : jsstring * json) : list candidate :=
  let '(packageName, value) := entry in
  match truthyProp value (js "version") with
  | Some version => [(packageName, version)]
  | None => []
  end ++
  match truthyProp value (js "dependencies") with
  | Some dependencies => v1Candidates dependencies
  | None => []
  end.

Fixpoint v1LoopC (i : nat) (elts : list json) : list candidate :=
  match elts with
  | [] => []
  | value :: rest =>
      (match truthyProp value (js "version") with
       | Some version => [(index_key i, version)]
       | None => []
       end ++ v1RecurseC value) ++ v1LoopC (S i) rest
  end.

(** The candidates of a file, by its name and content: none when the
    content does not parse or parses to [null]. *)
Definition lockfileCandidates (JSON_parse : jsstring → option json)
    (lockfilePath content : jsstring) : list candidate :=
  if endsWith lockfilePath (js ".json") then
    match JSON_parse content with
    | None | Some JNull => []
    | Some lockfile => jsonCandidates lockfile
    end
  else yamlCandidates content.

(** The key of a reported pair. *)
Definition pkgKey (p : pkg) : jsstring := packageName p ++ js "@" ++ version p.

(** ** Example data

    Documents are written as [JSON.parse] returns them; the comment before
    each gives its text, without the quotes. *)

Definition leftPadIndex : gmap (list N) (gset (list N)) :=
  {[ js "left-pad" := {[ js "1.3.0" ]} ]}.

(* { packages: { node_modules/left-pad: { version: 1.3.0 } },
     dependencies: { left-pad: { version: 1.3.0 } } } *)
Definition leftPadDocument : json :=
  JObject
    [(js "packages",
      JObject [(js "node_modules/left-pad", JObject [(js "version", JString (js "1.3.0"))])]);
     (js "dependencies",
      JObject [(js "left-pad", JObject [(js "version", JString (js "1.3.0"))])])].

Definition leftPadStore : store := Store leftPadIndex [] ∅ [].

(* { dependencies: { a: { version: b@c }, a@b: { version: c } } } *)
Definition collisionDocument : json :=
  JObject
    [(js "dependencies",
      JObject [(js "a", JObject [(js "version", JString (js "b@c"))]);
               (js "a@b", JObject [(js "version", JString (js "c"))])])].

Definition collisionIndex : gmap (list N) (gset (list N)) :=
  {[ js "a@b" := {[ js "c" ]} ]}.

(** The lines of the two-line example, joined by line feeds. *)
Definition nameLine : jsstring := js "  'left-pad':".
Definition specifierLine : jsstring := js "    specifier: ^1.3.0".
Definition versionLine : jsstring := js "    version: 1.3.0".
Definition linkLine : jsstring := js "    link: ../left-pad".

Definition twoLineContent : jsstring :=
  nameLine ++ [10%N] ++ specifierLine ++ [10%N] ++ versionLine.
Definition noVersionContent : jsstring :=
  nameLine ++ [10%N] ++ specifierLine.
Definition linkContent : jsstring :=
  nameLine ++ [10%N] ++ specifierLine ++ [10%N] ++ linkLine.

(* { packages: { foo: { version: 1.0.0 } } } *)
Definition plainKeyDocument : json :=
  JObject [(js "packages", JObject [(js "foo", JObject [(js "version", JString (js "1.0.0"))])])].

Definition plainKeyIndex : gmap (list N) (gset (list N)) :=
  {[ js "foo" := {[ js "1.0.0" ]} ]}.

(* { packages: { node_modules/x/node_modules/y: { version: 1.0.0 } } } *)
Definition nestedNameDocument : json :=
  JObject
    [(js "packages",
      JObject [(js "node_modules/x/node_modules/y",
                JObject [(js "version", JString (js "1.0.0"))])])].

Definition nestedNameIndex : gmap (list N) (gset (list N)) :=
  {[ js "x/node_modules/y" := {[ js "1.0.0" ]} ]}.

(* { packages: { node_modules/@scope/pkg: { version: 1.0.0 } } } *)
Definition scopedDocument : json :=
  JObject
    [(js "packages",
      JObject [(js "node_modules/@scope/pkg",
                JObject [(js "version", JString (js "1.0.0"))])])].

Definition scopedIndex : gmap (list N) (gset (list N)) :=
  {[ js "@scope/pkg" := {[ js "1.0.0" ]} ]}.

(** A dataset of a header and one record. *)
Definition leftPadDataset : jsstring :=
  js "package;version" ++ [10%N]
  ++ [34%N] ++ js "left-pad" ++ [34%N] ++ js ";" ++ [34%N] ++ js "1.3.0" ++ [34%N] ++ [10%N].

(** A file system in which the dataset is a header without records and
    every other file is a text without entries. *)
Definition headerOnlyFiles (path : jsstring) : option jsstring :=
  if bool_decide (path = js "affected_packages.csv")
  then Some (js "package;version" ++ [10%N])
  else Some (js "# yarn lockfile v1" ++ [10%N]).

(** ** Further example data *)

(* { packages: { node_modules/odd: { version: { toString: 1 } },
                 node_modules/left-pad: { version: 1.3.0 } } } *)
Definition oddVersionDocument : json :=
  JObject
    [(js "packages",
      JObject [(js "node_modules/odd",
                JObject [(js "version", JObject [(js "toString", JNumber (js "1"))])]);
               (js "node_modules/left-pad",
                JObject [(js "version", JString (js "1.3.0"))])])].

(** A file system with the dataset of one record; every other file has the
    text written [{}], which the example parser reads as [leftPadDocument]. *)
Definition leftPadFiles (path : jsstring) : option jsstring :=
  if bool_decide (path = js "affected_packages.csv") then Some leftPadDataset
  else Some (js "{}").

(** A file system with the dataset only. *)
Definition datasetOnlyFiles (path : jsstring) : option jsstring :=
  if bool_decide (path = js "affected_packages.csv") then Some leftPadDataset
  else None.

(** ** What a regular expression derives

    [derives r i w rest cs]: at index [i], with [w ++ rest] left to read,
    [r] can match the word [w] and close the groups [cs] on the way.  The
    matcher only answers with such matches ([rmatch_derives]). *)
Fixpoint derives (r : regex) (i : nat) (w rest : jsstring) (cs : list jsstring) : Prop :=
  match r with
  | Lit l => w = l ∧ cs = []
  | Class p => ∃ c, w = [c] ∧ p c = true ∧ cs = []
  | Opt r' => (w = [] ∧ cs = []) ∨ derives r' i w rest cs
  | Plus p => w ≠ [] ∧ forallb p w = true ∧ cs = []
  | Star p => forallb p w = true ∧ cs = []
  | Group r' => ∃ cs', derives r' i w rest cs' ∧ cs = cs' ++ [w]
  | Bol => w = [] ∧ i = 0 ∧ cs = []
  | Eol => w = [] ∧ rest = [] ∧ cs = []
  | Seq r1 r2 =>
      ∃ w1 w2 cs1 cs2,
        w = w1 ++ w2 ∧ cs = cs1 ++ cs2
        ∧ derives r1 i w1 (w2 ++ rest) cs1
        ∧ derives r2 (i + length w1) w2 rest cs2
  end.

(** ** The dataset, as the generator of demo lockfiles reads it

    [generate-infected-lockfiles.js] has its own [parseAffectedPackages],
    which returns the records in the order of the lines. *)

Module Generator.
Section dataset.
Variable readFileSync : jsstring → option jsstring.

(** The body of the loop: the record of a line, if it has one. *)
Definition parseLine (line : jsstring) : option pkg :=
  let line := trim line in
  if bool_decide (line = []) then None
  else match str_match line csvLineRegex with
       | Some m => Some (Pkg (capture m 1) (capture m 2))
       | None => None
       end.

Definition parseAffectedPackages (csvPath : jsstring) : completion (list pkg) :=
  match readFileSync csvPath with
  | None => Throw SystemError
  | Some content =>
      let lines := split_lines (trim content) in
      Normal (omap parseLine (drop 1 lines))
  end.
End dataset.

(** [s.replace(p, r)] for a pattern string [p] and a replacement [r]
    without dollar signs: the first occurrence of [p] is replaced. *)
Fixpoint String_replace (s p r : jsstring) : jsstring :=
  if startsWith p s then r ++ drop (length p) s
  else match s with
       | [] => []
       | c :: s' => c :: String_replace s' p r
       end.

(** [o[k] = v] on the properties of an object, for a key that is not an
    array index: the value of an own property is replaced where it stands,
    a new property comes last. *)
Fixpoint assocSet (k : jsstring) (v : json) (props : list (jsstring * json))
    : list (jsstring * json) :=
  match props with
  | [] => [(k, v)]
  | (k', v') :: rest =>
      if bool_decide (k' = k) then (k, v) :: rest else (k', v') :: assocSet k v rest
  end.

Section inject.
(** The random text of the [k]-th call of [generateFakeIntegrity] in an
    injection. *)
Variable generateFakeIntegrity : nat → jsstring.
Variable JSON_parse : jsstring → option json.
Variable readFileSync : jsstring → option jsstring.

(** The entry written for a record. *)
Definition packageEntry (pkg : pkg) (integrity : jsstring) : json :=
  JObject
    [(js "version", JString (version pkg));
     (js "resolved",
      JString (js "https://registry.npmjs.org/" ++ packageName pkg ++ js "/-/"
               ++ String_replace (String_replace (packageName pkg) (js "@") [])
                    (js "/") (js "-")
               ++ js "-" ++ version pkg ++ js ".tgz"));
     (js "integrity", JString integrity)].

(** The loop of [injectIntoPackageLock] over the records, on the value of
    [lockfile.packages] as [JSON.stringify] will show it.  The file is a
    module, hence strict: an assignment to a property of a string, a
    number or a boolean throws; on an array it sets a property that is
    not an index, which [JSON.stringify] does not show. *)
Fixpoint injectPackages (packages : json) (packagesToInject : list pkg) (k : nat)
    : completion json :=
  match packagesToInject with
  | [] => Normal packages
  | pkg :: rest =>
      let key := js "node_modules/" ++ packageName pkg in
      match packages with
      | JObject props =>
          injectPackages
            (JObject (assocSet key (packageEntry pkg (generateFakeIntegrity k)) props))
            rest (S k)
      | JArray elts => injectPackages (JArray elts) rest (S k)
      | _ => Throw TypeError
      end
  end.

(** [injectIntoPackageLock], up to the document that it hands to
    [JSON.stringify] and writes.  Reading a property of [null] throws, and
    so does the assignment of [packages] to a string, a number or a
    boolean; on an array the assignment and the loop leave nothing that
    [JSON.stringify] shows. *)
Definition injectIntoPackageLock (sourcePath : jsstring) (packagesToInject : list pkg)
    : completion json :=
  match readFileSync sourcePath with
  | None => Throw SystemError
  | Some content =>
      match JSON_parse content with
      | None => Throw SyntaxError
      | Some JNull => Throw TypeError
      | Some (JBool _) | Some (JNumber _) | Some (JString _) => Throw TypeError
      | Some (JArray elts) => Normal (JArray elts)
      | Some (JObject props) =>
          let packages :=
            match truthyProp (JObject props) (js "packages") with
            | Some packages => packages
            | None => JObject []
            end in
          match injectPackages packages packagesToInject 0 with
          | Throw e => Throw e
          | Normal packages' => Normal (JObject (assocSet (js "packages") packages' props))
          end
      end
  end.

(** [s.indexOf(p, from)] for a non-empty [p]: the first index at or
    after [from] at which [p] occurs in [s]; [None] stands for [-1]. *)
Fixpoint indexOf_at (p s : jsstring) (i : nat) : option nat :=
  if startsWith p s then Some i
  else match s with
       | [] => None
       | _ :: s' => indexOf_at p s' (S i)
       end.

Definition indexOf (s p : jsstring) (from : nat) : option nat :=
  indexOf_at p (drop from s) from.

(** The lines written for a record in a text lockfile. *)
Definition yamlEntry (pkg : pkg) (integrity : jsstring) : jsstring :=
  js "  '" ++ packageName pkg ++ js "@" ++ version pkg ++ js "':" ++ [10%N]
  ++ js "    resolution: {integrity: " ++ integrity ++ js "}" ++ [10%N]
  ++ js "    engines: {node: '>=14'}" ++ [10%N]
  ++ [10%N].

Fixpoint yamlEntries (packagesToInject : list pkg) (k : nat) : jsstring :=
  match packagesToInject with
  | [] => []
  | pkg :: rest => yamlEntry pkg (generateFakeIntegrity k) ++ yamlEntries rest (S k)
  end.

(** [injectIntoPnpmLock], up to the text that it writes. *)
Definition injectIntoPnpmLock (sourcePath : jsstring) (packagesToInject : list pkg)
    : completion jsstring :=
  match readFileSync sourcePath with
  | None => Throw SystemError
  | Some content =>
      let insertPoint :=
        match indexOf content ([10%N] ++ js "packages:") 0 with
        | Some i => Some i
        | None => indexOf content ([10%N] ++ js "snapshots:") 0
        end in
      let '(content, insertPoint) :=
        match insertPoint with
        | None =>
            let content := content ++ [10%N; 10%N] ++ js "packages:" ++ [10%N] in
            (content, length content)
        | Some i =>
            (content, match indexOf content [10%N] (i + 1) with
                      | Some j => j
                      | None => length content
                      end)
        end in
      let yamlEntries := [10%N] ++ yamlEntries packagesToInject 0 in
      let before := take insertPoint content in
      let after := drop insertPoint content in
      Normal (before ++ yamlEntries ++ after)
  end.
End inject.
End Generator.

(** The index holds version [v] under name [n]. *)
Definition inIndex (idx : gmap (list N) (gset (list N))) (n v : jsstring) : Prop :=
  ∃ affectedVersions, idx !! n = Some affectedVersions ∧ v ∈ affectedVersions.

(** The line of the dataset for a record: both fields in double quotes,
    a semicolon between them. *)
Definition recordLine (r : pkg) : jsstring :=
  [34%N] ++ packageName r ++ [34%N] ++ js ";" ++ [34%N] ++ version r ++ [34%N].

(** A field that a line of the dataset can hold: not empty, without a
    double quote and without a line feed. *)
Definition isField (s : jsstring) : Prop :=
  s ≠ [] ∧ (34%N ∉ s) ∧ (10%N ∉ s).

(** The text of a dataset: a first line, then a line for each record. *)
Definition datasetText (header : jsstring) (records : list pkg) : jsstring :=
  header ++ concat ((λ r, [10%N] ++ recordLine r) <$> records).

(** ** The entries of a nested tree

    [nestedEntry deps k value]: [value] is an entry under the key [k] of
    [deps], or of the truthy [dependencies] of one of its entries, at any
    depth. *)
Inductive nestedEntry : json → jsstring → json → Prop :=
| nested_here (deps : json) (k : jsstring) (value : json) :
    (k, value) ∈ Object_entries deps → nestedEntry deps k value
| nested_under (deps : json) (k' : jsstring) (value' dependencies : json)
    (k : jsstring) (value : json) :
    (k', value') ∈ Object_entries deps →
    truthyProp value' (js "dependencies") = Some dependencies →
    nestedEntry dependencies k value →
    nestedEntry deps k value.

(** ** Finding the lockfiles

    The file system as the walk sees it.  [readdirSync(dir, {withFileTypes:
    true})] throws or lists the entries of a directory, each of them a
    file, a directory or something else (a symbolic link, a socket: both
    [isFile()] and [isDirectory()] answer [false]); a directory entry
    carries what [readdirSync] shows for it when the walk comes to it.
    [toLowerCase], [path.join] and [existsSync] are taken as given. *)

Definition COMMON_LOCKFILES : list jsstring :=
  [js "package-lock.json"; js "npm-shrinkwrap.json"; js "pnpm-lock.yaml";
   js "yarn.lock"; js "bun.lockb"; js "bun.lock"].

Definition SKIP_DIRS : gset (list N) :=
  list_to_set [js "node_modules"; js ".git"; js ".svn"; js ".hg"; js "vendor";
               js "dist"; js "build"; js ".next"; js ".nuxt"; js ".output";
               js ".turbo"; js ".cache"].

Inductive dirent : Type :=
| FileEntry (name : jsstring)
| DirectoryEntry (name : jsstring) (content : directory)
| OtherEntry (name : jsstring)
with directory : Type :=
| Unreadable
| Readable (entries : list dirent).

Definition direntName (entry : dirent) : jsstring :=
  match entry with
  | FileEntry name | DirectoryEntry name _ | OtherEntry name => name
  end.

Section discovery.
Variable toLowerCase : jsstring → jsstring.
Variable join : jsstring → jsstring → jsstring.
Variable existsSync : jsstring → bool.

Definition isLockfile (filename : jsstring) : bool :=
  let lower := toLowerCase filename in
  if existsb (λ lf, bool_decide (lower = toLowerCase lf)) COMMON_LOCKFILES then true
  else if includes lower (js "lock") then
    endsWith lower (js ".json") || endsWith lower (js ".yaml")
    || endsWith lower (js ".yml") || endsWith lower (js ".lock")
    || endsWith lower (js ".lockb")
  else false.

(** The first loop of [findLockfilesInProject]: the common names that
    exist in the directory. *)
Definition commonLockfiles (projectDir : jsstring) : list jsstring :=
  List.filter existsSync (join projectDir <$> COMMON_LOCKFILES).

(** What the second loop does with an entry, given the result of the
    recursive call for a directory. *)
Definition addEntry (projectDir : jsstring) (recursive : bool)
    (subFound : jsstring → directory → list jsstring)
    (found : list jsstring) (entry : dirent) : list jsstring :=
  let fullPath := join projectDir (direntName entry) in
  match entry with
  | FileEntry name =>
      if isLockfile name then
        if bool_decide (fullPath ∈ found) then found else found ++ [fullPath]
      else found
  | DirectoryEntry name content =>
      if recursive && negb (bool_decide (name ∈ SKIP_DIRS))
         && negb (startsWith (js ".") name)
      then found ++ subFound fullPath content
      else found
  | OtherEntry _ => found
  end.

(** What an entry adds to the paths found. *)
Definition adds (projectDir : jsstring) (recursive : bool)
    (subFound : jsstring → directory → list jsstring) (entry : dirent)
    (path : jsstring) : Prop :=
  match entry with
  | FileEntry name => isLockfile name = true ∧ path = join projectDir name
  | DirectoryEntry name content =>
      recursive = true ∧ (name ∉ SKIP_DIRS) ∧ startsWith (js ".") name = false
      ∧ path ∈ subFound (join projectDir name) content
  | OtherEntry _ => False
  end.

(** An exception of [readdirSync] is caught and ignored: the common names
    found before it are returned. *)
Fixpoint findLockfilesInProject (projectDir : jsstring) (dir : directory)
    (recursive : bool) {struct dir} : list jsstring :=
  let found := commonLockfiles projectDir in
  match dir with
  | Unreadable => found
  | Readable entries =>
      (fix loop (entries : list dirent) (found : list jsstring) : list jsstring :=
         match entries with
         | [] => found
         | entry :: rest =>
             let fullPath := join projectDir (direntName entry) in
             loop rest
               match entry with
               | FileEntry name =>
                   if isLockfile name then
                     if bool_decide (fullPath ∈ found) then found else found ++ [fullPath]
                   else found
               | DirectoryEntry name content =>
                   if recursive && negb (bool_decide (name ∈ SKIP_DIRS))
                      && negb (startsWith (js ".") name)
                   then found ++ findLockfilesInProject fullPath content true
                   else found
               | OtherEntry _ => found
               end
         end) entries found
  end.

(** [getLockfiles]: [statSync] throws for a path that does not exist,
    else tells whether it is a directory; [readdir] is what the walk sees
    from a directory it starts in.  An empty path argument is falsy. *)
Variable statSync : jsstring → option bool.
Variable readdir : jsstring → directory.
Variable LOCKS_DIR : jsstring.

Definition getLockfiles (pathArg : option jsstring) (recursive : bool)
    : completion (list jsstring) :=
  match pathArg with
  | Some (c :: p) =>
      let pathArg := c :: p in
      match statSync pathArg with
      | None => Throw SystemError
      | Some true => Normal (findLockfilesInProject pathArg (readdir pathArg) recursive)
      | Some false => Normal [pathArg]
      end
  | _ => Normal (findLockfilesInProject LOCKS_DIR (readdir LOCKS_DIR) false)
  end.
End discovery.

(** The command with its walk: [main] calls [getLockfiles(pathArg)], so
    the walk from a directory argument is recursive. *)
Definition command (JSON_parse : jsstring → option json)
    (readFileSync : jsstring → option jsstring) (AFFECTED_PACKAGES_FILE : jsstring)
    (basename : jsstring → jsstring) (toLowerCase : jsstring → jsstring)
    (join : jsstring → jsstring → jsstring) (existsSync : jsstring → bool)
    (statSync : jsstring → option bool) (readdir : jsstring → directory)
    (LOCKS_DIR : jsstring) (help : bool) (pathArg : option jsstring) : outcome :=
  main JSON_parse readFileSync AFFECTED_PACKAGES_FILE
    (λ pathArg, getLockfiles toLowerCase join existsSync statSync readdir LOCKS_DIR
                  pathArg true)
    basename help pathArg.

(** What the walk finds, as a relation: a common name that exists in a
    directory it visits, a file of a visited directory that has the name
    of a lockfile, and, in a recursive walk, what is found in a
    subdirectory that is neither hidden nor in [SKIP_DIRS]. *)
Inductive discovered (toLowerCase : jsstring → jsstring)
    (join : jsstring → jsstring → jsstring) (existsSync : jsstring → bool)
    : jsstring → directory → bool → jsstring → Prop :=
| discovered_common (projectDir : jsstring) (dir : directory) (recursive : bool)
    (lockfile : jsstring) :
    lockfile ∈ COMMON_LOCKFILES →
    existsSync (join projectDir lockfile) = true →
    discovered toLowerCase join existsSync projectDir dir recursive (join projectDir lockfile)
| discovered_file (projectDir : jsstring) (entries : list dirent) (recursive : bool)
    (name : jsstring) :
    FileEntry name ∈ entries →
    isLockfile toLowerCase name = true →
    discovered toLowerCase join existsSync projectDir (Readable entries) recursive
      (join projectDir name)
| discovered_below (projectDir : jsstring) (entries : list dirent)
    (name : jsstring) (content : directory) (path : jsstring) :
    DirectoryEntry name content ∈ entries →
    name ∉ SKIP_DIRS →
    startsWith (js ".") name = false →
    discovered toLowerCase join existsSync (join projectDir name) content true path →
    discovered toLowerCase join existsSync projectDir (Readable entries) true path.

(** ** An example runtime for the walk

    Lower-casing of the letters A to Z, joining with a slash, and a
    directory that lists [yarn.lock] twice, a file that is no lockfile, a
    lockfile in capitals, and two subdirectories with a lockfile each. *)
Definition asciiLowerCase (s : jsstring) : jsstring :=
  (λ c, if (65 <=? c)%N && (c <=? 90)%N then (c + 32)%N else c) <$> s.

Definition slashJoin (dir name : jsstring) : jsstring := dir ++ js "/" ++ name.

Definition demoDirectory : directory :=
  Readable [FileEntry (js "yarn.lock"); FileEntry (js "yarn.lock");
            FileEntry (js "README.md"); FileEntry (js "Cargo.LOCK");
            DirectoryEntry (js "node_modules") (Readable [FileEntry (js "yarn.lock")]);
            DirectoryEntry (js "app") (Readable [FileEntry (js "pnpm-lock.yaml")])].

(** ** Quoted entries of a text lockfile

    The names and versions that the first method of [scanYamlLockfile]
    reads back from an entry [\x27name@version\x27:]: a name is a
    non-empty text without [@] and without quotes, possibly after one
    leading [@]; a version is a non-empty text without quotes, colons and
    white space. *)
Definition isEntryName (n : jsstring) : bool :=
  let unscoped := match n with
                  | c :: n' => if (c =? 64)%N then n' else n
                  | [] => []
                  end in
  negb (bool_decide (unscoped = []))
  && forallb (λ c, negb ((c =? 64)%N || isQuote c)) unscoped.

Definition isEntryVersion (v : jsstring) : bool :=
  negb (bool_decide (v = []))
  && forallb (λ c, negb (isQuote c || (c =? 58)%N || isSpace c)) v.

(** A quoted entry. *)
Definition quotedEntry (n v : jsstring) : jsstring :=
  [39%N] ++ n ++ js "@" ++ v ++ [39%N] ++ js ":".

(** ** Two-line entries of a text lockfile

    The lines that the second method of [scanYamlLockfile] reads as an
    entry: a name line (an indented name, in quotes or not, then a colon),
    specifier lines, and a version line.  A name is a non-empty text of
    word characters, hyphens, dots and slashes, possibly after one leading
    [@]; a version is a non-empty text without quotes, opening parentheses
    and white space. *)
Definition isIndent (s : jsstring) : bool :=
  negb (bool_decide (s = [])) && forallb isSpace s.

Definition isOptQuote (q : jsstring) : bool :=
  match q with
  | [] => true
  | [c] => isQuote c
  | _ => false
  end.

Definition isImporterName (n : jsstring) : bool :=
  let unscoped := match n with
                  | c :: n' => if (c =? 64)%N then n' else n
                  | [] => []
                  end in
  negb (bool_decide (unscoped = []))
  && forallb (λ c, isWord c || oneOf "-./" c) unscoped.

Definition isLineVersion (v : jsstring) : bool :=
  negb (bool_decide (v = []))
  && forallb (λ c, negb (isQuote c || (c =? 40)%N || isSpace c)) v.

Definition importerNameLine (indent oq n cq trailing : jsstring) : jsstring :=
  indent ++ oq ++ n ++ cq ++ js ":" ++ trailing.

Definition importerSpecifierLine (indent text : jsstring) : jsstring :=
  indent ++ js "specifier:" ++ text.

Definition importerVersionLine (indent ws oq v rest : jsstring) : jsstring :=
  indent ++ js "version:" ++ ws ++ oq ++ v ++ rest.

(** * Properties *)

Ltac munfold :=
  unfold mbind, M_bind, mret, M_ret, throw, get_store, put_store,
    checked_add, found_push, console_error, try_catch in *.

(** ** Induction on documents *)

Section json_induction.
Variable P : json → Prop.
Hypothesis Hnull : P JNull.
Hypothesis Hbool : ∀ b, P (JBool b).
Hypothesis Hnumber : ∀ repr, P (JNumber repr).
Hypothesis Hstring : ∀ s, P (JString s).
Hypothesis Harray : ∀ elts, Forall P elts → P (JArray elts).
Hypothesis Hobject : ∀ props, Forall (λ kv, P kv.2) props → P (JObject props).

Fixpoint json_induction (v : json) : P v :=
  match v with
  | JNull => Hnull
  | JBool b => Hbool b
  | JNumber repr => Hnumber repr
  | JString s => Hstring s
  | JArray elts =>
      Harray elts
        ((fix go (l : list json) : Forall P l :=
            match l with
            | [] => List.Forall_nil P
            | x :: rest => @List.Forall_cons _ P x rest (json_induction x) (go rest)
            end) elts)
  | JObject props =>
      Hobject props
        ((fix go (l : list (jsstring * json)) : Forall (λ kv, P kv.2) l :=
            match l with
            | [] => List.Forall_nil _
            | kv :: rest => @List.Forall_cons _ (λ kv, P kv.2) kv rest (json_induction kv.2) (go rest)
            end) props)
  end.
End json_induction.

(** ** The matcher *)

Arguments js : simpl never.

(** One call of the matcher, in closed form. *)
Lemma checkAndAddPackage_run (n : jsstring) (v : json) (σ : store) :
  checkAndAddPackage n v σ =
    match dedupKey (n, v) with
    | None => (Throw TypeError, σ)
    | Some key =>
        if bool_decide (key ∈ checked σ) then (Normal tt, σ)
        else (Normal tt,
              Store (affectedPackages σ) (found σ ++ hit (affectedPackages σ) (n, v))
                    ({[ key ]} ∪ checked σ) (stderr σ))
    end.
Proof.
  unfold checkAndAddPackage, dedupKey, hit; cbn [fst snd].
  munfold. destruct (ToString v) as [t|]; cbn [option_bind]; [|done].
  destruct (bool_decide _); [done|].
  destruct σ as [idx fnd chk err]; cbn [affectedPackages found checked stderr].
  destruct v, (idx !! n) as [vs|]; rewrite ?app_nil_r; try done.
  destruct (bool_decide _); [done|by rewrite app_nil_r].
Qed.

(** The state after the matcher has run over a list of candidates: the
    index and the error stream are as before, [found] has grown by
    [reported]. *)
Lemma matchAll_store (cs : list candidate) (σ : store) :
  affectedPackages (matchAll cs σ).2 = affectedPackages σ
  ∧ stderr (matchAll cs σ).2 = stderr σ
  ∧ found (matchAll cs σ).2 = found σ ++ reported (affectedPackages σ) (checked σ) cs.
Proof.
  revert σ. induction cs as [|[n v] cs IH]; intros σ.
  - simpl. by rewrite app_nil_r.
  - unfold matchAll in *. cbn [forM fst snd]. unfold mbind, M_bind at 1 2 3.
    rewrite checkAndAddPackage_run. cbn [reported].
    destruct (dedupKey (n, v)) as [key|]; cbn [snd fst]; [|by rewrite app_nil_r].
    destruct (bool_decide (key ∈ checked σ)); [apply IH|].
    destruct (IH (Store (affectedPackages σ)
                (found σ ++ hit (affectedPackages σ) (n, v))
                ({[ key ]} ∪ checked σ) (stderr σ))) as (-> & -> & ->); simpl.
    by rewrite (assoc_L (++)).
Qed.

Lemma matchAll_app (cs1 cs2 : list candidate) (σ : store) :
  matchAll (cs1 ++ cs2) σ = (matchAll cs1 ;; matchAll cs2) σ.
Proof.
  revert σ. induction cs1 as [|c cs1 IH]; intros σ; [done|].
  unfold matchAll in *. simpl. munfold.
  destruct (checkAndAddPackage c.1 c.2 σ) as [[[]|e] σ']; [|done].
  apply IH.
Qed.

Lemma bind_run {A B} (m : M A) (f : A → M B) (σ : store) :
  (m ≫= f) σ =
    match m σ with
    | (Normal a, σ') => f a σ'
    | (Throw e, σ') => (Throw e, σ')
    end.
Proof. reflexivity. Qed.

Lemma forM_ext {A} (l : list A) (f g : A → M unit) (σ : store) :
  (∀ x σ', x ∈ l → f x σ' = g x σ') → forM l f σ = forM l g σ.
Proof.
  revert σ. induction l as [|x l IH]; intros σ Hfg; [done|].
  cbn [forM]. rewrite !bind_run, (Hfg x σ) by left.
  destruct (g x σ) as [[[]|e] σ']; [|done].
  apply IH. intros y σ'' Hy. apply Hfg. by right.
Qed.

Lemma matchAll_cons (c : candidate) (cs : list candidate) (σ : store) :
  matchAll (c :: cs) σ = (checkAndAddPackage c.1 c.2 ;; matchAll cs) σ.
Proof. reflexivity. Qed.

(** ** The extractors are the matcher over their candidates *)

Lemma scanPackagesEntry_candidate (entry : jsstring * json) (σ : store) :
  scanPackagesEntry entry σ = matchAll (option_list (packagesCandidate entry)) σ.
Proof.
  destruct entry as [key value]. unfold scanPackagesEntry, packagesCandidate.
  destruct (truthyProp value (js "version")) as [version|]; cbn [mbind option_bind]; [|done].
  destruct (bool_decide (derivePackageName key = [])); cbv [option_list option_rect]; [done|].
  rewrite matchAll_cons, bind_run. cbn [fst snd].
  by destruct (checkAndAddPackage _ _ σ) as [[[]|e] σ'].
Qed.

Lemma scanPackages_candidates (entries : list (jsstring * json)) (σ : store) :
  forM entries scanPackagesEntry σ = matchAll (packagesCandidates entries) σ.
Proof.
  revert σ. induction entries as [|entry entries IH]; intros σ; [done|].
  cbn [forM]. unfold packagesCandidates. cbn [omap list_omap].
  fold (omap packagesCandidate entries). fold (packagesCandidates entries).
  rewrite bind_run, scanPackagesEntry_candidate.
  destruct (packagesCandidate entry) as [c|]; cbv [option_list option_rect].
  - rewrite !matchAll_cons, !bind_run.
    destruct (checkAndAddPackage c.1 c.2 σ) as [[[]|e] σ']; [|done]. apply IH.
  - apply IH.
Qed.

Lemma v1Recurse_truthyProp (value : json) :
  v1Recurse value =
    match truthyProp value (js "dependencies") with
    | Some dependencies => scanNpmV1Dependencies dependencies
    | None => mret tt
    end.
Proof.
  destruct value as [| [] | repr | s | elts | props]; try reflexivity.
  - unfold truthyProp. cbn [truthy prop]. by destruct (negb _).
  - unfold truthyProp. cbn [truthy prop]. by destruct (negb _).
  - unfold truthyProp. cbn [v1Recurse truthy prop].
    induction props as [|[k d] props IH]; [done|].
    cbn [v1Find assoc]. destruct (bool_decide (k = js "dependencies")); [|done].
    by destruct (truthy d).
Qed.

Lemma scanNpmV1Dependencies_object (props : list (jsstring * json)) (σ : store) :
  scanNpmV1Dependencies (JObject props) σ = forM props v1Entry σ.
Proof.
  revert σ. induction props as [|[k v] props IH]; intros σ; [done|].
  change (scanNpmV1Dependencies (JObject ((k, v) :: props)) σ) with
    (((match truthyProp v (js "version") with
       | Some version => checkAndAddPackage k version
       | None => mret tt
       end ;; v1Recurse v) ;; scanNpmV1Dependencies (JObject props)) σ).
  cbn [forM v1Entry]. rewrite v1Recurse_truthyProp, !bind_run.
  destruct (match truthyProp v (js "version") return M unit with
            | Some version => checkAndAddPackage k version
            | None => mret tt
            end σ) as [[[]|e] σ1]; [|done].
  destruct (match truthyProp v (js "dependencies") return M unit with
            | Some dependencies => scanNpmV1Dependencies dependencies
            | None => mret tt
            end σ1) as [[[]|e] σ2]; [|done].
  apply IH.
Qed.

Lemma v1Loop_entries (elts : list json) (i : nat) (σ : store) :
  v1Loop i elts σ = forM (imap (λ j x, (index_key (i + j), x)) elts) v1Entry σ.
Proof.
  revert i σ. induction elts as [|v elts IH]; intros i σ; [done|].
  cbn [v1Loop imap forM v1Entry]. rewrite v1Recurse_truthyProp, !bind_run.
  replace (i + 0) with i by lia.
  destruct (match truthyProp v (js "version") return M unit with
            | Some version => checkAndAddPackage (index_key i) version
            | None => mret tt
            end σ) as [[[]|e] σ1]; [|done].
  destruct (match truthyProp v (js "dependencies") return M unit with
            | Some dependencies => scanNpmV1Dependencies dependencies
            | None => mret tt
            end σ1) as [[[]|e] σ2]; [|done].
  rewrite IH. f_equal. apply imap_ext. intros j x _.
  unfold compose. by replace (S i + j) with (i + S j) by lia.
Qed.

Lemma forM_skip {A} (l : list A) (f : A → M unit) (σ : store) :
  (∀ x σ', x ∈ l → f x σ' = (Normal tt, σ')) → forM l f σ = (Normal tt, σ).
Proof.
  induction l as [|x l IH]; intros Hf; [done|].
  cbn [forM]. rewrite bind_run, (Hf x σ) by left.
  apply IH. intros y σ' Hy. apply Hf. by right.
Qed.

(** The function as the source writes it: a loop over
    [Object.entries(deps)] whose body checks the entry and then recurses
    into its [dependencies]. *)
Lemma scanNpmV1Dependencies_unfold (deps : json) (σ : store) :
  scanNpmV1Dependencies deps σ = forM (Object_entries deps) v1Entry σ.
Proof.
  destruct deps as [| b | repr | s | elts | props]; try reflexivity.
  - symmetry. apply forM_skip. intros [k v] σ' Hin. cbn [Object_entries] in Hin.
    apply elem_of_lookup_imap in Hin as (i & c & [= -> ->] & _).
    reflexivity.
  - change (scanNpmV1Dependencies (JArray elts) σ) with (v1Loop 0 elts σ).
    apply v1Loop_entries.
  - apply scanNpmV1Dependencies_object.
Qed.

Lemma v1RecurseC_truthyProp (value : json) :
  v1RecurseC value =
    match truthyProp value (js "dependencies") with
    | Some dependencies => v1Candidates dependencies
    | None => []
    end.
Proof.
  destruct value as [| [] | repr | s | elts | props]; try reflexivity.
  - unfold truthyProp. cbn [truthy prop]. by destruct (negb _).
  - unfold truthyProp. cbn [truthy prop]. by destruct (negb _).
  - unfold truthyProp. cbn [v1RecurseC truthy prop].
    induction props as [|[k d] props IH]; [done|].
    cbn [v1FindC assoc]. destruct (bool_decide (k = js "dependencies")); [|done].
    by destruct (truthy d).
Qed.

Lemma v1Candidates_object (props : list (jsstring * json)) :
  v1Candidates (JObject props) = props ≫= v1EntryCandidates.
Proof.
  induction props as [|[k v] props IH]; [done|].
  change (v1Candidates (JObject ((k, v) :: props))) with
    ((match truthyProp v (js "version") with
      | Some version => [(k, version)]
      | None => []
      end ++ v1RecurseC v) ++ v1Candidates (JObject props)).
  by rewrite IH, v1RecurseC_truthyProp.
Qed.

Lemma v1LoopC_entries (elts : list json) (i : nat) :
  v1LoopC i elts = imap (λ j x, (index_key (i + j), x)) elts ≫= v1EntryCandidates.
Proof.
  revert i. induction elts as [|v elts IH]; intros i; [done|].
  cbn [v1LoopC imap]. rewrite bind_cons. cbn [v1EntryCandidates].
  rewrite v1RecurseC_truthyProp, IH. replace (i + 0) with i by lia.
  do 2 f_equal. apply imap_ext. intros j x _.
  unfold compose. by replace (S i + j) with (i + S j) by lia.
Qed.

Lemma v1Candidates_unfold (deps : json) :
  v1Candidates deps = Object_entries deps ≫= v1EntryCandidates.
Proof.
  destruct deps as [| b | repr | s | elts | props]; try reflexivity.
  - cbn [v1Candidates Object_entries]. symmetry.
    assert (∀ l : list (jsstring * json),
      Forall (λ e, v1EntryCandidates e = []) l → l ≫= v1EntryCandidates = []) as Hnil.
    { induction 1 as [|e l He _ IH]; [done|]. by rewrite bind_cons, He, IH. }
    apply Hnil, Forall_forall. intros [k v] Hin.
    apply elem_of_lookup_imap in Hin as (i & c & [= -> ->] & _).
    reflexivity.
  - change (v1Candidates (JArray elts)) with (v1LoopC 0 elts).
    apply v1LoopC_entries.
  - apply v1Candidates_object.
Qed.

Lemma forM_bind_candidates {A} (l : list A) (f : A → M unit)
    (g : A → list candidate) (σ : store) :
  (∀ x σ', x ∈ l → f x σ' = matchAll (g x) σ') → forM l f σ = matchAll (l ≫= g) σ.
Proof.
  revert σ. induction l as [|x l IH]; intros σ Hfg; [done|].
  cbn [forM]. rewrite bind_cons, matchAll_app, !bind_run, (Hfg x σ) by left.
  destruct (matchAll (g x) σ) as [[[]|e] σ']; [|done].
  apply IH. intros y σ'' Hy. apply Hfg. by right.
Qed.

Lemma truthyProp_Some (v : json) (k : jsstring) (x : json) :
  truthyProp v k = Some x → ∃ props, v = JObject props ∧ (k, x) ∈ props ∧ truthy x = true.
Proof.
  unfold truthyProp. destruct (truthy v); [|done].
  destruct v as [| b | repr | s | elts | props]; try done. cbn [prop].
  destruct (assoc k props) as [y|] eqn:Hassoc; [|done].
  destruct (truthy y) eqn:Hy; [|done]. intros [= ->].
  exists props. split_and!; [done| |done].
  induction props as [|[k' y] props IH]; [done|]. cbn [assoc] in Hassoc.
  case_bool_decide; simplify_eq; [left|right; auto].
Qed.

Lemma v1Entry_candidates (entry : jsstring * json) (σ : store) :
  (∀ d σ', truthyProp entry.2 (js "dependencies") = Some d →
     scanNpmV1Dependencies d σ' = matchAll (v1Candidates d) σ') →
  v1Entry entry σ = matchAll (v1EntryCandidates entry) σ.
Proof.
  destruct entry as [k v]. cbn [snd v1Entry v1EntryCandidates]. intros Hd.
  rewrite matchAll_app, !bind_run.
  assert (match truthyProp v (js "version") return M unit with
          | Some version => checkAndAddPackage k version
          | None => mret tt
          end σ
          = matchAll match truthyProp v (js "version") with
                     | Some version => [(k, version)]
                     | None => []
                     end σ) as ->.
  { destruct (truthyProp v (js "version")) as [version|]; [|done].
    rewrite matchAll_cons, bind_run. cbn [fst snd].
    by destruct (checkAndAddPackage k version σ) as [[[]|e] σ']. }
  destruct (matchAll _ σ) as [[[]|e] σ1]; [|done].
  destruct (truthyProp v (js "dependencies")) as [d|]; [by apply Hd|done].
Qed.

Lemma scanNpmV1Dependencies_candidates_aux (v : json) :
  (∀ σ, scanNpmV1Dependencies v σ = matchAll (v1Candidates v) σ)
  ∧ (∀ d σ, truthyProp v (js "dependencies") = Some d →
       scanNpmV1Dependencies d σ = matchAll (v1Candidates d) σ).
Proof.
  induction v as [| b | repr | s | elts IH | props IH] using json_induction.
  1-3: split; [done|]; intros d σ (? & ? & _)%truthyProp_Some; done.
  - split; [|intros d σ (? & ? & _)%truthyProp_Some; done].
    intros σ. rewrite scanNpmV1Dependencies_unfold, v1Candidates_unfold.
    apply forM_bind_candidates. intros [k x] σ' Hin. cbn [Object_entries] in Hin.
    apply elem_of_lookup_imap in Hin as (i & c & [= -> ->] & _).
    apply v1Entry_candidates. intros d σ'' (? & ? & _)%truthyProp_Some; done.
  - split; [|intros d σ (? & ? & _)%truthyProp_Some; done].
    intros σ. rewrite scanNpmV1Dependencies_unfold, v1Candidates_unfold.
    apply forM_bind_candidates. intros [k x] σ' Hin. cbn [Object_entries] in Hin.
    apply elem_of_lookup_imap in Hin as (i & c & [= -> ->] & Hc).
    apply v1Entry_candidates. intros d σ'' Hd.
    rewrite Forall_lookup in IH. by apply (proj2 (IH _ _ Hc)).
  - rewrite Forall_forall in IH. split.
    + intros σ. rewrite scanNpmV1Dependencies_unfold, v1Candidates_unfold.
      apply forM_bind_candidates. intros [k x] σ' Hin.
      apply v1Entry_candidates. intros d σ'' Hd.
      by apply (proj2 (IH _ Hin)).
    + intros d σ (props' & [= <-] & Hin & _)%truthyProp_Some.
      apply (proj1 (IH _ Hin)).
Qed.

Lemma scanNpmV1Dependencies_candidates (deps : json) (σ : store) :
  scanNpmV1Dependencies deps σ = matchAll (v1Candidates deps) σ.
Proof. apply scanNpmV1Dependencies_candidates_aux. Qed.

Lemma scanImporterLines_candidates (lines : list jsstring)
    (currentPackage : option jsstring) (σ : store) :
  scanImporterLines lines currentPackage σ
  = matchAll (importerCandidates lines currentPackage) σ.
Proof.
  revert currentPackage σ.
  induction lines as [|line lines IH]; intros currentPackage σ; [done|].
  cbn [scanImporterLines importerCandidates].
  destruct (str_match line pkgLineRegex) as [pkgMatch|]; [apply IH|].
  destruct currentPackage as [name|]; [|apply IH].
  destruct (bool_decide (name = [])); [apply IH|].
  destruct (str_match line versionLineRegex) as [versionMatch|].
  - rewrite matchAll_cons, !bind_run. cbn [fst snd].
    destruct (checkAndAddPackage _ _ σ) as [[[]|e] σ']; [apply IH|done].
  - destruct (str_match line specifierLineRegex); apply IH.
Qed.

Lemma forM_fmap_candidates {A} (l : list A) (g : A → candidate) (σ : store) :
  forM l (λ x, checkAndAddPackage (g x).1 (g x).2) σ = matchAll (g <$> l) σ.
Proof.
  revert σ. induction l as [|x l IH]; intros σ; [done|].
  cbn [forM fmap list_fmap]. rewrite matchAll_cons, !bind_run.
  destruct (checkAndAddPackage _ _ σ) as [[[]|e] σ']; [apply IH|done].
Qed.

Lemma scanYamlLockfile_candidates (content : jsstring) (σ : store) :
  scanYamlLockfile content σ = matchAll (yamlCandidates content) σ.
Proof.
  unfold scanYamlLockfile, yamlCandidates.
  rewrite matchAll_app, !bind_run.
  rewrite (forM_fmap_candidates _ (λ m, (capture m 1, JString (capture m 2)))).
  destruct (matchAll _ σ) as [[[]|e] σ']; [|done].
  apply scanImporterLines_candidates.
Qed.

(** The matcher does not throw on candidates whose versions are strings. *)
Lemma matchAll_strings (cs : list candidate) (σ : store) :
  Forall (λ c, ∃ v, c.2 = JString v) cs → (matchAll cs σ).1 = Normal tt.
Proof.
  intros Hcs. revert σ. induction Hcs as [|[n v] cs [s Hs] _ IH]; intros σ; [done|].
  cbn [snd] in Hs. subst v.
  rewrite matchAll_cons, bind_run, checkAndAddPackage_run. cbn [fst snd].
  unfold dedupKey. cbn [snd ToString mbind option_bind].
  destruct (bool_decide _); apply IH.
Qed.

Lemma importerCandidates_strings (lines : list jsstring) (currentPackage : option jsstring) :
  Forall (λ c : candidate, ∃ v, c.2 = JString v) (importerCandidates lines currentPackage).
Proof.
  revert currentPackage. induction lines as [|line lines IH]; intros cur; [constructor|].
  cbn [importerCandidates].
  destruct (str_match line pkgLineRegex); [apply IH|].
  destruct cur as [name|]; [|apply IH].
  destruct (bool_decide (name = [])); [apply IH|].
  destruct (str_match line versionLineRegex).
  - constructor; [by eexists|apply IH].
  - destruct (str_match line specifierLineRegex); apply IH.
Qed.

Lemma yamlCandidates_strings (content : jsstring) :
  Forall (λ c : candidate, ∃ v, c.2 = JString v) (yamlCandidates content).
Proof.
  apply Forall_app. split; [|apply importerCandidates_strings].
  apply Forall_fmap, Forall_forall. intros m _. by eexists.
Qed.

Section runtime_properties.
Variable JSON_parse : jsstring → option json.
Variable readFileSync : jsstring → option jsstring.

Lemma member_nonnull (lockfile : json) (k : jsstring) (σ : store) :
  lockfile ≠ JNull →
  member lockfile k σ = (Normal (prop lockfile k), σ)
  ∧ truthyProp lockfile k
    = match prop lockfile k with
      | Some x => if truthy x then Some x else None
      | None => None
      end.
Proof.
  intros Hnull. destruct lockfile as [| b | repr | s | elts | props]; try done.
  all: split; [done|]; unfold truthyProp; cbn [prop]; by destruct (truthy _).
Qed.

(** The body of the [try] block, for a document other than [null]. *)
Lemma scanJsonLockfile_run (content : jsstring) (σ : store) :
  scanJsonLockfile JSON_parse content σ =
    match JSON_parse content with
    | None => console_error SyntaxError σ
    | Some JNull => console_error TypeError σ
    | Some lockfile => try_catch (matchAll (jsonCandidates lockfile)) console_error σ
    end.
Proof.
  unfold scanJsonLockfile.
  destruct (JSON_parse content) as [lockfile|]; [|done].
  assert (lockfile = JNull ∨ lockfile ≠ JNull) as [->|Hnull]
    by (destruct lockfile; auto); [done|].
  transitivity (try_catch (matchAll (jsonCandidates lockfile)) console_error σ);
    [|by destruct lockfile].
  unfold try_catch. f_equal. unfold jsonCandidates.
  destruct (member_nonnull lockfile (js "packages") σ Hnull) as [Hp ->].
  rewrite bind_run, Hp, bind_run, matchAll_app, bind_run.
  assert (∀ σ1,
    match prop lockfile (js "packages") return M unit with
    | Some packages =>
        if truthy packages then forM (Object_entries packages) scanPackagesEntry
        else mret tt
    | None => mret tt
    end σ1
    = matchAll match match prop lockfile (js "packages") with
                     | Some x => if truthy x then Some x else None
                     | None => None
                     end with
               | Some packages => packagesCandidates (Object_entries packages)
               | None => []
               end σ1) as ->.
  { intros σ1. destruct (prop lockfile (js "packages")) as [p|]; [|done].
    destruct (truthy p); [apply scanPackages_candidates|done]. }
  destruct (matchAll _ σ) as [[[]|e] σ1]; [|done].
  destruct (member_nonnull lockfile (js "dependencies") σ1 Hnull) as [Hd ->].
  rewrite bind_run, Hd.
  destruct (prop lockfile (js "dependencies")) as [d|]; [|done].
  destruct (truthy d); [by rewrite scanNpmV1Dependencies_candidates|done].
Qed.

Lemma try_catch_console_error (m : M unit) (σ : store) :
  (try_catch m console_error σ).1 = Normal tt
  ∧ affectedPackages (try_catch m console_error σ).2 = affectedPackages (m σ).2
  ∧ found (try_catch m console_error σ).2 = found (m σ).2.
Proof. unfold try_catch. by destruct (m σ) as [[[]|e] σ']. Qed.

(** The extraction never throws; it leaves the index alone and appends to
    [found] what the matcher reports for the candidates of the file. *)
Lemma extract_run (lockfilePath content : jsstring) (σ : store) :
  let extract : M unit :=
    if endsWith lockfilePath (js ".json")
    then scanJsonLockfile JSON_parse content
    else scanYamlLockfile content in
  (extract σ).1 = Normal tt
  ∧ affectedPackages (extract σ).2 = affectedPackages σ
  ∧ found (extract σ).2
    = found σ ++ reported (affectedPackages σ) (checked σ)
                          (lockfileCandidates JSON_parse lockfilePath content).
Proof.
  unfold lockfileCandidates. cbn zeta.
  destruct (endsWith lockfilePath (js ".json")).
  - rewrite scanJsonLockfile_run.
    destruct (JSON_parse content) as [lockfile|];
      [|by cbn [reported]; rewrite (right_id_L [] (++))].
    destruct (matchAll_store (jsonCandidates lockfile) σ) as (Hidx & _ & Hfound).
    destruct (try_catch_console_error (matchAll (jsonCandidates lockfile)) σ)
      as (H1 & H2 & H3).
    destruct lockfile; try (by rewrite H1, H2, H3, Hidx, Hfound).
    by cbn [reported]; rewrite (right_id_L [] (++)).
  - rewrite scanYamlLockfile_candidates.
    destruct (matchAll_store (yamlCandidates content) σ) as (Hidx & _ & Hfound).
    by rewrite matchAll_strings by apply yamlCandidates_strings.
Qed.

(** A scan of a readable file, in closed form. *)
Lemma scanLockfile_run (lockfilePath content : jsstring) (σ : store) :
  readFileSync lockfilePath = Some content →
  ∃ σ', scanLockfile JSON_parse readFileSync lockfilePath σ
        = (Normal (reported (affectedPackages σ) ∅
                            (lockfileCandidates JSON_parse lockfilePath content)), σ')
        ∧ affectedPackages σ' = affectedPackages σ.
Proof.
  intros Hread. unfold scanLockfile. rewrite Hread.
  rewrite bind_run. cbn [get_store]. rewrite bind_run. cbn [put_store].
  rewrite bind_run.
  pose proof (extract_run lockfilePath content
                (Store (affectedPackages σ) [] ∅ (stderr σ))) as (H1 & H2 & H3).
  cbn zeta in H1, H2, H3. cbn [affectedPackages found checked] in H2, H3.
  destruct ((if endsWith lockfilePath (js ".json")
             then scanJsonLockfile JSON_parse content
             else scanYamlLockfile content) _) as [c σ'].
  cbn [fst snd] in H1, H2, H3. subst c.
  exists σ'. split; [|done]. rewrite bind_run. cbn [get_store].
  unfold mret, M_ret. by rewrite H3.
Qed.
End runtime_properties.

(** ** What the matcher reports *)

Lemma elem_of_hit (idx : gmap (list N) (gset (list N))) (c : candidate) (p : pkg) :
  p ∈ hit idx c ↔
    c = (packageName p, JString (version p))
    ∧ ∃ affectedVersions,
        idx !! packageName p = Some affectedVersions ∧ version p ∈ affectedVersions.
Proof.
  destruct c as [n v], p as [pn pv]. unfold hit. cbn [fst snd packageName version].
  split.
  - destruct v as [| b | repr | s | elts | props]; try by intros ?%elem_of_nil.
    destruct (idx !! n) as [vs|] eqn:Hn; [|by intros ?%elem_of_nil].
    case_bool_decide; [|by intros ?%elem_of_nil].
    intros [= <- <-]%list_elem_of_singleton. eauto.
  - intros ([= -> ->] & vs & -> & Hv).
    rewrite bool_decide_eq_true_2 by done. by left.
Qed.

Lemma hit_key (idx : gmap (list N) (gset (list N))) (c : candidate) (p : pkg) :
  p ∈ hit idx c → dedupKey c = Some (pkgKey p).
Proof. intros [-> _]%elem_of_hit. reflexivity. Qed.

(** Every reported pair is a candidate of the list, and the index holds
    its version under its name. *)
Lemma reported_sound (idx : gmap (list N) (gset (list N))) (cs : list candidate)
    (seen : gset (list N)) (p : pkg) :
  p ∈ reported idx seen cs →
  (packageName p, JString (version p)) ∈ cs
  ∧ (pkgKey p ∉ seen)
  ∧ ∃ affectedVersions,
      idx !! packageName p = Some affectedVersions ∧ version p ∈ affectedVersions.
Proof.
  revert seen. induction cs as [|c cs IH]; intros seen; [by intros ?%elem_of_nil|].
  cbn [reported]. destruct (dedupKey c) as [key|] eqn:Hkey; [|by intros ?%elem_of_nil].
  case_bool_decide as Hseen.
  - intros (? & ? & ?)%IH. split_and!; [by right|done..].
  - intros [Hp|Hp]%elem_of_app.
    + pose proof (hit_key _ _ _ Hp) as Hk. apply elem_of_hit in Hp as [-> ?].
      split_and!; [by left| |done]. congruence.
    + apply IH in Hp as (Hc & Hnot & Hidx). split_and!; [by right| |done].
      intros Hin. apply Hnot. by apply elem_of_union_r.
Qed.

(** No pair is reported twice. *)
Lemma reported_NoDup (idx : gmap (list N) (gset (list N))) (cs : list candidate)
    (seen : gset (list N)) :
  NoDup (reported idx seen cs).
Proof.
  revert seen. induction cs as [|c cs IH]; intros seen; [constructor|].
  cbn [reported]. destruct (dedupKey c) as [key|] eqn:Hkey; [|constructor].
  case_bool_decide as Hseen; [apply IH|].
  apply NoDup_app. split_and!; [|intros p Hp|apply IH].
  - unfold hit. destruct c.2; try constructor.
    destruct (idx !! c.1); [|constructor].
    case_bool_decide; [apply NoDup_singleton|constructor].
  - pose proof (hit_key _ _ _ Hp) as Hk. intros (_ & Hnot & _)%reported_sound.
    apply Hnot. rewrite Hkey in Hk. set_solver.
Qed.

(** The reported pairs come in the order of their first occurrence among
    the candidates. *)
Lemma reported_firstOccurrences (idx : gmap (list N) (gset (list N)))
    (cs : list candidate) (seen : gset (list N)) (seenPkgs : list pkg) :
  (∀ p, p ∈ seenPkgs → pkgKey p ∈ seen) →
  sublist (reported idx seen cs) (firstOccurrences seenPkgs (omap asPkg cs)).
Proof.
  revert seen seenPkgs. induction cs as [|c cs IH]; intros seen seenPkgs Hinv;
    [constructor|].
  cbn [reported omap list_omap]. fold (omap asPkg cs).
  destruct (dedupKey c) as [key|] eqn:Hkey; [|apply sublist_nil_l].
  destruct (asPkg c) as [p|] eqn:Hp.
  - assert (c = (packageName p, JString (version p))) as ->.
    { destruct c as [n v]. unfold asPkg in Hp. cbn [fst snd] in Hp.
      destruct v; simplify_eq. done. }
    assert (key = pkgKey p) as -> by (cbv [dedupKey] in Hkey; simplify_eq/=; done).
    cbn [firstOccurrences]. case_bool_decide as Hseen.
    + case_bool_decide; [by apply IH|].
      apply sublist_cons, IH. intros q [->|Hq]%elem_of_cons; auto.
    + rewrite bool_decide_eq_false_2 by (intros ?%Hinv; done).
      assert (sublist (reported idx ({[pkgKey p]} ∪ seen) cs)
                (firstOccurrences (p :: seenPkgs) (omap asPkg cs))) as Hrest.
      { apply IH. intros q [->|Hq]%elem_of_cons; [set_solver|].
        apply elem_of_union_r. auto. }
      unfold hit. cbn [fst snd]. destruct (idx !! packageName p); [|by apply sublist_cons].
      case_bool_decide; [|by apply sublist_cons].
      destruct p. by apply sublist_skip.
  - assert (hit idx c = []) as ->.
    { unfold hit. unfold asPkg in Hp. by destruct c.2. }
    case_bool_decide; apply IH; [done|].
    intros q Hq. apply elem_of_union_r. auto.
Qed.

(** ** The name derived from a key of [packages] *)

Lemma star_eol {R} (p : char → bool) (g : nat → option R) (i : nat) (s : jsstring) :
  star p (λ i' s', match s' with [] => g i' | _ :: _ => None end) i s
  = if forallb p s then g (i + length s) else None.
Proof.
  revert i. induction s as [|c s IH]; intros i.
  - cbn. by replace (i + 0) with i by lia.
  - cbn [star forallb length]. destruct (p c); [|done].
    rewrite IH. cbn [andb]. replace (S i + length s) with (i + S (length s)) by lia.
    destruct (forallb p s); [|done]. by destruct (g _).
Qed.

Lemma startsWith_app (p t : jsstring) : startsWith p (p ++ t) = true.
Proof. induction p as [|c p IH]; [done|]. cbn. by rewrite N.eqb_refl. Qed.

Lemma startsWith_true (p s : jsstring) :
  startsWith p s = true → s = p ++ drop (length p) s.
Proof.
  revert s. induction p as [|c p IH]; intros s; [done|].
  destruct s as [|d s]; [done|]. cbn [startsWith].
  intros [->%N.eqb_eq Hp]%andb_true_iff. cbn. f_equal. by apply IH.
Qed.

Lemma includes_false_drop (s p : jsstring) (k : nat) :
  includes s p = false → startsWith p (drop k s) = false.
Proof.
  revert k. induction s as [|c s IH]; intros k.
  - cbn [includes]. rewrite drop_nil. by intros [? _]%orb_false_iff.
  - cbn [includes]. intros [Hhere Hrest]%orb_false_iff.
    destruct k as [|k]; [done|]. cbn [drop]. by apply IH.
Qed.

Lemma lastIndexOf_from_none (p s : jsstring) (i best : Z) :
  includes s p = false → lastIndexOf_from p s i best = best.
Proof.
  revert i best. induction s as [|c s IH]; intros i best.
  - cbn. by intros [-> _]%orb_false_iff.
  - cbn [includes lastIndexOf_from]. intros [-> Hrest]%orb_false_iff. by apply IH.
Qed.

Lemma lastIndexOf_from_app (p a b : jsstring) (i best : Z) :
  ∃ best', lastIndexOf_from p (a ++ b) i best
           = lastIndexOf_from p b (i + Z.of_nat (length a))%Z best'.
Proof.
  revert i best. induction a as [|c a IH]; intros i best.
  - exists best. cbn [app length]. by rewrite Z.add_0_r.
  - cbn [app lastIndexOf_from length].
    destruct (IH (i + 1)%Z (if startsWith p (c :: a ++ b) then i else best)) as [best' ->].
    exists best'. f_equal. lia.
Qed.

(** [node_modules/] does not overlap itself: after an occurrence, the next
    one starts beyond it. *)
Lemma nodeModules_tail (suf : jsstring) :
  includes suf (js "node_modules/") = false →
  includes (drop 1 (js "node_modules/" ++ suf)) (js "node_modules/") = false.
Proof.
  intros Hsuf. change (js "node_modules/") with
    [110; 111; 100; 101; 95; 109; 111; 100; 117; 108; 101; 115; 47]%N in *.
  cbn [drop app includes startsWith N.eqb Pos.eqb andb orb]. exact Hsuf.
Qed.

Lemma lastIndexOf_last (y suf : jsstring) :
  includes suf (js "node_modules/") = false →
  lastIndexOf (y ++ js "node_modules/" ++ suf) (js "node_modules/") = Z.of_nat (length y).
Proof.
  intros Hsuf. unfold lastIndexOf.
  destruct (lastIndexOf_from_app (js "node_modules/") y (js "node_modules/" ++ suf)
              0 (-1)) as [best' ->].
  pose proof (nodeModules_tail suf Hsuf) as Htail.
  pose proof (startsWith_app (js "node_modules/") suf) as Hhere.
  destruct (js "node_modules/" ++ suf) as [|c t] eqn:Heq; [done|].
  cbn [lastIndexOf_from]. rewrite Hhere. cbn [drop] in Htail.
  by rewrite lastIndexOf_from_none.
Qed.

(** The regular expression matches at an index exactly when
    [node_modules/] stands there and is followed, up to the end of the
    key, by one or more characters none of which ends a line. *)
Lemma match_at_nodeModules (i : nat) (s : jsstring) :
  m_groups <$> match_at nodeModulesRegex i s
  = if startsWith (js "node_modules/") s
    then match drop 13 s with
         | [] => None
         | c :: rest => if forallb isDot (c :: rest) then Some [c :: rest] else None
         end
    else None.
Proof.
  unfold match_at, nodeModulesRegex. cbn [rmatch].
  destruct (startsWith (js "node_modules/") s); [|done].
  change (length (js "node_modules/")) with 13.
  destruct (drop 13 s) as [|c rest]; [done|]. cbn [forallb].
  destruct (isDot c); [|done].
  rewrite (star_eol isDot
    (λ i', Some (MResult i i' ([] ++ [take (i' - (i + 13)) (c :: rest)])))).
  cbn [andb]. destruct (forallb isDot rest); [|done]. cbn [fmap option_fmap option_map m_groups app].
  do 2 f_equal. replace (S (i + 13) + length rest - (i + 13)) with (S (length rest)) by lia.
  apply (firstn_all (c :: rest)).
Qed.

Lemma str_match_search (r : regex) (s : jsstring) :
  str_match s r = m_groups <$> search_from r 0 s.
Proof. reflexivity. Qed.

Lemma search_from_nodeModules_none (i : nat) (s : jsstring) :
  includes s (js "node_modules/") = false →
  search_from nodeModulesRegex i s = None.
Proof.
  revert i. induction s as [|c s IH]; intros i Hs.
  - reflexivity.
  - cbn [includes] in Hs. apply orb_false_iff in Hs as [Hhere Hrest].
    cbn [search_from]. pose proof (match_at_nodeModules i (c :: s)) as Hm.
    rewrite Hhere in Hm. destruct (match_at nodeModulesRegex i (c :: s)); [done|].
    by apply IH.
Qed.

(** A key without [node_modules/] is its own name. *)
Lemma derivePackageName_plain (key : jsstring) :
  includes key (js "node_modules/") = false → derivePackageName key = key.
Proof.
  intros Hkey. unfold derivePackageName.
  by rewrite str_match_search, search_from_nodeModules_none.
Qed.

Lemma nodeModules_overlap (k : nat) (t : jsstring) :
  0 < k < 13 → startsWith (js "node_modules/") (drop k (js "node_modules/" ++ t)) = false.
Proof.
  intros Hk. change (js "node_modules/") with
    [110; 111; 100; 101; 95; 109; 111; 100; 117; 108; 101; 115; 47]%N.
  do 13 (destruct k as [|k]; [first [lia|reflexivity]|]). lia.
Qed.

(** The leftmost match in a key that ends with [node_modules/] and a
    non-empty, one-line [suf]: its capture is [suf], or ends with
    [node_modules/] and [suf]. *)
Lemma search_from_nodeModules (pre suf : jsstring) (i : nat) :
  suf ≠ [] → forallb isDot suf = true →
  ∃ rest, m_groups <$> search_from nodeModulesRegex i (pre ++ js "node_modules/" ++ suf)
          = Some [rest]
          ∧ (rest = suf ∨ ∃ y, rest = y ++ js "node_modules/" ++ suf).
Proof.
  intros Hne Hdot. revert i. induction pre as [|c pre IH]; intros i.
  - exists suf. split; [|by left]. cbn [app].
    pose proof (match_at_nodeModules i (js "node_modules/" ++ suf)) as Hm.
    rewrite startsWith_app in Hm.
    change (drop 13 (js "node_modules/" ++ suf)) with suf in Hm.
    destruct suf as [|d suf]; [done|]. rewrite Hdot in Hm.
    destruct (js "node_modules/" ++ d :: suf) eqn:Heq; [done|].
    cbn [search_from]. by destruct (match_at nodeModulesRegex i _).
  - cbn [app search_from].
    pose proof (match_at_nodeModules i (c :: pre ++ js "node_modules/" ++ suf)) as Hm.
    destruct (match_at nodeModulesRegex i _) as [m|]; [|apply IH].
    cbn [fmap option_fmap option_map] in *.
    destruct (startsWith _ _) eqn:Hhere; [|done].
    apply startsWith_true in Hhere. change (length (js "node_modules/")) with 13 in Hhere.
    set (s := c :: pre ++ js "node_modules/" ++ suf) in *.
    destruct (drop 13 s) as [|d rest] eqn:Hdrop; [done|].
    destruct (forallb isDot (d :: rest)); [|done].
    exists (d :: rest). split; [done|]. right.
    destruct (decide (13 ≤ length (c :: pre))) as [Hlen|Hlen].
    + exists (drop 13 (c :: pre)). rewrite <- Hdrop. unfold s.
      change (c :: pre ++ js "node_modules/" ++ suf)
        with ((c :: pre) ++ js "node_modules/" ++ suf).
      rewrite drop_app_le by done. done.
    + exfalso. pose proof (nodeModules_overlap (length (c :: pre)) (d :: rest)) as Hov.
      rewrite <- Hhere in Hov. unfold s in Hov.
      change (c :: pre ++ js "node_modules/" ++ suf)
        with ((c :: pre) ++ js "node_modules/" ++ suf) in Hov.
      rewrite drop_app_length, startsWith_app in Hov.
      cbn [length] in *. discriminate Hov. lia.
Qed.

(** The name derived from a key that ends with [node_modules/] and a
    non-empty, one-line text free of [node_modules/] is that text. *)
Lemma derivePackageName_last (pre suf : jsstring) :
  suf ≠ [] → forallb isDot suf = true →
  includes suf (js "node_modules/") = false →
  derivePackageName (pre ++ js "node_modules/" ++ suf) = suf.
Proof.
  intros Hne Hdot Hsuf. unfold derivePackageName. rewrite str_match_search.
  destruct (search_from_nodeModules pre suf 0 Hne Hdot) as (rest & -> & [->|[y ->]]).
  - cbn [capture pred lookup list_lookup default from_option id].
    unfold lastIndexOf. rewrite lastIndexOf_from_none by done.
    by rewrite bool_decide_eq_false_2 by (intros ?; done).
  - cbn [capture pred lookup list_lookup default from_option id].
    rewrite lastIndexOf_last by done.
    rewrite bool_decide_eq_true_2 by lia. unfold substring.
    rewrite <- Nat2Z.inj_add, Nat2Z.id, (assoc_L (++)), drop_app_length'; [done|].
    by rewrite length_app.
Qed.

(** ** Duplicates *)

(** A candidate whose key has been checked leaves the store as it is: the
    function returns before it looks at the index. *)
Lemma checkAndAddPackage_duplicate (n : jsstring) (v : json) (key : jsstring) (σ : store) :
  dedupKey (n, v) = Some key → key ∈ checked σ →
  checkAndAddPackage n v σ = (Normal tt, σ).
Proof.
  intros Hkey Hin. rewrite checkAndAddPackage_run, Hkey.
  by rewrite bool_decide_eq_true_2.
Qed.

Lemma checkAndAddPackage_checked (n : jsstring) (v : json) (σ : store) :
  checked σ ⊆ checked (checkAndAddPackage n v σ).2
  ∧ ∀ key, dedupKey (n, v) = Some key → key ∈ checked (checkAndAddPackage n v σ).2.
Proof.
  rewrite checkAndAddPackage_run. destruct (dedupKey (n, v)) as [key|]; [|done].
  case_bool_decide; cbn [snd checked].
  - split; [done|]. by intros ? [= <-].
  - split; [apply union_subseteq_r|]. intros ? [= <-]. apply elem_of_union_l.
    by apply elem_of_singleton.
Qed.

Lemma matchAll_skip_checked (c : candidate) (key : jsstring) (l1 l2 : list candidate)
    (σ : store) :
  dedupKey c = Some key → key ∈ checked σ →
  matchAll (l1 ++ c :: l2) σ = matchAll (l1 ++ l2) σ.
Proof.
  intros Hkey. revert σ. induction l1 as [|x l1 IH]; intros σ Hin.
  - cbn [app]. rewrite matchAll_cons, bind_run.
    destruct c as [n v]. by rewrite (checkAndAddPackage_duplicate n v key).
  - cbn [app]. rewrite !matchAll_cons, !bind_run.
    pose proof (checkAndAddPackage_checked x.1 x.2 σ) as [Hsub _].
    destruct (checkAndAddPackage x.1 x.2 σ) as [[[]|e] σ']; [|done].
    apply IH. by apply Hsub.
Qed.

(** A candidate that has occurred before contributes nothing: the scan
    goes as if the later occurrence were not there. *)
Lemma matchAll_duplicate (c : candidate) (l1 l2 : list candidate) (σ : store) :
  c ∈ l1 → matchAll (l1 ++ c :: l2) σ = matchAll (l1 ++ l2) σ.
Proof.
  revert σ. induction l1 as [|x l1 IH]; intros σ; [by intros ?%elem_of_nil|].
  intros Hc. cbn [app]. rewrite !matchAll_cons, !bind_run.
  pose proof (checkAndAddPackage_checked x.1 x.2 σ) as [_ Hkey].
  destruct (checkAndAddPackage x.1 x.2 σ) as [[[]|e] σ'] eqn:Hrun; [|done].
  apply elem_of_cons in Hc as [->|Hc]; [|by apply IH].
  destruct (dedupKey x) as [key|] eqn:Hx.
  - apply (matchAll_skip_checked x key); [done|]. apply Hkey. by destruct x.
  - destruct x as [n v]. cbn [fst snd] in Hrun.
    rewrite checkAndAddPackage_run, Hx in Hrun. done.
Qed.

Lemma reported_matchAll (cs : list candidate) (σ : store) :
  found σ = [] →
  reported (affectedPackages σ) (checked σ) cs = found (matchAll cs σ).2.
Proof.
  intros Hnil. destruct (matchAll_store cs σ) as (_ & _ & ->). by rewrite Hnil.
Qed.

Lemma reported_duplicate (idx : gmap (list N) (gset (list N))) (c : candidate)
    (l1 l2 : list candidate) :
  c ∈ l1 → reported idx ∅ (l1 ++ c :: l2) = reported idx ∅ (l1 ++ l2).
Proof.
  intros Hc.
  pose proof (reported_matchAll (l1 ++ c :: l2) (Store idx [] ∅ []) eq_refl) as H1.
  pose proof (reported_matchAll (l1 ++ l2) (Store idx [] ∅ []) eq_refl) as H2.
  cbn [affectedPackages checked] in H1, H2.
  by rewrite H1, H2, matchAll_duplicate.
Qed.

(** A pair whose key is taken by an earlier, different candidate is not
    reported. *)
Lemma reported_collision (idx : gmap (list N) (gset (list N))) (seen : gset (list N))
    (l1 l2 : list candidate) (n1 v1 n2 v2 : jsstring) :
  (n1, v1) ≠ (n2, v2) →
  n1 ++ js "@" ++ v1 = n2 ++ js "@" ++ v2 →
  (n2, JString v2) ∉ l1 →
  Pkg n2 v2 ∉ reported idx seen (l1 ++ (n1, JString v1) :: l2).
Proof.
  intros Hne Hkey. revert seen. induction l1 as [|x l1 IH]; intros seen Hl1.
  - cbn [app reported]. change (dedupKey (n1, JString v1)) with (Some (n1 ++ js "@" ++ v1)).
    cbv beta iota. case_bool_decide as Hseen.
    + intros (_ & Hnot & _)%reported_sound. apply Hnot.
      unfold pkgKey. cbn [packageName version]. by rewrite <- Hkey.
    + intros [[[= ? ?] _]%elem_of_hit|(_ & Hnot & _)%reported_sound]%elem_of_app.
      * apply Hne. congruence.
      * apply Hnot. unfold pkgKey. cbn [packageName version]. rewrite <- Hkey.
        apply elem_of_union_l. by apply elem_of_singleton.
  - apply not_elem_of_cons in Hl1 as [Hx Hl1]. cbn [app reported].
    destruct (dedupKey x) as [key|]; [|by intros ?%elem_of_nil].
    case_bool_decide; [by apply IH|].
    intros [[Hhit _]%elem_of_hit|Hrest]%elem_of_app; [done|].
    by apply (IH _ Hl1) in Hrest.
Qed.

Lemma reported_first_hit (idx : gmap (list N) (gset (list N))) (seen : gset (list N))
    (l1 l2 : list candidate) (c : candidate) (key : jsstring) (p : pkg) :
  Forall (λ c', dedupKey c' ≠ None ∧ dedupKey c' ≠ Some key) l1 →
  dedupKey c = Some key →
  key ∉ seen →
  p ∈ hit idx c →
  p ∈ reported idx seen (l1 ++ c :: l2).
Proof.
  intros Hl1 Hkey. revert seen. induction Hl1 as [|x l1 [Hx1 Hx2] _ IH]; intros seen Hseen Hp.
  - cbn [app reported]. rewrite Hkey, bool_decide_eq_false_2 by done.
    by apply elem_of_app; left.
  - cbn [app reported]. destruct (dedupKey x) as [kx|]; [|done].
    case_bool_decide; [by apply IH|].
    apply elem_of_app; right. apply IH; [|done].
    intros [->%elem_of_singleton|?]%elem_of_union; done.
Qed.

Lemma star_index {R} (p : char → bool) (k : nat → jsstring → option R)
    (i : nat) (s : jsstring) (res : R) :
  star p k i s = Some res → ∃ i' s', i ≤ i' ∧ k i' s' = Some res.
Proof.
  revert i. induction s as [|c s IH]; intros i; cbn [star].
  - intros Hk. by exists i, [].
  - destruct (p c); [|intros Hk; by exists i, (c :: s)].
    destruct (star p k (S i) s) as [m|] eqn:Hstar.
    + intros [= ->]. destruct (IH _ Hstar) as (i' & s' & Hle & Hk).
      exists i', s'. split; [lia|done].
    + intros Hk. by exists i, (c :: s).
Qed.

(** Matching only moves forward: the continuation runs at an index that
    is not before the one where the match of [r] started. *)
Lemma rmatch_index {R} (r : regex) (i : nat) (s : jsstring) (caps : list jsstring)
    (k : nat → jsstring → list jsstring → option R) (res : R) :
  rmatch r i s caps k = Some res →
  ∃ i' s' caps', i ≤ i' ∧ k i' s' caps' = Some res.
Proof.
  revert i s caps k. induction r as [l | p | r IH | p | p | r IH | | | r1 IH1 r2 IH2];
    intros i s caps k; cbn [rmatch].
  - destruct (startsWith l s); [|done]. intros Hk.
    exists (i + length l), (drop (length l) s), caps. split; [lia|done].
  - destruct s as [|c s]; [done|]. destruct (p c); [|done]. intros Hk.
    exists (S i), s, caps. split; [lia|done].
  - destruct (rmatch r i s caps k) eqn:Hr.
    + intros [= ->]. by apply IH in Hr.
    + intros Hk. by exists i, s, caps.
  - destruct s as [|c s]; [done|]. destruct (p c); [|done].
    intros (i' & s' & Hle & Hk)%star_index. exists i', s', caps. split; [lia|done].
  - intros (i' & s' & Hle & Hk)%star_index. by exists i', s', caps.
  - intros (i' & s' & caps' & Hle & Hk)%IH. by eexists i', s', _.
  - destruct (i =? 0); [|done]. intros Hk. by exists i, s, caps.
  - destruct s; [|done]. intros Hk. by exists i, [], caps.
  - intros (i1 & s1 & caps1 & Hle1 & (i2 & s2 & caps2 & Hle2 & Hk)%IH2)%IH1.
    exists i2, s2, caps2. split; [lia|done].
Qed.

Lemma rmatch_seq {R} (r1 r2 : regex) (i : nat) (s : jsstring) (caps : list jsstring)
    (k : nat → jsstring → list jsstring → option R) :
  rmatch (r1 ⋅ r2) i s caps k
  = rmatch r1 i s caps (λ i' s' caps', rmatch r2 i' s' caps' k).
Proof. reflexivity. Qed.

Lemma rmatch_lit {R} (l : jsstring) (i : nat) (s : jsstring) (caps : list jsstring)
    (k : nat → jsstring → list jsstring → option R) :
  rmatch (Lit l) i s caps k
  = if startsWith l s then k (i + length l) (drop (length l) s) caps else None.
Proof. reflexivity. Qed.

(** A match of the [g]-flagged expression is never empty, so each [exec]
    starts strictly after the start of the previous match. *)
Lemma packageAtVersion_progress (i : nat) (s : jsstring) (m : mresult) :
  match_at packageAtVersionRegex i s = Some m → m_start m = i ∧ i < m_end m.
Proof.
  unfold match_at, packageAtVersionRegex. rewrite rmatch_seq.
  intros (i1 & s1 & caps1 & Hle1 & H1)%rmatch_index.
  rewrite rmatch_seq in H1.
  apply rmatch_index in H1 as (i2 & s2 & caps2 & Hle2 & H2).
  rewrite rmatch_seq, rmatch_lit in H2.
  destruct (startsWith (js "@") s2); [|done].
  apply rmatch_index in H2 as (i3 & s3 & caps3 & Hle3 & [= <-]).
  change (length (js "@")) with 1 in Hle3. cbn [m_start m_end]. split; [done|lia].
Qed.

(** ** The run and other auxiliary facts *)

Lemma reported_empty_index (seen : gset (list N)) (cs : list candidate) :
  reported ∅ seen cs = [].
Proof.
  revert seen. induction cs as [|c cs IH]; intros seen; [done|].
  cbn [reported]. destruct (dedupKey c); [|done].
  assert (hit ∅ c = []) as ->.
  { unfold hit. by destruct c.2. }
  destruct (bool_decide _); cbn [app]; apply IH.
Qed.

Lemma parseAffectedPackages_example :
  parseAffectedPackages (λ _, Some leftPadDataset) (js "affected_packages.csv")
  = Normal leftPadIndex.
Proof. vm_compute. reflexivity. Qed.

Lemma scanLockfile_index (JSON_parse : jsstring → option json)
    (readFileSync : jsstring → option jsstring) (lockfilePath : jsstring) (σ1 σ2 : store) :
  affectedPackages σ1 = affectedPackages σ2 →
  (scanLockfile JSON_parse readFileSync lockfilePath σ1).1
  = (scanLockfile JSON_parse readFileSync lockfilePath σ2).1
  ∧ affectedPackages (scanLockfile JSON_parse readFileSync lockfilePath σ1).2
    = affectedPackages σ1.
Proof.
  intros Hidx. destruct (readFileSync lockfilePath) as [content|] eqn:Hread.
  - destruct (scanLockfile_run JSON_parse readFileSync _ _ σ1 Hread) as (σ1' & -> & H1).
    destruct (scanLockfile_run JSON_parse readFileSync _ _ σ2 Hread) as (σ2' & -> & H2).
    cbn [fst snd]. split; [by rewrite Hidx|done].
  - unfold scanLockfile. by rewrite Hread.
Qed.

Lemma forM_app {A} (l1 l2 : list A) (f : A → M unit) (σ : store) :
  forM (l1 ++ l2) f σ = (forM l1 f ;; forM l2 f) σ.
Proof.
  revert σ. induction l1 as [|x l1 IH]; intros σ; [done|].
  cbn [app forM]. rewrite !bind_run.
  destruct (f x σ) as [[[]|e] σ']; [|done]. by rewrite IH, bind_run.
Qed.

Lemma matchAll_nil (σ : store) : matchAll [] σ = (Normal tt, σ).
Proof. reflexivity. Qed.

(** ** The model on the formats that the source documents *)

(** The comments of [scanJsonLockfile]: the name of a scoped package, of a
    plain one, and of the last package of a nested path. *)
Example derivePackageName_examples :
  derivePackageName (js "node_modules/@scope/package") = js "@scope/package"
  ∧ derivePackageName (js "node_modules/package") = js "package"
  ∧ derivePackageName (js "node_modules/foo/node_modules/bar") = js "bar"
  ∧ derivePackageName [] = [].
Proof. split_and!; vm_compute; reflexivity. Qed.

(** Method 1 of [scanYamlLockfile] on entries of the inline form, with and
    without a scope, as the generator of demo lockfiles writes them. *)
Example inline_form_examples :
  yamlCandidates (js "  'left-pad@1.3.0':" ++ [10%N] ++ js "    engines: {node: '>=14'}")
  = [(js "left-pad", JString (js "1.3.0"))]
  ∧ yamlCandidates (js "  '@scope/pkg@1.0.0':")
    = [(js "@scope/pkg", JString (js "1.0.0"))].
Proof. split; vm_compute; reflexivity. Qed.

(** The nested tree: a dependency of a dependency is visited after its
    parent. *)
Example nested_tree_example :
  v1Candidates
    (JObject [(js "a", JObject [(js "version", JString (js "1.0.0"));
                                (js "dependencies",
                                 JObject [(js "b", JObject [(js "version", JString (js "2.0.0"))])])]);
              (js "c", JObject [(js "version", JString (js "3.0.0"))])])
  = [(js "a", JString (js "1.0.0")); (js "b", JString (js "2.0.0"));
     (js "c", JString (js "3.0.0"))].
Proof. vm_compute. reflexivity. Qed.

(** * The claims *)

(** C1. Matching soundness: a pair is in the list that a scan returns only
    if the index maps its name to a set of versions that contains its
    version, the very strings compared code unit by code unit.  So a name
    the index does not have is never reported, and a name it has is never
    reported with a version outside its set. *)
Theorem matching_soundness (JSON_parse : jsstring → option json)
    (readFileSync : jsstring → option jsstring) (lockfilePath : jsstring)
    (σ σ' : store) (matches : list pkg) :
  scanLockfile JSON_parse readFileSync lockfilePath σ = (Normal matches, σ') →
  (∀ n v, Pkg n v ∈ matches →
     ∃ affectedVersions,
       affectedPackages σ !! n = Some affectedVersions ∧ v ∈ affectedVersions)
  ∧ (∀ n v, affectedPackages σ !! n = None → Pkg n v ∉ matches)
  ∧ (∀ n v affectedVersions,
       affectedPackages σ !! n = Some affectedVersions → v ∉ affectedVersions →
       Pkg n v ∉ matches).
Proof.
  intros Hscan.
  assert (∀ n v, Pkg n v ∈ matches →
     ∃ affectedVersions,
       affectedPackages σ !! n = Some affectedVersions ∧ v ∈ affectedVersions) as Hsound.
  { intros n v Hin. destruct (readFileSync lockfilePath) as [content|] eqn:Hread.
    - destruct (scanLockfile_run JSON_parse readFileSync _ _ σ Hread) as (σ1 & Hrun & _).
      rewrite Hrun in Hscan. injection Hscan as <- _.
      by apply reported_sound in Hin as (_ & _ & Hidx).
    - unfold scanLockfile in Hscan. by rewrite Hread in Hscan. }
  split_and!; [done|..].
  - intros n v Hnone (vs & Hsome & _)%Hsound. congruence.
  - intros n v vs Hvs Hnot (vs' & Hsome & Hin)%Hsound. congruence.
Qed.

Lemma matching_soundness_witness :
  scanLockfile (λ _, Some leftPadDocument) (λ _, Some []) (js "package-lock.json")
    leftPadStore
  = (Normal [Pkg (js "left-pad") (js "1.3.0")],
     Store leftPadIndex [Pkg (js "left-pad") (js "1.3.0")] {[ js "left-pad@1.3.0" ]} [])
  ∧ ∃ affectedVersions,
      leftPadIndex !! js "left-pad" = Some affectedVersions
      ∧ js "1.3.0" ∈ affectedVersions.
Proof.
  assert (scanLockfile (λ _, Some leftPadDocument) (λ _, Some []) (js "package-lock.json")
            leftPadStore
          = (Normal [Pkg (js "left-pad") (js "1.3.0")],
             Store leftPadIndex [Pkg (js "left-pad") (js "1.3.0")]
                   {[ js "left-pad@1.3.0" ]} [])) as Hscan
    by (vm_compute; reflexivity).
  split; [exact Hscan|].
  apply (proj1 (matching_soundness _ _ _ _ _ _ Hscan) (js "left-pad") (js "1.3.0")).
  left.
Defined.

(** C2, as stated, fails: the key [foo] has no [node_modules/] in it, yet
    its entry is not skipped; the key itself is the candidate name, and the
    scan reports it. *)
Lemma flat_manifest_plain_key_counterexample :
  includes (js "foo") (js "node_modules/") = false
  ∧ packagesCandidate (js "foo", JObject [(js "version", JString (js "1.0.0"))])
    = Some (js "foo", JString (js "1.0.0"))
  ∧ scanLockfile (λ _, Some plainKeyDocument) (λ _, Some []) (js "package-lock.json")
      (Store plainKeyIndex [] ∅ [])
    = (Normal [Pkg (js "foo") (js "1.0.0")],
       Store plainKeyIndex [Pkg (js "foo") (js "1.0.0")] {[ js "foo@1.0.0" ]} []).
Proof. split_and!; vm_compute; reflexivity. Qed.

(** C2, amended. In Pass A an entry is skipped when it has no truthy
    [version] or when its key is the empty string; an entry with a truthy
    version and a non-empty key that has no [node_modules/] in it is not
    skipped: the whole key is the candidate name. *)
Theorem flat_manifest_plain_key (key : jsstring) (value : json) (σ : store) :
  includes key (js "node_modules/") = false →
  packagesCandidate (key, value)
  = match truthyProp value (js "version") with
    | Some version => if bool_decide (key = []) then None else Some (key, version)
    | None => None
    end
  ∧ scanPackagesEntry (key, value) σ
    = match truthyProp value (js "version") with
      | Some version =>
          if bool_decide (key = []) then (Normal tt, σ)
          else checkAndAddPackage key version σ
      | None => (Normal tt, σ)
      end.
Proof.
  intros Hkey. unfold packagesCandidate, scanPackagesEntry.
  rewrite (derivePackageName_plain key Hkey).
  destruct (truthyProp value (js "version")) as [version|]; [|done].
  cbn [mbind option_bind]. by destruct (bool_decide (key = [])).
Qed.

Lemma flat_manifest_plain_key_witness :
  includes (js "foo") (js "node_modules/") = false
  ∧ scanPackagesEntry (js "foo", JObject [(js "version", JString (js "1.0.0"))])
      (Store plainKeyIndex [] ∅ [])
    = checkAndAddPackage (js "foo") (JString (js "1.0.0")) (Store plainKeyIndex [] ∅ []).
Proof.
  split; [reflexivity|].
  exact (proj2 (flat_manifest_plain_key (js "foo")
                  (JObject [(js "version", JString (js "1.0.0"))])
                  (Store plainKeyIndex [] ∅ []) eq_refl)).
Defined.

(** C3, as stated, fails twice.  The key [node_modules/] contains
    [node_modules/] and has a version, but its candidate name is the whole
    key, not the empty text after the last [node_modules/].  And for the
    record of the name [x/node_modules/y] at [1.0.0], the entry keyed
    [node_modules/x/node_modules/y] is not reported: the name derived from
    it is [y]. *)
Lemma flat_manifest_name_counterexample :
  packagesCandidate (js "node_modules/", JObject [(js "version", JString (js "1.0.0"))])
  = Some (js "node_modules/", JString (js "1.0.0"))
  ∧ nestedNameIndex !! js "x/node_modules/y" = Some {[ js "1.0.0" ]}
  ∧ derivePackageName (js "node_modules/x/node_modules/y") = js "y"
  ∧ scanLockfile (λ _, Some nestedNameDocument) (λ _, Some []) (js "package-lock.json")
      (Store nestedNameIndex [] ∅ [])
    = (Normal [], Store nestedNameIndex [] {[ js "y@1.0.0" ]} []).
Proof. split_and!; vm_compute; reflexivity. Qed.

(** C3, amended. For a key whose text after the last [node_modules/] is
    not empty and has no line terminator, the derived name is that text:
    [bar] for [node_modules/foo/node_modules/bar], [@scope/pkg] for
    [node_modules/@scope/pkg].  So take a name [n] that is not empty and
    has neither a line terminator nor [node_modules/] in it, and a version
    [v] that is not empty, with [v] in the index under [n]: when [packages]
    has an entry keyed [node_modules/n] with version [v], and the versions
    of the entries before it convert to strings and give other keys than
    [n@v], the scan returns a list in which the pair [(n, v)] occurs
    exactly once. *)
Theorem flat_manifest_name (pre n : jsstring) :
  n ≠ [] →
  forallb isDot n = true →
  includes n (js "node_modules/") = false →
  derivePackageName (pre ++ js "node_modules/" ++ n) = n
  ∧ derivePackageName (js "node_modules/foo/node_modules/bar") = js "bar"
  ∧ derivePackageName (js "node_modules/@scope/pkg") = js "@scope/pkg"
  ∧ ∀ (JSON_parse : jsstring → option json) (readFileSync : jsstring → option jsstring)
      (lockfilePath content : jsstring) (top : list (jsstring * json))
      (packages entry : json) (before after : list (jsstring * json))
      (v : jsstring) (affectedVersions : gset (list N)) (σ : store),
      v ≠ [] →
      affectedPackages σ !! n = Some affectedVersions →
      v ∈ affectedVersions →
      endsWith lockfilePath (js ".json") = true →
      readFileSync lockfilePath = Some content →
      JSON_parse content = Some (JObject top) →
      assoc (js "packages") top = Some packages →
      truthy packages = true →
      Object_entries packages = before ++ (js "node_modules/" ++ n, entry) :: after →
      prop entry (js "version") = Some (JString v) →
      Forall (λ c, dedupKey c ≠ None ∧ dedupKey c ≠ Some (n ++ js "@" ++ v))
             (packagesCandidates before) →
      ∃ matches σ',
        scanLockfile JSON_parse readFileSync lockfilePath σ = (Normal matches, σ')
        ∧ count_occ pkg_eq_dec matches (Pkg n v) = 1.
Proof.
  intros Hn Hdot Hfree. split_and!.
  - by apply derivePackageName_last.
  - by vm_compute.
  - by vm_compute.
  - intros JSON_parse readFileSync lockfilePath content top packages entry before after
      v vs σ Hv Hidx Hin Hjson Hread Hparse Hpackages Htruthy Hentries Hversion Hbefore.
    destruct (scanLockfile_run JSON_parse readFileSync _ _ σ Hread) as (σ' & -> & _).
    eexists _, σ'. split; [done|].
    apply List.NoDup_count_occ'; [apply NoDup_ListNoDup, reported_NoDup|].
    apply list_elem_of_In.
    unfold lockfileCandidates. rewrite Hjson, Hparse.
    assert (∀ k, truthyProp (JObject top) k
                 = match assoc k top with
                   | Some x => if truthy x then Some x else None
                   | None => None
                   end) as Htop by reflexivity.
    unfold jsonCandidates. rewrite !Htop, Hpackages, Htruthy, Hentries.
    unfold packagesCandidates. rewrite omap_app. cbn [omap list_omap packagesCandidate].
    assert (truthyProp entry (js "version") = Some (JString v)) as ->.
    { unfold truthyProp. destruct entry; try done. cbn [truthy].
      rewrite Hversion. cbn [truthy].
      by rewrite bool_decide_eq_false_2. }
    cbn [mbind option_bind].
    pose proof (derivePackageName_last [] n Hn Hdot Hfree) as Hname.
    cbn [app] in Hname. cbv zeta. rewrite Hname.
    rewrite bool_decide_eq_false_2 by done. rewrite <- (assoc_L (++)).
    apply (reported_first_hit _ _ _ _ _ (n ++ js "@" ++ v));
      [done|done|apply not_elem_of_empty|].
    apply elem_of_hit. cbn [packageName version]. eauto.
Qed.

Lemma flat_manifest_name_witness :
  derivePackageName (js "node_modules/" ++ js "@scope/pkg") = js "@scope/pkg"
  ∧ ∃ matches σ',
      scanLockfile (λ _, Some scopedDocument) (λ _, Some []) (js "package-lock.json")
        (Store scopedIndex [] ∅ [])
      = (Normal matches, σ')
      ∧ count_occ pkg_eq_dec matches (Pkg (js "@scope/pkg") (js "1.0.0")) = 1.
Proof.
  assert (js "@scope/pkg" ≠ []) as Hn by (intros [=]).
  pose proof (flat_manifest_name [] (js "@scope/pkg") Hn eq_refl eq_refl)
    as (Hname & _ & _ & Hscan).
  split; [exact Hname|].
  apply (Hscan (λ _, Some scopedDocument) (λ _, Some []) (js "package-lock.json") []
           [(js "packages",
             JObject [(js "node_modules/@scope/pkg",
                       JObject [(js "version", JString (js "1.0.0"))])])]
           (JObject [(js "node_modules/@scope/pkg",
                      JObject [(js "version", JString (js "1.0.0"))])])
           (JObject [(js "version", JString (js "1.0.0"))]) [] []
           (js "1.0.0") {[ js "1.0.0" ]}).
  - intros [=].
  - vm_compute. reflexivity.
  - by apply elem_of_singleton.
  - reflexivity.
  - reflexivity.
  - reflexivity.
  - reflexivity.
  - reflexivity.
  - reflexivity.
  - reflexivity.
  - constructor.
Defined.


Section main_properties.
Variable JSON_parse : jsstring → option json.
Variable readFileSync : jsstring → option jsstring.
Variable AFFECTED_PACKAGES_FILE : jsstring.
Variable getLockfiles : option jsstring → completion (list jsstring).
Variable basename : jsstring → jsstring.

Lemma scanAll_readable (lockfiles : list jsstring) (totalFound : nat)
    (allResults : list (jsstring * list pkg)) (σ : store) :
  Forall (λ lockfile, is_Some (readFileSync lockfile)) lockfiles →
  ∃ result σ',
    scanAll JSON_parse readFileSync basename lockfiles totalFound allResults σ
    = (Normal result, σ')
    ∧ (affectedPackages σ = ∅ → result = (totalFound, allResults)).
Proof.
  intros Hread. revert totalFound allResults σ.
  induction Hread as [|lockfile lockfiles [content Hcontent] _ IH];
    intros totalFound allResults σ.
  - by exists (totalFound, allResults), σ.
  - cbn [scanAll]. rewrite bind_run.
    destruct (scanLockfile_run JSON_parse readFileSync _ _ σ Hcontent)
      as (σ1 & -> & Hidx).
    destruct (0 <? length _) eqn:Hlen.
    + destruct (IH (totalFound + length (reported (affectedPackages σ) ∅
                      (lockfileCandidates JSON_parse lockfile content)))
                   (allResults ++ [(basename lockfile,
                      reported (affectedPackages σ) ∅
                        (lockfileCandidates JSON_parse lockfile content))]) σ1)
        as (result & σ' & -> & _).
      exists result, σ'. split; [done|]. intros Hempty.
      by rewrite Hempty, reported_empty_index in Hlen.
    + destruct (IH totalFound allResults σ1) as (result & σ' & -> & Hresult).
      exists result, σ'. split; [done|]. intros Hempty. apply Hresult. congruence.
Qed.

End main_properties.


(** C5. Deduplication and output order: the list that a scan returns has
    no pair twice; its pairs come in the order of their first occurrence
    among the candidates of the file; a candidate that has occurred before,
    in whichever pass, changes nothing: the store stays as it is, the index
    is not looked at, and the matches are those of the candidates without
    the repeated occurrence. *)
Theorem dedup_and_order (JSON_parse : jsstring → option json)
    (readFileSync : jsstring → option jsstring) (lockfilePath content : jsstring)
    (σ σ' : store) (matches : list pkg) :
  readFileSync lockfilePath = Some content →
  scanLockfile JSON_parse readFileSync lockfilePath σ = (Normal matches, σ') →
  let candidates := lockfileCandidates JSON_parse lockfilePath content in
  NoDup matches
  ∧ sublist matches (firstOccurrences [] (omap asPkg candidates))
  ∧ (∀ l1 c l2, candidates = l1 ++ c :: l2 → c ∈ l1 →
       matches = found (matchAll (l1 ++ l2) (fresh σ)).2)
  ∧ (∀ n v key σ0, dedupKey (n, v) = Some key → key ∈ checked σ0 →
       checkAndAddPackage n v σ0 = (Normal tt, σ0)).
Proof.
  intros Hread Hscan candidates.
  destruct (scanLockfile_run JSON_parse readFileSync _ _ σ Hread) as (σ1 & Hrun & _).
  rewrite Hrun in Hscan. injection Hscan as <- _. fold candidates.
  split_and!.
  - apply reported_NoDup.
  - apply reported_firstOccurrences. by intros p ?%elem_of_nil.
  - intros l1 c l2 -> Hc. rewrite reported_duplicate by done.
    exact (reported_matchAll (l1 ++ l2) (fresh σ) eq_refl).
  - apply checkAndAddPackage_duplicate.
Qed.

Lemma dedup_and_order_witness :
  let matches := [Pkg (js "left-pad") (js "1.3.0")] in
  lockfileCandidates (λ _, Some leftPadDocument) (js "package-lock.json") []
  = [(js "left-pad", JString (js "1.3.0")); (js "left-pad", JString (js "1.3.0"))]
  ∧ NoDup matches
  ∧ sublist matches
      (firstOccurrences []
         (omap asPkg [(js "left-pad", JString (js "1.3.0"));
                      (js "left-pad", JString (js "1.3.0"))])).
Proof.
  assert (scanLockfile (λ _, Some leftPadDocument) (λ _, Some []) (js "package-lock.json")
            leftPadStore
          = (Normal [Pkg (js "left-pad") (js "1.3.0")],
             Store leftPadIndex [Pkg (js "left-pad") (js "1.3.0")]
                   {[ js "left-pad@1.3.0" ]} [])) as Hscan
    by (vm_compute; reflexivity).
  assert (lockfileCandidates (λ _, Some leftPadDocument) (js "package-lock.json") []
          = [(js "left-pad", JString (js "1.3.0")); (js "left-pad", JString (js "1.3.0"))])
    as Hcands by (vm_compute; reflexivity).
  pose proof (dedup_and_order (λ _, Some leftPadDocument) (λ _, Some [])
                (js "package-lock.json") [] leftPadStore _ _ eq_refl Hscan) as H.
  cbv zeta in H. rewrite Hcands in H.
  split; [exact Hcands|]. split; [exact (proj1 H)|exact (proj1 (proj2 H))].
Defined.



(** C7. Determinism: scanning a file again, in the store the first scan
    left, returns the same completion, hence the same matches in the same
    order, and neither scan changes the index. *)
Theorem scan_deterministic (JSON_parse : jsstring → option json)
    (readFileSync : jsstring → option jsstring) (lockfilePath : jsstring) (σ : store) :
  let first := scanLockfile JSON_parse readFileSync lockfilePath σ in
  let second := scanLockfile JSON_parse readFileSync lockfilePath first.2 in
  second.1 = first.1
  ∧ affectedPackages first.2 = affectedPackages σ
  ∧ affectedPackages second.2 = affectedPackages σ.
Proof.
  cbv zeta.
  pose proof (scanLockfile_index JSON_parse readFileSync lockfilePath σ σ eq_refl)
    as [_ H1].
  pose proof (scanLockfile_index JSON_parse readFileSync lockfilePath _ σ H1) as [H2 H3].
  split_and!; [done|done|congruence].
Qed.

Section scanAll_properties.
Variable JSON_parse : jsstring → option json.
Variable readFileSync : jsstring → option jsstring.
Variable basename : jsstring → jsstring.

(** C8. Malformed JSON is not fatal: a [.json] file whose content does not
    parse is scanned to the empty list, with one error printed, and the
    loop over the files goes on with the next one, its accumulators as
    they were. *)
Theorem malformed_json_nonfatal (lockfilePath content : jsstring) (σ : store)
    (rest : list jsstring) (totalFound : nat) (allResults : list (jsstring * list pkg)) :
  endsWith lockfilePath (js ".json") = true →
  readFileSync lockfilePath = Some content →
  JSON_parse content = None →
  let σ' := Store (affectedPackages σ) [] ∅ (stderr σ ++ [SyntaxError]) in
  scanLockfile JSON_parse readFileSync lockfilePath σ = (Normal [], σ')
  ∧ scanAll JSON_parse readFileSync basename (lockfilePath :: rest) totalFound allResults σ
    = scanAll JSON_parse readFileSync basename rest totalFound allResults σ'.
Proof.
  intros Hjson Hread Hparse σ'.
  assert (scanLockfile JSON_parse readFileSync lockfilePath σ = (Normal [], σ')) as Hscan.
  { unfold scanLockfile. rewrite Hread, Hjson.
    rewrite bind_run. cbn [get_store]. rewrite bind_run. cbn [put_store].
    rewrite bind_run, scanJsonLockfile_run, Hparse. reflexivity. }
  split; [done|]. cbn [scanAll]. by rewrite bind_run, Hscan.
Qed.
End scanAll_properties.

Lemma malformed_json_nonfatal_witness :
  scanLockfile (λ _, None) (λ _, Some (js "{")) (js "package-lock.json") leftPadStore
  = (Normal [], Store leftPadIndex [] ∅ [SyntaxError]).
Proof.
  apply (malformed_json_nonfatal (λ _, None) (λ _, Some (js "{")) id
           (js "package-lock.json") (js "{") leftPadStore [] 0 []);
    reflexivity.
Defined.

(** C9. Root entry exclusion: the entry of [packages] whose key is the
    empty string yields no candidate and leaves the store as it is,
    whatever its value and whatever the index holds; the loop over the
    entries goes as if the entry were not there. *)
Theorem root_entry_excluded (value : json) (σ : store)
    (before after : list (jsstring * json)) :
  packagesCandidate ([], value) = None
  ∧ scanPackagesEntry ([], value) σ = (Normal tt, σ)
  ∧ forM (before ++ ([], value) :: after) scanPackagesEntry σ
    = forM (before ++ after) scanPackagesEntry σ.
Proof.
  assert (∀ σ0, scanPackagesEntry ([], value) σ0 = (Normal tt, σ0)) as Hskip.
  { intros σ0. unfold scanPackagesEntry.
    by destruct (truthyProp value (js "version")). }
  split_and!.
  - unfold packagesCandidate. by destruct (truthyProp value (js "version")).
  - apply Hskip.
  - rewrite !forM_app, !bind_run.
    destruct (forM before scanPackagesEntry σ) as [[[]|e] σ1]; [|done].
    cbn [forM]. by rewrite bind_run, Hskip.
Qed.

(** C10. The key of the per-file set is the text [name@version], not the
    pair: of two different pairs with the same text, the one checked after
    the other is a duplicate; the call returns with the store as it was,
    and a scan in which the other pair comes first does not report it,
    whatever the index holds. *)
Theorem dedup_key_collision (n1 v1 n2 v2 : jsstring) :
  (n1, v1) ≠ (n2, v2) →
  n1 ++ js "@" ++ v1 = n2 ++ js "@" ++ v2 →
  (∀ σ, let σ1 := (checkAndAddPackage n1 (JString v1) σ).2 in
        checkAndAddPackage n2 (JString v2) σ1 = (Normal tt, σ1))
  ∧ (∀ JSON_parse readFileSync lockfilePath content σ σ' matches l1 l2,
       readFileSync lockfilePath = Some content →
       lockfileCandidates JSON_parse lockfilePath content = l1 ++ (n1, JString v1) :: l2 →
       (n2, JString v2) ∉ l1 →
       scanLockfile JSON_parse readFileSync lockfilePath σ = (Normal matches, σ') →
       Pkg n2 v2 ∉ matches).
Proof.
  intros Hne Hkey. split.
  - intros σ σ1. apply (checkAndAddPackage_duplicate _ _ (n1 ++ js "@" ++ v1)).
    + unfold dedupKey. cbn [fst snd ToString mbind option_bind]. by rewrite Hkey.
    + by apply checkAndAddPackage_checked.
  - intros JSON_parse readFileSync lockfilePath content σ σ' matches l1 l2
      Hread Hcands Hl1 Hscan.
    destruct (scanLockfile_run JSON_parse readFileSync _ _ σ Hread) as (σ1 & Hrun & _).
    rewrite Hrun in Hscan. injection Hscan as <- _. rewrite Hcands.
    by apply reported_collision.
Qed.

Lemma dedup_key_collision_witness :
  collisionIndex !! js "a@b" = Some {[ js "c" ]}
  ∧ lockfileCandidates (λ _, Some collisionDocument) (js "package-lock.json") []
    = [(js "a", JString (js "b@c")); (js "a@b", JString (js "c"))]
  ∧ scanLockfile (λ _, Some collisionDocument) (λ _, Some []) (js "package-lock.json")
      (Store collisionIndex [] ∅ [])
    = (Normal [], Store collisionIndex [] {[ js "a@b@c" ]} [])
  ∧ Pkg (js "a@b") (js "c") ∉ ([] : list pkg).
Proof.
  assert (lockfileCandidates (λ _, Some collisionDocument) (js "package-lock.json") []
          = [] ++ (js "a", JString (js "b@c")) :: [(js "a@b", JString (js "c"))])
    as Hcands by (vm_compute; reflexivity).
  assert (scanLockfile (λ _, Some collisionDocument) (λ _, Some []) (js "package-lock.json")
            (Store collisionIndex [] ∅ [])
          = (Normal [], Store collisionIndex [] {[ js "a@b@c" ]} [])) as Hscan
    by (vm_compute; reflexivity).
  split_and!; [by vm_compute|exact Hcands|exact Hscan|].
  refine (proj2 (dedup_key_collision (js "a") (js "b@c") (js "a@b") (js "c") _ _)
            (λ _, Some collisionDocument) (λ _, Some []) (js "package-lock.json") []
            (Store collisionIndex [] ∅ []) _ [] [] _ eq_refl Hcands _ Hscan).
  - intros [=].
  - vm_compute. reflexivity.
  - apply not_elem_of_nil.
Defined.

(** * Further properties *)

(** ** The matcher, continued *)

Lemma matchAll_normal (cs : list candidate) (σ : store) :
  Forall (λ c, dedupKey c ≠ None) cs → (matchAll cs σ).1 = Normal tt.
Proof.
  intros Hcs. revert σ. induction Hcs as [|[n v] cs Hc _ IH]; intros σ; [done|].
  rewrite matchAll_cons, bind_run, checkAndAddPackage_run. cbn [fst snd].
  destruct (dedupKey (n, v)); [|done]. destruct (bool_decide _); apply IH.
Qed.

Lemma matchAll_throw (l1 l2 : list candidate) (c : candidate) (σ : store) :
  Forall (λ c', dedupKey c' ≠ None) l1 →
  dedupKey c = None →
  matchAll (l1 ++ c :: l2) σ = (Throw TypeError, (matchAll l1 σ).2).
Proof.
  intros Hl1 Hc. rewrite matchAll_app, bind_run.
  pose proof (matchAll_normal l1 σ Hl1) as Hnormal.
  destruct (matchAll l1 σ) as [r σ1]. cbn [fst snd] in *. subst r.
  rewrite matchAll_cons, bind_run. destruct c as [n v]. cbn [fst snd].
  by rewrite checkAndAddPackage_run, Hc.
Qed.

Lemma reported_complete_seen (idx : gmap (list N) (gset (list N))) (cs : list candidate)
    (seen : gset (list N)) (n v : jsstring) (affectedVersions : gset (list N)) :
  (n, JString v) ∈ cs →
  (∀ c, c ∈ cs → dedupKey c ≠ None) →
  (∀ c, c ∈ cs → dedupKey c = Some (n ++ js "@" ++ v) → c = (n, JString v)) →
  n ++ js "@" ++ v ∉ seen →
  idx !! n = Some affectedVersions →
  v ∈ affectedVersions →
  Pkg n v ∈ reported idx seen cs.
Proof.
  intros Hin Hconv Hkey Hseen Hidx Hv. revert seen Hseen.
  induction cs as [|c cs IH]; intros seen Hseen; [by apply elem_of_nil in Hin|].
  cbn [reported]. destruct (dedupKey c) as [key|] eqn:Hc.
  2:{ by destruct (Hconv c (list_elem_of_here _ _)). }
  destruct (decide (key = n ++ js "@" ++ v)) as [->|Hne].
  - rewrite (Hkey c (list_elem_of_here _ _) Hc) in *.
    rewrite bool_decide_eq_false_2 by done.
    apply elem_of_app; left. apply elem_of_hit. cbn [packageName version]. eauto.
  - assert ((n, JString v) ∈ cs) as Hin'.
    { apply elem_of_cons in Hin as [Heq|?]; [|done]. subst c.
      cbv [dedupKey] in Hc. cbn in Hc. congruence. }
    assert (Pkg n v ∈ reported idx ({[key]} ∪ seen) cs) as Hrest.
    { apply IH; [done|intros; apply Hconv; by right|intros; apply Hkey; [by right|done]|].
      intros [?%elem_of_singleton|?]%elem_of_union; congruence. }
    case_bool_decide.
    + apply IH; [done|intros; apply Hconv; by right|intros; apply Hkey; [by right|done]|done].
    + apply elem_of_app; by right.
Qed.

Lemma reported_complete (idx : gmap (list N) (gset (list N))) (cs : list candidate)
    (n v : jsstring) (affectedVersions : gset (list N)) :
  (n, JString v) ∈ cs →
  (∀ c, c ∈ cs → dedupKey c ≠ None) →
  (∀ c, c ∈ cs → dedupKey c = Some (n ++ js "@" ++ v) → c = (n, JString v)) →
  idx !! n = Some affectedVersions →
  v ∈ affectedVersions →
  Pkg n v ∈ reported idx ∅ cs.
Proof.
  intros Hin Hconv Hkey Hidx Hv.
  by apply (reported_complete_seen _ _ _ _ _ affectedVersions).
Qed.

Section scan_properties.
Variable JSON_parse : jsstring → option json.
Variable readFileSync : jsstring → option jsstring.

(** X1. Matching completeness: a candidate of the file whose version the
    index holds under its name is in the list that the scan returns, when
    the versions of the candidates convert to strings and no other
    candidate has the same text [name@version]. *)
Theorem matching_completeness (lockfilePath content : jsstring) (σ σ' : store)
    (matches : list pkg) (n v : jsstring) (affectedVersions : gset (list N)) :
  readFileSync lockfilePath = Some content →
  scanLockfile JSON_parse readFileSync lockfilePath σ = (Normal matches, σ') →
  affectedPackages σ !! n = Some affectedVersions →
  v ∈ affectedVersions →
  (n, JString v) ∈ lockfileCandidates JSON_parse lockfilePath content →
  (∀ c, c ∈ lockfileCandidates JSON_parse lockfilePath content → dedupKey c ≠ None) →
  (∀ c, c ∈ lockfileCandidates JSON_parse lockfilePath content →
        dedupKey c = Some (n ++ js "@" ++ v) → c = (n, JString v)) →
  Pkg n v ∈ matches.
Proof.
  intros Hread Hscan Hidx Hv Hin Hconv Hkey.
  destruct (scanLockfile_run JSON_parse readFileSync _ _ σ Hread) as (σ1 & Hrun & _).
  rewrite Hrun in Hscan. injection Hscan as <- _.
  by apply (reported_complete _ _ _ _ affectedVersions).
Qed.

(** X2. A version that does not convert to a string ends the scan of a
    JSON file: the [TypeError] is caught and printed, the matches are those
    of the candidates before it, and the candidates after it, in either
    pass, are not looked at. *)
Theorem conversion_error_ends_scan (lockfilePath content : jsstring) (lockfile : json)
    (l1 l2 : list candidate) (c : candidate) (σ : store) :
  endsWith lockfilePath (js ".json") = true →
  readFileSync lockfilePath = Some content →
  JSON_parse content = Some lockfile →
  lockfile ≠ JNull →
  jsonCandidates lockfile = l1 ++ c :: l2 →
  Forall (λ c', dedupKey c' ≠ None) l1 →
  dedupKey c = None →
  ∃ σ', scanLockfile JSON_parse readFileSync lockfilePath σ
        = (Normal (found (matchAll l1 (fresh σ)).2), σ')
        ∧ stderr σ' = stderr σ ++ [TypeError].
Proof.
  intros Hjson Hread Hparse Hnull Hcands Hl1 Hc.
  unfold scanLockfile. rewrite Hread, Hjson.
  rewrite bind_run. cbn [get_store]. rewrite bind_run. cbn [put_store].
  rewrite bind_run, scanJsonLockfile_run, Hparse.
  assert (try_catch (matchAll (jsonCandidates lockfile)) console_error (fresh σ)
          = console_error TypeError (matchAll l1 (fresh σ)).2) as Hcatch.
  { unfold try_catch. by rewrite Hcands, (matchAll_throw l1 l2 c) by done. }
  destruct (matchAll_store l1 (fresh σ)) as (_ & Herr & _).
  destruct lockfile; try done; fold (fresh σ); rewrite Hcatch;
    (eexists; split; [reflexivity|]; cbn [console_error snd stderr]; by rewrite Herr).
Qed.

(** X3. A document that is not an object has no candidates: the scan
    leaves the store as it is, except that for [null] the [TypeError] of
    reading its property is caught and printed. *)
Theorem non_object_document (content : jsstring) (lockfile : json) (σ : store) :
  JSON_parse content = Some lockfile →
  (∀ props, lockfile ≠ JObject props) →
  scanJsonLockfile JSON_parse content σ
  = match lockfile with
    | JNull =>
        (Normal tt, Store (affectedPackages σ) (found σ) (checked σ) (stderr σ ++ [TypeError]))
    | _ => (Normal tt, σ)
    end.
Proof.
  intros Hparse Hobj. rewrite scanJsonLockfile_run, Hparse.
  destruct lockfile as [| b | repr | s | elts | props]; try reflexivity.
  - unfold jsonCandidates, truthyProp. cbn [prop]. by destruct (truthy _).
  - unfold jsonCandidates, truthyProp. cbn [prop]. by destruct (truthy _).
  - unfold jsonCandidates, truthyProp. cbn [prop]. by destruct (truthy _).
  - by destruct (Hobj props).
Qed.
End scan_properties.

Lemma matching_completeness_witness :
  Pkg (js "left-pad") (js "1.3.0") ∈ [Pkg (js "left-pad") (js "1.3.0")].
Proof.
  assert (scanLockfile (λ _, Some leftPadDocument) (λ _, Some []) (js "package-lock.json")
            leftPadStore
          = (Normal [Pkg (js "left-pad") (js "1.3.0")],
             Store leftPadIndex [Pkg (js "left-pad") (js "1.3.0")]
                   {[ js "left-pad@1.3.0" ]} [])) as Hscan
    by (vm_compute; reflexivity).
  assert (lockfileCandidates (λ _, Some leftPadDocument) (js "package-lock.json") []
          = [(js "left-pad", JString (js "1.3.0")); (js "left-pad", JString (js "1.3.0"))])
    as Hcands by (vm_compute; reflexivity).
  apply (matching_completeness (λ _, Some leftPadDocument) (λ _, Some [])
           (js "package-lock.json") [] leftPadStore _ _ (js "left-pad") (js "1.3.0")
           {[ js "1.3.0" ]} eq_refl Hscan).
  - vm_compute. reflexivity.
  - by apply elem_of_singleton.
  - rewrite Hcands. left.
  - rewrite Hcands. intros c [->|[->|[]%elem_of_nil]%elem_of_cons]%elem_of_cons; done.
  - rewrite Hcands. intros c [->|[->|[]%elem_of_nil]%elem_of_cons]%elem_of_cons; done.
Defined.

Lemma conversion_error_ends_scan_witness :
  ∃ σ', scanLockfile (λ _, Some oddVersionDocument) (λ _, Some []) (js "package-lock.json")
          leftPadStore
        = (Normal [], σ')
        ∧ stderr σ' = [TypeError].
Proof.
  apply (conversion_error_ends_scan (λ _, Some oddVersionDocument) (λ _, Some [])
           (js "package-lock.json") [] oddVersionDocument []
           [(js "left-pad", JString (js "1.3.0"))]
           (js "odd", JObject [(js "toString", JNumber (js "1"))]) leftPadStore).
  - reflexivity.
  - reflexivity.
  - reflexivity.
  - intros [=].
  - vm_compute. reflexivity.
  - constructor.
  - reflexivity.
Defined.

Lemma non_object_document_witness :
  scanJsonLockfile (λ _, Some (JArray [JString (js "left-pad")])) [] leftPadStore
  = (Normal tt, leftPadStore).
Proof.
  apply (non_object_document (λ _, Some (JArray [JString (js "left-pad")])) []
           (JArray [JString (js "left-pad")]) leftPadStore eq_refl).
  intros props [=].
Defined.

(** ** The run, continued *)

Section report_properties.
Variable JSON_parse : jsstring → option json.
Variable readFileSync : jsstring → option jsstring.
Variable AFFECTED_PACKAGES_FILE : jsstring.
Variable getLockfiles : option jsstring → completion (list jsstring).
Variable basename : jsstring → jsstring.

Lemma scanAll_unreadable (lockfiles : list jsstring) (totalFound : nat)
    (allResults : list (jsstring * list pkg)) (σ : store) :
  Exists (λ lockfile, readFileSync lockfile = None) lockfiles →
  (scanAll JSON_parse readFileSync basename lockfiles totalFound allResults σ).1
  = Throw SystemError.
Proof.
  intros Hex. revert totalFound allResults σ.
  induction lockfiles as [|lockfile lockfiles IH]; intros totalFound allResults σ.
  - by apply Exists_nil in Hex.
  - cbn [scanAll]. rewrite bind_run.
    destruct (readFileSync lockfile) as [content|] eqn:Hread.
    + destruct (scanLockfile_run JSON_parse readFileSync _ _ σ Hread) as (σ1 & -> & _).
      apply Exists_cons in Hex as [Hhere|Hex]; [congruence|].
      destruct (0 <? length _); by apply IH.
    + unfold scanLockfile. by rewrite Hread.
Qed.

Lemma scanAll_accumulators (lockfiles : list jsstring) (totalFound totalFound' : nat)
    (allResults allResults' : list (jsstring * list pkg)) (σ σ' : store) :
  scanAll JSON_parse readFileSync basename lockfiles totalFound allResults σ
  = (Normal (totalFound', allResults'), σ') →
  ∃ added,
    allResults' = allResults ++ added
    ∧ totalFound' = totalFound + sum_list (length <$> added.*2)
    ∧ Forall (λ result : jsstring * list pkg, result.2 ≠ []) added
    ∧ sublist added.*1 (basename <$> lockfiles).
Proof.
  revert totalFound allResults σ.
  induction lockfiles as [|lockfile lockfiles IH]; intros totalFound allResults σ.
  - cbn [scanAll]. intros [= <- <- _]. exists []. rewrite (right_id_L [] (++)).
    split_and!; [done|cbn; lia|constructor|constructor].
  - cbn [scanAll]. rewrite bind_run.
    destruct (scanLockfile JSON_parse readFileSync lockfile σ) as [[found1|e] σ1]; [|done].
    destruct (0 <? length found1) eqn:Hlen.
    + intros (added & -> & -> & Hne & Hsub)%IH.
      exists ((basename lockfile, found1) :: added).
      rewrite <- (assoc_L (++)). split_and!; [done| | |].
      * cbn. lia.
      * constructor; [|done]. cbn. intros ->. done.
      * cbn. by apply sublist_skip.
    + intros (added & -> & -> & Hne & Hsub)%IH. exists added.
      split_and!; [done..|]. cbn. by apply sublist_cons.
Qed.

(** X4. The report is consistent: when a run ends by printing it, the
    total is the sum of the lengths of the package lists of its results,
    no result has an empty list, the results are labelled by base names of
    lockfiles in the order in which they were found, all of them count as
    scanned, and the exit code is 1 exactly when there is a result, else
    0. *)
Theorem report_consistent (pathArg : option jsstring) (code : Z) (report : report) :
  main JSON_parse readFileSync AFFECTED_PACKAGES_FILE getLockfiles basename false pathArg
  = Exit code (Some report) →
  ∃ lockfiles,
    getLockfiles pathArg = Normal lockfiles
    ∧ lockfilesScanned report = length lockfiles
    ∧ totalAffectedPackages report = sum_list (length <$> (results report).*2)
    ∧ Forall (λ result : jsstring * list pkg, result.2 ≠ []) (results report)
    ∧ sublist (results report).*1 (basename <$> lockfiles)
    ∧ code = (if bool_decide (results report = []) then 0 else 1)%Z.
Proof.
  unfold main. destruct (parseAffectedPackages _ _) as [affected|]; [|done].
  destruct (getLockfiles pathArg) as [lockfiles|]; [|done].
  destruct (length lockfiles =? 0); [done|].
  destruct (scanAll _ _ _ _ _ _ _) as [[[totalFound allResults]|e] σ'] eqn:Hscan; [|done].
  intros [= <- <-]. exists lockfiles.
  apply scanAll_accumulators in Hscan as (added & -> & -> & Hne & Hsub).
  cbn [lockfilesScanned totalAffectedPackages results app Nat.add].
  split_and!; [done..|].
  destruct added as [|[name pkgs] added]; [done|].
  apply Forall_cons in Hne as [Hpkgs _]. cbn in Hpkgs.
  rewrite bool_decide_eq_false_2 by done.
  destruct pkgs; [done|]. reflexivity.
Qed.

End report_properties.

Lemma report_consistent_witness :
  main (λ _, Some leftPadDocument) leftPadFiles (js "affected_packages.csv")
    (λ _, Normal [js "demo/package-lock.json"]) id false None
  = Exit 1 (Some (Report 1 1 [(js "demo/package-lock.json",
                               [Pkg (js "left-pad") (js "1.3.0")])]))
  ∧ ∃ lockfiles : list jsstring,
      Normal [js "demo/package-lock.json"] = Normal lockfiles
      ∧ 1 = length lockfiles.
Proof.
  assert (main (λ _, Some leftPadDocument) leftPadFiles (js "affected_packages.csv")
            (λ _, Normal [js "demo/package-lock.json"]) id false None
          = Exit 1 (Some (Report 1 1 [(js "demo/package-lock.json",
                                       [Pkg (js "left-pad") (js "1.3.0")])]))) as Hmain
    by (vm_compute; reflexivity).
  split; [exact Hmain|].
  destruct (report_consistent _ _ _ _ _ _ _ _ Hmain) as (lockfiles & Hfiles & Hscanned & _).
  exists lockfiles. split; [exact Hfiles|exact Hscanned].
Defined.


(** ** The matcher of regular expressions *)

Lemma star_derives {R} (p : char → bool) (k : nat → jsstring → option R)
    (i : nat) (s : jsstring) (res : R) :
  star p k i s = Some res →
  ∃ w rest, s = w ++ rest ∧ forallb p w = true ∧ k (i + length w) rest = Some res.
Proof.
  revert i. induction s as [|c s IH]; intros i; cbn [star].
  - intros Hk. exists [], []. by rewrite Nat.add_0_r.
  - destruct (p c) eqn:Hc.
    + destruct (star p k (S i) s) as [m|] eqn:Hstar.
      * intros [= ->]. destruct (IH _ Hstar) as (w & rest & -> & Hw & Hk).
        exists (c :: w), rest. cbn [forallb length]. rewrite Hc, Hw.
        by replace (i + S (length w)) with (S i + length w) by lia.
      * intros Hk. exists [], (c :: s). by rewrite Nat.add_0_r.
    + intros Hk. exists [], (c :: s). by rewrite Nat.add_0_r.
Qed.

(** Every answer of the matcher goes through a match that the expression
    derives: the continuation has run right after it, with its groups. *)
Lemma rmatch_derives {R} (r : regex) (i : nat) (s : jsstring) (caps : list jsstring)
    (k : nat → jsstring → list jsstring → option R) (res : R) :
  rmatch r i s caps k = Some res →
  ∃ w rest cs,
    s = w ++ rest ∧ derives r i w rest cs
    ∧ k (i + length w) rest (caps ++ cs) = Some res.
Proof.
  revert i s caps k. induction r as [l | p | r IH | p | p | r IH | | | r1 IH1 r2 IH2];
    intros i s caps k; cbn [rmatch derives].
  - destruct (startsWith l s) eqn:Hl; [|done]. intros Hk.
    exists l, (drop (length l) s), []. rewrite (right_id_L [] (++)).
    split; [by apply startsWith_true|by split].
  - destruct s as [|c s]; [done|]. destruct (p c) eqn:Hc; [|done]. intros Hk.
    exists [c], s, []. rewrite (right_id_L [] (++)).
    split; [done|]. split; [by exists c|].
    by replace (i + length [c]) with (S i) by (cbn; lia).
  - destruct (rmatch r i s caps k) eqn:Hr.
    + intros [= ->]. apply IH in Hr as (w & rest & cs & -> & Hd & Hk).
      exists w, rest, cs. auto.
    + intros Hk. exists [], s, []. rewrite (right_id_L [] (++)), Nat.add_0_r. auto.
  - destruct s as [|c s]; [done|]. destruct (p c) eqn:Hc; [|done].
    intros (w & rest & -> & Hw & Hk)%star_derives.
    exists (c :: w), rest, []. rewrite (right_id_L [] (++)). cbn [forallb length].
    rewrite Hc, Hw. replace (i + S (length w)) with (S i + length w) by lia. auto.
  - intros (w & rest & -> & Hw & Hk)%star_derives.
    exists w, rest, []. rewrite (right_id_L [] (++)). auto.
  - intros (w & rest & cs & -> & Hd & Hk)%IH.
    exists w, rest, (cs ++ [w]). split; [done|]. split; [by exists cs|].
    replace (i + length w - i) with (length w) in Hk by lia.
    by rewrite take_app_length, <- (assoc_L (++)) in Hk.
  - destruct (i =? 0) eqn:Hi; [|done]. intros Hk. apply Nat.eqb_eq in Hi.
    exists [], s, []. rewrite (right_id_L [] (++)).
    replace (i + length (@nil char)) with i by (cbn; lia). repeat split; assumption.
  - destruct s; [|done]. intros Hk.
    exists [], [], []. rewrite (right_id_L [] (++) caps).
    replace (i + length (@nil char)) with i by (cbn; lia). repeat split; assumption.
  - intros (w1 & rest1 & cs1 & -> & Hd1
            & (w2 & rest & cs2 & -> & Hd2 & Hk)%IH2)%IH1.
    exists (w1 ++ w2), rest, (cs1 ++ cs2).
    rewrite <- !(assoc_L (++)), length_app, Nat.add_assoc.
    split; [done|]. split; [by exists w1, w2, cs1, cs2|].
    by rewrite (assoc_L (++)).
Qed.

Lemma match_at_derives (r : regex) (i : nat) (s : jsstring) (m : mresult) :
  match_at r i s = Some m →
  ∃ w rest, s = w ++ rest ∧ derives r i w rest (m_groups m)
            ∧ m_start m = i ∧ m_end m = i + length w.
Proof.
  unfold match_at. intros (w & rest & cs & -> & Hd & [= <-])%rmatch_derives.
  by exists w, rest.
Qed.

Lemma search_from_derives (r : regex) (i : nat) (s : jsstring) (m : mresult) :
  search_from r i s = Some m →
  ∃ pre w rest, s = pre ++ w ++ rest
                ∧ derives r (i + length pre) w rest (m_groups m).
Proof.
  revert i. induction s as [|c s IH]; intros i; cbn [search_from].
  - destruct (match_at r i []) eqn:Hm; [|done]. intros [= ->].
    apply match_at_derives in Hm as (w & rest & Hs & Hd & _).
    exists [], w, rest. by rewrite Nat.add_0_r.
  - destruct (match_at r i (c :: s)) eqn:Hm.
    + intros [= ->]. apply match_at_derives in Hm as (w & rest & Hs & Hd & _).
      exists [], w, rest. by rewrite Nat.add_0_r.
    + intros (pre & w & rest & -> & Hd)%IH.
      exists (c :: pre), w, rest. split; [done|].
      by replace (i + length (c :: pre)) with (S i + length pre) by (cbn; lia).
Qed.

Lemma str_match_derives (r : regex) (s : jsstring) (groups : list jsstring) :
  str_match s r = Some groups →
  ∃ pre w rest, s = pre ++ w ++ rest ∧ derives r (length pre) w rest groups.
Proof.
  unfold str_match. destruct (search_from r 0 s) as [m|] eqn:Hm; [|done].
  intros [= <-]. by apply search_from_derives in Hm.
Qed.

(** A greedy iteration that can go on after the longest run does. *)
Lemma star_greedy {R} (p : char → bool) (k : nat → jsstring → option R)
    (i : nat) (a rest : jsstring) (res : R) :
  forallb p a = true →
  k (i + length a) rest = Some res →
  match rest with [] => True | c :: _ => p c = false end →
  star p k i (a ++ rest) = Some res.
Proof.
  revert i. induction a as [|x a IH]; intros i Ha Hk Hrest.
  - rewrite Nat.add_0_r in Hk. destruct rest as [|c rest]; [done|].
    cbn [app star]. by rewrite Hrest.
  - cbn [forallb] in Ha. apply andb_true_iff in Ha as [Hx Ha].
    cbn [app star]. rewrite Hx, (IH (S i)); [done|done| |done].
    by replace (S i + length a) with (i + length (x :: a)) by (cbn; lia).
Qed.

Lemma rmatch_group {R} (r : regex) (i : nat) (s : jsstring) (caps : list jsstring)
    (k : nat → jsstring → list jsstring → option R) :
  rmatch (Group r) i s caps k
  = rmatch r i s caps (λ i' s' caps', k i' s' (caps' ++ [take (i' - i) s])).
Proof. reflexivity. Qed.

Lemma rmatch_lit_app {R} (l s : jsstring) (i : nat) (caps : list jsstring)
    (k : nat → jsstring → list jsstring → option R) :
  rmatch (Lit l) i (l ++ s) caps k = k (i + length l) s caps.
Proof. by rewrite rmatch_lit, startsWith_app, drop_app_length. Qed.

(** A group of one class iterated captures the longest run, when the
    match can go on from there. *)
Lemma rmatch_group_plus {R} (p : char → bool) (a rest : jsstring) (i : nat)
    (caps : list jsstring) (k : nat → jsstring → list jsstring → option R) (res : R) :
  a ≠ [] →
  forallb p a = true →
  match rest with [] => True | c :: _ => p c = false end →
  k (i + length a) rest (caps ++ [a]) = Some res →
  rmatch (Group (Plus p)) i (a ++ rest) caps k = Some res.
Proof.
  intros Ha Hp Hrest Hk. rewrite rmatch_group. cbn [rmatch].
  destruct a as [|c a]; [done|]. cbn [forallb] in Hp.
  apply andb_true_iff in Hp as [Hc Hp]. cbn [app]. rewrite Hc.
  apply star_greedy; [done| |done]. cbv beta.
  replace (S i + length a - i) with (length (c :: a)) by (cbn; lia).
  change (c :: a ++ rest) with ((c :: a) ++ rest).
  rewrite (take_app_length (c :: a)).
  by replace (S i + length a) with (i + length (c :: a)) by (cbn; lia).
Qed.

(** ** The dataset *)

Lemma forallb_not_elem (c : char) (s : jsstring) :
  forallb (λ x, negb (x =? c)%N) s = true ↔ c ∉ s.
Proof.
  induction s as [|x s IH]; cbn [forallb].
  - split; [intros _; apply not_elem_of_nil|done].
  - rewrite andb_true_iff, IH, not_elem_of_cons, negb_true_iff, N.eqb_neq.
    split; intros [H1 H2]; split; auto.
Qed.

(** What the expression of a dataset line captures. *)
Lemma csvLine_captures (line : jsstring) (m : list jsstring) :
  str_match line csvLineRegex = Some m →
  ∃ n v, m = [n; v] ∧ n ≠ [] ∧ v ≠ [] ∧ (34%N ∉ n) ∧ (34%N ∉ v)
         ∧ ∀ c, c ∈ n ∨ c ∈ v → c ∈ line.
Proof.
  intros (pre & w & rest & -> & Hd)%str_match_derives.
  unfold csvLineRegex in Hd. cbn [derives] in Hd.
  destruct Hd as (w1 & w2 & cs1 & cs2 & -> & -> & [-> ->]
    & (n & w3 & cs3 & cs4 & -> & -> & (cs5 & (Hn & Hnq & ->) & ->)
    & (w4 & w5 & cs6 & cs7 & -> & -> & [-> ->]
    & (v & w6 & cs8 & cs9 & -> & -> & (cs10 & (Hv & Hvq & ->) & ->) & [-> ->])))).
  exists n, v. apply forallb_not_elem in Hnq, Hvq.
  split_and!; try done. intros c Hc.
  rewrite !elem_of_app. destruct Hc; auto 10.
Qed.

(** The expression matches the line of a record and captures its fields. *)
Lemma csvLine_record (n v tail : jsstring) :
  n ≠ [] → v ≠ [] → 34%N ∉ n → 34%N ∉ v →
  str_match (recordLine (Pkg n v) ++ tail) csvLineRegex = Some [n; v].
Proof.
  intros Hn Hv Hnq Hvq. apply forallb_not_elem in Hnq, Hvq.
  unfold recordLine. cbn [packageName version].
  transitivity (str_match
    ([34%N] ++ n ++ ([34%N] ++ js ";" ++ [34%N]) ++ v ++ [34%N] ++ tail) csvLineRegex).
  { f_equal. by rewrite <- !(assoc_L (++)). }
  assert (∃ e, match_at csvLineRegex 0
                 ([34%N] ++ n ++ ([34%N] ++ js ";" ++ [34%N]) ++ v ++ [34%N] ++ tail)
               = Some (MResult 0 e [n; v])) as [e Hm].
  { unfold match_at, csvLineRegex. eexists.
    rewrite rmatch_seq, rmatch_lit_app, rmatch_seq.
    apply rmatch_group_plus; [done|done|done|].
    rewrite rmatch_seq, rmatch_lit_app, rmatch_seq.
    apply rmatch_group_plus; [done|done|done|].
    rewrite rmatch_lit_app. reflexivity. }
  unfold str_match.
  destruct ([34%N] ++ n ++ ([34%N] ++ js ";" ++ [34%N]) ++ v ++ [34%N] ++ tail)
    eqn:Heq; [done|].
  cbn [search_from]. by rewrite Hm.
Qed.

Lemma inIndex_insert (idx : gmap (list N) (gset (list N))) (k : jsstring)
    (vs : gset (list N)) (n v : jsstring) :
  inIndex (<[ k := vs ]> idx) n v ↔ (n = k ∧ v ∈ vs) ∨ (n ≠ k ∧ inIndex idx n v).
Proof.
  unfold inIndex. destruct (decide (n = k)) as [->|Hne].
  - rewrite lookup_insert_eq. split.
    + intros (vs' & [= <-] & Hv). by left.
    + intros [[_ Hv]|[? _]]; [by exists vs|done].
  - rewrite lookup_insert_ne by done. split.
    + intros H. by right.
    + intros [[? _]|[_ H]]; done.
Qed.

(** A line adds its record to the index, and nothing else. *)
Lemma addAffected_inIndex (idx : gmap (list N) (gset (list N))) (line n v : jsstring) :
  inIndex (addAffected idx line) n v
  ↔ inIndex idx n v ∨ Generator.parseLine line = Some (Pkg n v).
Proof.
  unfold addAffected, Generator.parseLine.
  destruct (bool_decide (trim line = []));
    [split; [by left|intros [?|?]; done]|].
  destruct (str_match (trim line) csvLineRegex) as [m|];
    [|split; [by left|intros [?|?]; done]].
  set (pn := capture m 1). set (pv := capture m 2).
  destruct (idx !! pn) as [vs|] eqn:Hpn.
  - rewrite Hpn, inIndex_insert. unfold inIndex. split.
    + intros [[-> [->%elem_of_singleton|Hv]%elem_of_union]|[_ H]]; eauto.
    + intros [(vs' & Hn & Hv)|[= <- <-]].
      * destruct (decide (n = pn)) as [->|]; [|by eauto 10].
        left. split; [done|]. apply elem_of_union_r. congruence.
      * left. split; [done|]. by apply elem_of_union_l, elem_of_singleton.
  - rewrite lookup_insert_eq, inIndex_insert, inIndex_insert. unfold inIndex. split.
    + intros [[-> [->%elem_of_singleton|Hv%elem_of_empty]%elem_of_union]
              |[Hne [[? _]|[_ H]]]]; eauto; done.
    + intros [(vs' & Hn & Hv)|[= <- <-]].
      * destruct (decide (n = pn)) as [->|]; [congruence|]. right. eauto 10.
      * left. split; [done|]. by apply elem_of_union_l, elem_of_singleton.
Qed.

Lemma foldl_addAffected_inIndex (lines : list jsstring)
    (idx : gmap (list N) (gset (list N))) (n v : jsstring) :
  inIndex (foldl addAffected idx lines) n v
  ↔ inIndex idx n v ∨ Pkg n v ∈ omap Generator.parseLine lines.
Proof.
  revert idx. induction lines as [|line lines IH]; intros idx.
  - cbn [foldl omap list_omap]. split; [by left|].
    intros [?|Hin]; [done|by apply elem_of_nil in Hin].
  - cbn [foldl omap list_omap]. rewrite IH, addAffected_inIndex.
    fold (omap Generator.parseLine lines).
    destruct (Generator.parseLine line) as [r|].
    + rewrite elem_of_cons. split.
      * intros [[?|?]|?]; simplify_eq; auto.
      * intros [?|[?|?]]; simplify_eq; auto.
    + split.
      * intros [[?|?]|?]; simplify_eq; auto.
      * intros [?|?]; auto.
Qed.

Lemma inIndex_empty (n v : jsstring) : ¬ inIndex ∅ n v.
Proof. intros (vs & Hn & _). by rewrite lookup_empty in Hn. Qed.

Section dataset_properties.
Variable readFileSync : jsstring → option jsstring.

(** X6. The two readers of the dataset agree: the index of the scanner
    holds a version under a name exactly when the record is in the list
    that the generator reads from the same file, and both fail when the
    file cannot be read. *)
Theorem dataset_readers_agree (csvPath : jsstring) :
  match parseAffectedPackages readFileSync csvPath,
        Generator.parseAffectedPackages readFileSync csvPath with
  | Normal idx, Normal records => ∀ n v, inIndex idx n v ↔ Pkg n v ∈ records
  | Throw e, Throw e' => e = e'
  | _, _ => False
  end.
Proof.
  unfold parseAffectedPackages, Generator.parseAffectedPackages.
  destruct (readFileSync csvPath) as [content|]; [|done].
  intros n v. rewrite foldl_addAffected_inIndex.
  split; [intros [[]%inIndex_empty|]; done|by right].
Qed.
End dataset_properties.

Lemma trimStart_elem (c : char) (s : jsstring) : c ∈ trimStart s → c ∈ s.
Proof.
  induction s as [|x s IH]; [done|]. cbn [trimStart].
  destruct (isSpace x); [|done]. intros ?%IH. by right.
Qed.

Lemma trim_elem (c : char) (s : jsstring) : c ∈ trim s → c ∈ s.
Proof.
  unfold trim. rewrite elem_of_reverse. intros ?%trimStart_elem.
  by apply trimStart_elem, elem_of_reverse.
Qed.

Lemma trimStart_spaces (a s : jsstring) :
  forallb isSpace a = true → trimStart (a ++ s) = trimStart s.
Proof.
  induction a as [|x a IH]; [done|]. cbn [forallb app trimStart].
  intros [-> Ha]%andb_true_iff. by apply IH.
Qed.

Lemma forallb_reverse (p : char → bool) (l : jsstring) :
  forallb p l = true → forallb p (reverse l) = true.
Proof.
  induction l as [|x l IH]; [done|]. cbn [forallb].
  intros [Hx Hl]%andb_true_iff.
  rewrite reverse_cons, forallb_app, IH by done. cbn [forallb]. by rewrite Hx.
Qed.

(** Trimming keeps a text that begins and ends with characters other than
    white space, and drops the white space after it. *)
Lemma trim_keep (c d : char) (s ws : jsstring) :
  isSpace c = false → isSpace d = false → forallb isSpace ws = true →
  trim ((c :: s ++ [d]) ++ ws) = c :: s ++ [d].
Proof.
  intros Hc Hd Hws. unfold trim.
  replace (trimStart ((c :: s ++ [d]) ++ ws)) with ((c :: s) ++ [d] ++ ws).
  2:{ cbn [app trimStart]. rewrite Hc. by rewrite <- (assoc_L (++)). }
  rewrite !reverse_app, <- (assoc_L (++)).
  rewrite trimStart_spaces by (by apply forallb_reverse).
  change (reverse [d]) with [d]. cbn [app trimStart]. rewrite Hd.
  by rewrite reverse_cons, reverse_involutive.
Qed.

Lemma split_lines_line (a : jsstring) : 10%N ∉ a → split_lines a = [a].
Proof.
  induction a as [|x a IH]; [done|]. intros [Hx Ha]%not_elem_of_cons.
  cbn [split_lines]. apply N.eqb_neq in Hx. rewrite N.eqb_sym in Hx.
  by rewrite Hx, IH.
Qed.

Lemma split_lines_app (a b : jsstring) :
  10%N ∉ a → split_lines (a ++ 10%N :: b) = a :: split_lines b.
Proof.
  induction a as [|x a IH]; [done|]. intros [Hx Ha]%not_elem_of_cons.
  cbn [app split_lines]. apply N.eqb_neq in Hx. rewrite N.eqb_sym in Hx.
  by rewrite Hx, IH.
Qed.

Lemma split_lines_no_lf (s line : jsstring) : line ∈ split_lines s → 10%N ∉ line.
Proof.
  revert line. induction s as [|x s IH]; intros line.
  - cbn. intros ->%list_elem_of_singleton. apply not_elem_of_nil.
  - cbn [split_lines]. destruct (x =? 10)%N eqn:Hx.
    + intros [->|?]%elem_of_cons; [apply not_elem_of_nil|by apply IH].
    + destruct (split_lines s) as [|l ls] eqn:Hs.
      * intros ->%list_elem_of_singleton. apply N.eqb_neq in Hx.
        intros [?|[]%elem_of_nil]%elem_of_cons. congruence.
      * intros [->|?]%elem_of_cons; [|apply IH; by right].
        apply N.eqb_neq in Hx. apply not_elem_of_cons. split; [congruence|].
        apply IH. by left.
Qed.

Lemma parseLine_fields (line : jsstring) (r : pkg) :
  Generator.parseLine line = Some r →
  packageName r ≠ [] ∧ version r ≠ []
  ∧ (34%N ∉ packageName r) ∧ (34%N ∉ version r)
  ∧ ∀ c, c ∈ packageName r ∨ c ∈ version r → c ∈ line.
Proof.
  unfold Generator.parseLine. destruct (bool_decide (trim line = [])); [done|].
  destruct (str_match (trim line) csvLineRegex) as [m|] eqn:Hm; [|done].
  apply csvLine_captures in Hm as (n & v & -> & Hn & Hv & Hnq & Hvq & Hsub).
  intros [= <-]. cbn. split_and!; try done.
  intros c Hc. by apply trim_elem, Hsub.
Qed.

(** The line of a record is read back as the record. *)
Lemma parseLine_recordLine (r : pkg) :
  isField (packageName r) → isField (version r) →
  Generator.parseLine (recordLine r) = Some r.
Proof.
  destruct r as [n v]. cbn [packageName version].
  intros (Hn & Hnq & _) (Hv & Hvq & _). unfold Generator.parseLine.
  assert (trim (recordLine (Pkg n v)) = recordLine (Pkg n v)) as ->.
  { unfold recordLine. cbn [packageName version].
    transitivity (trim ((34%N :: (n ++ [34%N] ++ js ";" ++ [34%N] ++ v) ++ [34%N]) ++ [])).
    { f_equal. rewrite (right_id_L [] (++)). cbn [app]. f_equal.
      by rewrite <- !(assoc_L (++)). }
    rewrite trim_keep by done. cbn [app]. f_equal. by rewrite <- !(assoc_L (++)). }
  rewrite bool_decide_eq_false_2 by done.
  rewrite <- (right_id_L [] (++) (recordLine (Pkg n v))).
  by rewrite csvLine_record.
Qed.

Lemma recordLine_no_lf (r : pkg) :
  isField (packageName r) → isField (version r) → 10%N ∉ recordLine r.
Proof.
  intros (_ & _ & Hn) (_ & _ & Hv). unfold recordLine.
  rewrite !not_elem_of_app. split_and!; try done.
  all: by apply forallb_not_elem.
Qed.

Lemma split_lines_datasetText (header : jsstring) (records : list pkg) :
  10%N ∉ header →
  Forall (λ r, isField (packageName r) ∧ isField (version r)) records →
  split_lines (datasetText header records) = header :: (recordLine <$> records).
Proof.
  unfold datasetText. intros Hh Hrs. revert header Hh.
  induction Hrs as [|r records [Hn Hv] _ IH]; intros header Hh.
  - cbn [fmap list_fmap concat]. rewrite (right_id_L [] (++)).
    by apply split_lines_line.
  - rewrite !fmap_cons. cbn [concat].
    rewrite <- !(assoc_L (++)). cbn [app].
    rewrite split_lines_app by done. f_equal.
    apply IH. by apply recordLine_no_lf.
Qed.

Lemma omap_parseLine_recordLine (records : list pkg) :
  Forall (λ r, isField (packageName r) ∧ isField (version r)) records →
  omap Generator.parseLine (recordLine <$> records) = records.
Proof.
  induction 1 as [|r records [Hn Hv] _ IH]; [done|].
  rewrite fmap_cons. cbn [omap list_omap]. rewrite parseLine_recordLine by done.
  f_equal. apply IH.
Qed.

Lemma trimStart_forallb (s : jsstring) : forallb isSpace s = true → trimStart s = [].
Proof.
  induction s as [|x s IH]; [done|]. cbn [forallb trimStart].
  intros [-> ?]%andb_true_iff. by apply IH.
Qed.

Lemma trim_spaces_end (c : char) (h ws : jsstring) :
  isSpace c = false → forallb isSpace ws = true →
  trim ((c :: h) ++ ws) = trim (c :: h).
Proof.
  intros Hc Hws. unfold trim. cbn [app trimStart]. rewrite Hc.
  change (c :: h ++ ws) with ((c :: h) ++ ws).
  by rewrite reverse_app, trimStart_spaces by (by apply forallb_reverse).
Qed.

Lemma datasetText_snoc (header : jsstring) (records : list pkg) (r : pkg) :
  datasetText header (records ++ [r])
  = datasetText header records ++ [10%N] ++ recordLine r.
Proof.
  unfold datasetText.
  by rewrite fmap_app, concat_app, fmap_cons, fmap_nil, (assoc_L (++)); cbn [concat];
    rewrite (right_id_L [] (++) ([10%N] ++ recordLine r)).
Qed.

(** The text of a dataset, with white space after it, as the readers see
    it once it is trimmed and split: the lines of the records. *)
Lemma dataset_lines (c : char) (h ws : jsstring) (records : list pkg) :
  isSpace c = false → 10%N ∉ (c :: h) →
  Forall (λ r, isField (packageName r) ∧ isField (version r)) records →
  forallb isSpace ws = true →
  drop 1 (split_lines (trim (datasetText (c :: h) records ++ ws)))
  = recordLine <$> records.
Proof.
  intros Hc Hh Hrs Hws.
  destruct records as [|r records _] using rev_ind.
  - unfold datasetText. rewrite fmap_nil. cbn [concat].
    rewrite (right_id_L [] (++)), trim_spaces_end by done.
    rewrite split_lines_line; [done|]. by intros Hin%trim_elem.
  - assert (trim (datasetText (c :: h) (records ++ [r]) ++ ws)
            = datasetText (c :: h) (records ++ [r])) as ->.
    { rewrite datasetText_snoc. unfold recordLine.
      set (t := datasetText (c :: h) records).
      assert (∃ t', t = c :: t') as [t' ->] by (by eexists).
      transitivity (trim ((c :: (t' ++ [10%N] ++ [34%N] ++ packageName r ++ [34%N]
                                  ++ js ";" ++ [34%N] ++ version r) ++ [34%N]) ++ ws)).
      { do 2 f_equal. cbn [app]. f_equal.
        by repeat (rewrite <- (assoc_L (++)); cbn [app]). }
      rewrite trim_keep by done. cbn [app]. f_equal.
      by repeat (rewrite <- (assoc_L (++)); cbn [app]). }
    by rewrite split_lines_datasetText.
Qed.

Section dataset_round_trip.
Variable readFileSync : jsstring → option jsstring.

(** X7. The records of a dataset file are read back.  For a file whose
    text is a first line (any text without a line feed that begins with a
    character other than white space), then a line for each record of a
    list, each with both fields in double quotes and a semicolon between
    them, then white space: the generator reads the list of the records, in
    order, and the index of the scanner holds a version under a name
    exactly when the record is in the list.  The first line is dropped
    whatever it holds. *)
Theorem dataset_round_trip (csvPath : jsstring) (c : char) (h ws : jsstring)
    (records : list pkg) :
  isSpace c = false → 10%N ∉ (c :: h) →
  Forall (λ r, isField (packageName r) ∧ isField (version r)) records →
  forallb isSpace ws = true →
  readFileSync csvPath = Some (datasetText (c :: h) records ++ ws) →
  Generator.parseAffectedPackages readFileSync csvPath = Normal records
  ∧ ∃ idx, parseAffectedPackages readFileSync csvPath = Normal idx
           ∧ ∀ n v, inIndex idx n v ↔ Pkg n v ∈ records.
Proof.
  intros Hc Hh Hrs Hws Hread.
  unfold Generator.parseAffectedPackages, parseAffectedPackages. rewrite Hread.
  cbv zeta. rewrite dataset_lines, omap_parseLine_recordLine by done.
  split; [done|]. eexists. split; [done|]. intros n v.
  rewrite foldl_addAffected_inIndex, omap_parseLine_recordLine by done.
  split; [intros [[]%inIndex_empty|]; done|by right].
Qed.

(** X8. What the index can hold: every name and every version of the
    index is a non-empty text without a double quote and without a line
    feed, whatever the dataset file holds. *)
Theorem index_fields (csvPath : jsstring) (idx : gmap (list N) (gset (list N)))
    (n v : jsstring) :
  parseAffectedPackages readFileSync csvPath = Normal idx →
  inIndex idx n v →
  isField n ∧ isField v.
Proof.
  unfold parseAffectedPackages.
  destruct (readFileSync csvPath) as [content|]; [|done].
  intros [= <-]. rewrite foldl_addAffected_inIndex.
  intros [[]%inIndex_empty|Hin].
  apply list_elem_of_omap in Hin as (line & Hline & Hparse).
  apply parseLine_fields in Hparse as (Hn & Hv & Hnq & Hvq & Hsub).
  cbn [packageName version] in *.
  assert (line ∈ split_lines (trim content)) as Hlf%split_lines_no_lf.
  { revert Hline. generalize (split_lines (trim content)). intros [|l ls]; cbn [drop].
    - by intros ?%elem_of_nil.
    - rewrite drop_0. by right. }
  unfold isField. split_and!; try done.
  - intros ?. apply Hlf, Hsub. by left.
  - intros ?. apply Hlf, Hsub. by right.
Qed.
End dataset_round_trip.

Lemma dataset_round_trip_witness :
  Generator.parseAffectedPackages leftPadFiles (js "affected_packages.csv")
  = Normal [Pkg (js "left-pad") (js "1.3.0")]
  ∧ ∃ idx, parseAffectedPackages leftPadFiles (js "affected_packages.csv") = Normal idx
           ∧ ∀ n v, inIndex idx n v ↔ Pkg n v ∈ [Pkg (js "left-pad") (js "1.3.0")].
Proof.
  apply (dataset_round_trip leftPadFiles (js "affected_packages.csv")
           112%N (js "ackage;version") [10%N] [Pkg (js "left-pad") (js "1.3.0")]).
  - reflexivity.
  - by apply forallb_not_elem.
  - repeat constructor; try (intros [=]); by apply forallb_not_elem.
  - reflexivity.
  - reflexivity.
Defined.

Lemma index_fields_witness :
  isField (js "left-pad") ∧ isField (js "1.3.0").
Proof.
  apply (index_fields leftPadFiles (js "affected_packages.csv") leftPadIndex).
  - vm_compute. reflexivity.
  - exists {[ js "1.3.0" ]}. split; [vm_compute; reflexivity|].
    by apply elem_of_singleton.
Defined.

(** ** The nested-tree pass, by the entries it reaches *)

Lemma v1Candidates_elem (deps : json) (c : candidate) :
  c ∈ v1Candidates deps
  ↔ ∃ k value, (k, value) ∈ Object_entries deps
      ∧ ((c.1 = k ∧ truthyProp value (js "version") = Some c.2)
         ∨ ∃ dependencies, truthyProp value (js "dependencies") = Some dependencies
                           ∧ c ∈ v1Candidates dependencies).
Proof.
  rewrite v1Candidates_unfold, list_elem_of_bind. split.
  - intros ([k value] & Hc & Hin). exists k, value. split; [done|].
    unfold v1EntryCandidates in Hc. apply elem_of_app in Hc as [Hc|Hc].
    + left. destruct (truthyProp value (js "version")) as [ver|];
        [|by apply elem_of_nil in Hc].
      apply list_elem_of_singleton in Hc. by subst c.
    + right. destruct (truthyProp value (js "dependencies")) as [d|];
        [by exists d|by apply elem_of_nil in Hc].
  - intros (k & value & Hin & Hc). exists (k, value). split; [|done].
    unfold v1EntryCandidates. apply elem_of_app.
    destruct Hc as [[Hk Hver]|(d & Hd & Hc)].
    + left. rewrite Hver. destruct c; cbn in *; subst. by apply list_elem_of_singleton.
    + right. by rewrite Hd.
Qed.

Lemma v1Candidates_nested_aux (v : json) :
  (∀ c, c ∈ v1Candidates v →
     ∃ value, nestedEntry v c.1 value ∧ truthyProp value (js "version") = Some c.2)
  ∧ (∀ d c, truthyProp v (js "dependencies") = Some d → c ∈ v1Candidates d →
       ∃ value, nestedEntry d c.1 value ∧ truthyProp value (js "version") = Some c.2).
Proof.
  assert (∀ v : json,
    (∀ k value d c, (k, value) ∈ Object_entries v →
       truthyProp value (js "dependencies") = Some d → c ∈ v1Candidates d →
       ∃ value', nestedEntry d c.1 value'
                 ∧ truthyProp value' (js "version") = Some c.2) →
    ∀ c, c ∈ v1Candidates v →
      ∃ value, nestedEntry v c.1 value ∧ truthyProp value (js "version") = Some c.2)
    as Hstep.
  { intros v' Hsub c (k & value & Hin & Hc)%v1Candidates_elem.
    destruct Hc as [[Hk Hver]|(d & Hd & Hc)].
    - exists value. split; [|done]. rewrite Hk. by apply nested_here.
    - destruct (Hsub k value d c Hin Hd Hc) as (value' & Hn & Hver).
      exists value'. split; [|done]. by apply (nested_under _ k value d). }
  induction v as [| b | repr | s | elts IH | props IH] using json_induction.
  1-3: split; [intros c Hc; by apply elem_of_nil in Hc|];
       intros d c (? & ? & _)%truthyProp_Some; done.
  - split; [|intros d c (? & ? & _)%truthyProp_Some; done].
    apply Hstep. intros k value d c Hin. cbn [Object_entries] in Hin.
    apply elem_of_lookup_imap in Hin as (i & x & [= -> ->] & _).
    intros (? & ? & _)%truthyProp_Some; done.
  - split; [|intros d c (? & ? & _)%truthyProp_Some; done].
    apply Hstep. intros k value d c Hin Hd Hc. cbn [Object_entries] in Hin.
    apply elem_of_lookup_imap in Hin as (i & x & [= -> ->] & Hx).
    rewrite Forall_lookup in IH. by apply (proj2 (IH _ _ Hx) d).
  - rewrite Forall_forall in IH. split.
    + apply Hstep. intros k value d c Hin Hd Hc.
      by apply (proj2 (IH _ Hin) d).
    + intros d c (props' & [= <-] & Hin & _)%truthyProp_Some Hc.
      by apply (proj1 (IH _ Hin)).
Qed.


(** ** Finding the lockfiles *)

Section directory_induction.
Variable P : directory → Prop.
Hypothesis Hunreadable : P Unreadable.
Hypothesis Hreadable :
  ∀ entries,
    Forall (λ entry, match entry with DirectoryEntry _ content => P content | _ => True end)
      entries →
    P (Readable entries).

Fixpoint directory_induction (dir : directory) : P dir :=
  match dir with
  | Unreadable => Hunreadable
  | Readable entries =>
      Hreadable entries
        ((fix go (l : list dirent)
            : Forall (λ entry, match entry with
                               | DirectoryEntry _ content => P content
                               | _ => True
                               end) l :=
            match l with
            | [] => List.Forall_nil _
            | entry :: rest =>
                @List.Forall_cons _
                  (λ entry, match entry with
                            | DirectoryEntry _ content => P content
                            | _ => True
                            end) entry rest
                  match entry with
                  | DirectoryEntry _ content => directory_induction content
                  | _ => I
                  end
                  (go rest)
            end) entries)
  end.
End directory_induction.

Section discovery_properties.
Variable toLowerCase : jsstring → jsstring.
Variable join : jsstring → jsstring → jsstring.
Variable existsSync : jsstring → bool.

(** The function as the source writes it: the second loop adds to the
    common names, entry by entry. *)
Lemma findLockfilesInProject_unfold (projectDir : jsstring) (dir : directory)
    (recursive : bool) :
  findLockfilesInProject toLowerCase join existsSync projectDir dir recursive
  = match dir with
    | Unreadable => commonLockfiles join existsSync projectDir
    | Readable entries =>
        foldl (addEntry toLowerCase join projectDir recursive
                 (λ fullPath content,
                    findLockfilesInProject toLowerCase join existsSync fullPath content true))
              (commonLockfiles join existsSync projectDir) entries
    end.
Proof.
  destruct dir as [|entries]; [done|]. cbn [findLockfilesInProject].
  generalize (commonLockfiles join existsSync projectDir).
  induction entries as [|entry entries IH]; intros found; [done|].
  cbn [foldl]. rewrite <- IH. by destruct entry.
Qed.

Lemma elem_of_commonLockfiles (projectDir path : jsstring) :
  path ∈ commonLockfiles join existsSync projectDir
  ↔ ∃ lockfile, lockfile ∈ COMMON_LOCKFILES ∧ path = join projectDir lockfile
                ∧ existsSync path = true.
Proof.
  unfold commonLockfiles.
  rewrite list_elem_of_In, filter_In, <- list_elem_of_In, list_elem_of_fmap.
  split.
  - intros [(lockfile & -> & Hin) Hex]. by exists lockfile.
  - intros (lockfile & Hin & -> & Hex). split; [by exists lockfile|done].
Qed.

Lemma elem_of_addEntry (projectDir : jsstring) (recursive : bool)
    (subFound : jsstring → directory → list jsstring) (found : list jsstring)
    (entry : dirent) (path : jsstring) :
  path ∈ addEntry toLowerCase join projectDir recursive subFound found entry
  ↔ path ∈ found ∨ adds toLowerCase join projectDir recursive subFound entry path.
Proof.
  destruct entry as [name|name content|name]; cbn [addEntry adds direntName].
  - destruct (isLockfile toLowerCase name).
    + case_bool_decide as Hin.
      * split; [by left|]. intros [?|[_ ->]]; done.
      * rewrite elem_of_app, list_elem_of_singleton. split.
        -- intros [?| ->]; [by left|by right].
        -- intros [?|[_ ->]]; [by left|by right].
    + split; [by left|]. intros [?|[? _]]; done.
  - destruct recursive; cbn [andb].
    2:{ split; [by left|]. intros [?|[? _]]; done. }
    case_bool_decide as Hskip; cbn [negb andb].
    { split; [by left|]. intros [?|(_ & ? & _)]; done. }
    destruct (startsWith (js ".") name); cbn [negb].
    { split; [by left|]. intros [?|(_ & _ & ? & _)]; done. }
    rewrite elem_of_app. split.
    + intros [?|?]; [by left|by right].
    + intros [?|(_ & _ & _ & ?)]; [by left|by right].
  - split; [by left|]. intros [?|[]]; done.
Qed.

Lemma elem_of_foldl_addEntry (projectDir : jsstring) (recursive : bool)
    (subFound : jsstring → directory → list jsstring) (entries : list dirent)
    (found : list jsstring) (path : jsstring) :
  path ∈ foldl (addEntry toLowerCase join projectDir recursive subFound) found entries
  ↔ path ∈ found ∨ ∃ entry, entry ∈ entries ∧ adds toLowerCase join projectDir recursive subFound entry path.
Proof.
  revert found. induction entries as [|entry entries IH]; intros found.
  - cbn [foldl]. split; [by left|]. intros [?|(? & []%elem_of_nil & _)]; done.
  - cbn [foldl]. rewrite IH, elem_of_addEntry. split.
    + intros [[?|?]|(e & ? & ?)]; [by left|right..].
      * exists entry. split; [by left|done].
      * exists e. split; [by right|done].
    + intros [?|(e & [->|?]%elem_of_cons & ?)]; [by left; left|by left; right|].
      right. by exists e.
Qed.

Lemma elem_of_findLockfilesInProject (projectDir : jsstring) (dir : directory)
    (recursive : bool) (path : jsstring) :
  path ∈ findLockfilesInProject toLowerCase join existsSync projectDir dir recursive
  ↔ discovered toLowerCase join existsSync projectDir dir recursive path.
Proof.
  revert projectDir recursive.
  induction dir as [|entries IH] using directory_induction; intros projectDir recursive.
  - rewrite findLockfilesInProject_unfold, elem_of_commonLockfiles. split.
    + intros (lockfile & Hin & -> & Hex). by apply discovered_common.
    + inversion 1; subst. by eexists.
  - rewrite findLockfilesInProject_unfold, elem_of_foldl_addEntry,
      elem_of_commonLockfiles.
    rewrite Forall_forall in IH. split.
    + intros [(lockfile & Hin & -> & Hex)|(entry & Hin & Hadds)].
      * by apply discovered_common.
      * destruct entry as [name|name content|name]; cbn [adds] in Hadds.
        -- destruct Hadds as [Hlock ->]. by apply discovered_file.
        -- destruct Hadds as (-> & Hskip & Hdot & Hsub).
           apply (discovered_below _ _ _ _ _ name content); [done..|].
           by apply (IH _ Hin).
        -- done.
    + inversion 1 as [? ? ? lockfile Hin Hex|? ? ? name Hin Hlock
                      |? ? name content ? Hin Hskip Hdot Hsub]; subst.
      * left. by eexists.
      * right. exists (FileEntry name). by split.
      * right. exists (DirectoryEntry name content). split; [done|].
        cbn [adds]. split_and!; try done. by apply (IH _ Hin).
Qed.


(** X10. What the walk finds.  A path is in the result exactly when it is
    a common name that exists in a visited directory, or a file of a
    visited directory whose name is that of a lockfile; the visited
    directories are the starting one and, in a recursive walk, the readable
    or unreadable directories below it that are reached through names that
    are not in [SKIP_DIRS] and do not begin with a dot.  Without recursion
    no subdirectory is visited. *)
Theorem discovery_characterised (projectDir : jsstring) (dir : directory)
    (recursive : bool) (path : jsstring) :
  path ∈ findLockfilesInProject toLowerCase join existsSync projectDir dir recursive
  ↔ discovered toLowerCase join existsSync projectDir dir recursive path.
Proof.
  revert projectDir recursive.
  induction dir as [|entries IH] using directory_induction; intros projectDir recursive.
  - rewrite findLockfilesInProject_unfold, elem_of_commonLockfiles. split.
    + intros (lockfile & Hin & -> & Hex). by apply discovered_common.
    + inversion 1; subst. by eexists.
  - rewrite findLockfilesInProject_unfold, elem_of_foldl_addEntry,
      elem_of_commonLockfiles.
    rewrite Forall_forall in IH. split.
    + intros [(lockfile & Hin & -> & Hex)|(entry & Hin & Hadds)].
      * by apply discovered_common.
      * destruct entry as [name|name content|name]; cbn [adds] in Hadds.
        -- destruct Hadds as [Hlock ->]. by apply discovered_file.
        -- destruct Hadds as (-> & Hskip & Hdot & Hsub).
           apply (discovered_below _ _ _ _ _ name content); [done..|].
           by apply (IH _ Hin).
        -- done.
    + inversion 1 as [? ? ? lockfile Hin Hex|? ? ? name Hin Hlock
                      |? ? name content ? Hin Hskip Hdot Hsub]; subst.
      * left. by eexists.
      * right. exists (FileEntry name). by split.
      * right. exists (DirectoryEntry name content). split; [done|].
        cbn [adds]. split_and!; try done. by apply (IH _ Hin).
Qed.

Lemma NoDup_addEntry_file (projectDir : jsstring) (recursive : bool)
    (subFound : jsstring → directory → list jsstring) (found : list jsstring)
    (entry : dirent) :
  (recursive = false ∨ ∀ name content, entry ≠ DirectoryEntry name content) →
  NoDup found →
  NoDup (addEntry toLowerCase join projectDir recursive subFound found entry).
Proof.
  intros Hflat Hfound.
  destruct entry as [name|name content|name]; cbn [addEntry direntName]; [|..|done].
  - destruct (isLockfile toLowerCase name); [|done].
    case_bool_decide as Hin; [done|].
    apply NoDup_app. split_and!; [done| |apply NoDup_singleton].
    intros x Hx ->%list_elem_of_singleton. done.
  - destruct Hflat as [->|Hne]; [done|]. by destruct (Hne name content).
Qed.

(** X11. Without recursion no path is found twice: when [path.join] gives
    different paths for the common names, the paths found in one directory
    are pairwise different, whatever the directory lists (a name listed
    twice, or a listed name that is also a common name, is found once). *)
Theorem flat_walk_NoDup (projectDir : jsstring) (dir : directory) :
  NoDup (join projectDir <$> COMMON_LOCKFILES) →
  NoDup (findLockfilesInProject toLowerCase join existsSync projectDir dir false).
Proof.
  intros Hcommon. rewrite findLockfilesInProject_unfold.
  assert (NoDup (commonLockfiles join existsSync projectDir)) as Hfound.
  { unfold commonLockfiles. apply NoDup_ListNoDup, List.NoDup_filter.
    by apply NoDup_ListNoDup. }
  destruct dir as [|entries]; [done|].
  revert Hfound. generalize (commonLockfiles join existsSync projectDir).
  induction entries as [|entry entries IH]; intros found Hfound; [done|].
  cbn [foldl]. apply IH. apply NoDup_addEntry_file; [by left|done].
Qed.

(** X12. The name test of [isLockfile], in closed form.  When lower-casing
    leaves the common names as they are, a name is that of a lockfile
    exactly when its lower-case form is [npm-shrinkwrap.json], or holds the
    text [lock] and ends with one of the five extensions: the other common
    names pass the second test by themselves. *)
Theorem isLockfile_closed_form (filename : jsstring) :
  Forall (λ lockfile, toLowerCase lockfile = lockfile) COMMON_LOCKFILES →
  isLockfile toLowerCase filename
  = let lower := toLowerCase filename in
    bool_decide (lower = js "npm-shrinkwrap.json")
    || (includes lower (js "lock")
        && (endsWith lower (js ".json") || endsWith lower (js ".yaml")
            || endsWith lower (js ".yml") || endsWith lower (js ".lock")
            || endsWith lower (js ".lockb"))).
Proof.
  intros Hfix. unfold isLockfile, COMMON_LOCKFILES in *. cbv zeta.
  generalize (toLowerCase filename). intros lower. cbn [existsb].
  repeat (apply Forall_cons in Hfix as [-> Hfix]).
  destruct (decide (lower = js "package-lock.json")) as [->|?]; [by vm_compute|].
  destruct (decide (lower = js "npm-shrinkwrap.json")) as [->|?]; [by vm_compute|].
  destruct (decide (lower = js "pnpm-lock.yaml")) as [->|?]; [by vm_compute|].
  destruct (decide (lower = js "yarn.lock")) as [->|?]; [by vm_compute|].
  destruct (decide (lower = js "bun.lockb")) as [->|?]; [by vm_compute|].
  destruct (decide (lower = js "bun.lock")) as [->|?]; [by vm_compute|].
  rewrite !bool_decide_eq_false_2 by done. cbn [orb].
  by destruct (includes lower (js "lock")).
Qed.
End discovery_properties.

Lemma flat_walk_NoDup_witness :
  NoDup (findLockfilesInProject asciiLowerCase slashJoin (λ path, endsWith path (js "yarn.lock"))
           (js "demo") demoDirectory false).
Proof.
  apply (flat_walk_NoDup asciiLowerCase slashJoin (λ path, endsWith path (js "yarn.lock"))
           (js "demo") demoDirectory).
  apply (bool_decide_unpack _). vm_compute. exact I.
Defined.

Lemma isLockfile_closed_form_witness :
  isLockfile asciiLowerCase (js "Cargo.LOCK") = true.
Proof.
  assert (Forall (λ lockfile, asciiLowerCase lockfile = lockfile) COMMON_LOCKFILES)
    as Hfix by (repeat constructor).
  exact (isLockfile_closed_form asciiLowerCase (js "Cargo.LOCK") Hfix).
Defined.

Section command_properties.
Variable JSON_parse : jsstring → option json.
Variable readFileSync : jsstring → option jsstring.
Variable AFFECTED_PACKAGES_FILE : jsstring.
Variable basename : jsstring → jsstring.
Variable toLowerCase : jsstring → jsstring.
Variable join : jsstring → jsstring → jsstring.
Variable existsSync : jsstring → bool.
Variable statSync : jsstring → option bool.
Variable readdir : jsstring → directory.
Variable LOCKS_DIR : jsstring.


End command_properties.



(** ** The first method of the text scan *)

Lemma packageAtVersion_shape (i : nat) (w rest : jsstring) (cs : list jsstring) :
  derives packageAtVersionRegex i w rest cs →
  ∃ oq at' nm ver cq,
    w = oq ++ (at' ++ nm) ++ [64%N] ++ ver ++ cq ++ [58%N]
    ∧ cs = [at' ++ nm; ver]
    ∧ (oq = [] ∨ ∃ c, oq = [c] ∧ isQuote c = true)
    ∧ (at' = [] ∨ at' = [64%N])
    ∧ nm ≠ [] ∧ forallb (λ c, negb ((c =? 64)%N || isQuote c)) nm = true
    ∧ ver ≠ [] ∧ forallb (λ c, negb (isQuote c || (c =? 58)%N || isSpace c)) ver = true
    ∧ (cq = [] ∨ ∃ c, cq = [c] ∧ isQuote c = true).
Proof.
  unfold packageAtVersionRegex. cbn [derives].
  intros (oq & w1 & cs1 & cs2 & -> & -> & Hoq
    & (w2 & w3 & cs3 & cs4 & -> & -> & (cs5 & (at' & nm & cs6 & cs7 & -> & -> & Hat
         & (Hnm & Hnmc & ->)) & ->)
    & (w4 & w5 & cs8 & cs9 & -> & -> & [-> ->]
    & (ver & w6 & cs10 & cs11 & -> & -> & (cs12 & (Hver & Hverc & ->) & ->)
    & (cq & w7 & cs13 & cs14 & -> & -> & Hcq & [-> ->]))))).
  exists oq, at', nm, ver, cq.
  assert (cs1 = [] ∧ (oq = [] ∨ ∃ c, oq = [c] ∧ isQuote c = true)) as [-> Hoq'].
  { destruct Hoq as [[-> ->]|(c & -> & Hc & ->)]; eauto. }
  assert (cs6 = [] ∧ (at' = [] ∨ at' = [64%N])) as [-> Hat'].
  { destruct Hat as [[-> ->]|[-> ->]]; eauto. }
  assert (cs13 = [] ∧ (cq = [] ∨ ∃ c, cq = [c] ∧ isQuote c = true)) as [-> Hcq'].
  { destruct Hcq as [[-> ->]|(c & -> & Hc & ->)]; eauto. }
  split_and!; try done.
Qed.

Lemma forallb_elem (p : char → bool) (l : jsstring) (c : char) :
  forallb p l = true → c ∈ l → p c = true.
Proof.
  rewrite forallb_forall. intros H Hin. by apply H, list_elem_of_In.
Qed.

Lemma isQuote_cases (c : char) : isQuote c = true → c = 39%N ∨ c = 34%N.
Proof.
  unfold isQuote. intros [?%N.eqb_eq|?%N.eqb_eq]%orb_true_iff; auto.
Qed.

(** No match goes over a quote that follows white space: a quote can only
    be the first character of a match, or the one before the colon, which
    follows a character of the version. *)
Lemma packageAtVersion_no_cross (i : nat) (w rest : jsstring) (cs : list jsstring)
    (u : jsstring) (c0 q : char) (w' : jsstring) :
  derives packageAtVersionRegex i w rest cs →
  isSpace c0 = true → isQuote q = true →
  w ≠ u ++ c0 :: q :: w'.
Proof.
  intros (oq & at' & nm & ver & cq & -> & _ & Hoq & Hat & Hnm & Hnmc & Hver & Hverc & Hcq)
    %packageAtVersion_shape Hc0 Hq Heq.
  set (X := (at' ++ nm) ++ [64%N] ++ ver) in *.
  assert (∀ x, x ∈ X → isQuote x = false) as HX.
  { intros x. unfold X. rewrite !elem_of_app, list_elem_of_singleton.
    intros [[Hx|Hx]|[->|Hx]]; [| | done |].
    - destruct Hat as [->| ->]; [by apply elem_of_nil in Hx|].
      by apply list_elem_of_singleton in Hx as ->.
    - apply (forallb_elem _ _ _ Hnmc) in Hx.
      apply negb_true_iff, orb_false_iff in Hx. tauto.
    - apply (forallb_elem _ _ _ Hverc) in Hx.
      apply negb_true_iff, orb_false_iff in Hx as [Hx _].
      apply orb_false_iff in Hx. tauto. }
  assert (∀ a x b, oq ++ X ≠ a ++ x :: q :: b) as HY1.
  { intros a x b HY.
    assert (q ∈ X) as Hin; [|apply HX in Hin; congruence].
    destruct Hoq as [->|(c & -> & _)].
    - cbn [app] in HY. rewrite HY, elem_of_app. right. right. by left.
    - destruct a as [|a0 a]; cbn [app] in HY; injection HY as _ ->.
      + by left.
      + rewrite elem_of_app. right. right. by left. }
  assert (∀ a, oq ++ X ≠ a ++ [c0]) as HY2.
  { intros a HY. destruct ver as [|z ver _] using rev_ind; [done|].
    unfold X in HY. rewrite !(assoc_L (++)) in HY.
    apply app_inj_tail in HY as [_ ->].
    rewrite forallb_app in Hverc. apply andb_true_iff in Hverc as [_ Hz].
    cbn [forallb] in Hz. rewrite Hc0 in Hz.
    by rewrite !orb_true_r in Hz. }
  assert (oq ++ X ++ cq ++ [58%N] = u ++ c0 :: q :: w') as Heq'.
  { rewrite <- Heq. unfold X. by rewrite <- !(assoc_L (++)). }
  clear Heq. destruct w' as [|z w' _] using rev_ind.
  - change (u ++ [c0; q]) with (u ++ [c0] ++ [q]) in Heq'.
    rewrite !(assoc_L (++)) in Heq'. apply app_inj_tail in Heq' as [_ <-].
    done.
  - change (u ++ c0 :: q :: w' ++ [z]) with (u ++ (c0 :: q :: w') ++ [z]) in Heq'.
    rewrite !(assoc_L (++)) in Heq'. apply app_inj_tail in Heq' as [Heq' _].
    destruct Hcq as [->|(c & -> & _)].
    + rewrite (right_id_L [] (++)) in Heq'. by apply HY1 in Heq'.
    + destruct w' as [|z' w' _] using rev_ind.
      * change (u ++ [c0; q]) with (u ++ [c0] ++ [q]) in Heq'.
        rewrite !(assoc_L (++)) in Heq'. apply app_inj_tail in Heq' as [Heq' _].
        by apply HY2 in Heq'.
      * change (u ++ c0 :: q :: w' ++ [z']) with (u ++ (c0 :: q :: w') ++ [z']) in Heq'.
        rewrite !(assoc_L (++)) in Heq'. apply app_inj_tail in Heq' as [Heq' _].
        by apply HY1 in Heq'.
Qed.

Lemma rmatch_opt_some {R} (r : regex) (i : nat) (s : jsstring) (caps : list jsstring)
    (k : nat → jsstring → list jsstring → option R) (res : R) :
  rmatch r i s caps k = Some res → rmatch (Opt r) i s caps k = Some res.
Proof. cbn [rmatch]. by intros ->. Qed.

Lemma rmatch_opt_none {R} (r : regex) (i : nat) (s : jsstring) (caps : list jsstring)
    (k : nat → jsstring → list jsstring → option R) :
  rmatch r i s caps k = None → rmatch (Opt r) i s caps k = k i s caps.
Proof. cbn [rmatch]. by intros ->. Qed.

Lemma rmatch_class {R} (p : char → bool) (i : nat) (c : char) (s : jsstring)
    (caps : list jsstring) (k : nat → jsstring → list jsstring → option R) :
  rmatch (Class p) i (c :: s) caps k = if p c then k (S i) s caps else None.
Proof. reflexivity. Qed.

Lemma rmatch_lit_cons {R} (c : char) (s : jsstring) (i : nat) (caps : list jsstring)
    (k : nat → jsstring → list jsstring → option R) :
  rmatch (Lit [c]) i (c :: s) caps k = k (i + 1) s caps.
Proof. apply (rmatch_lit_app [c]). Qed.

Lemma rmatch_plus {R} (p : char → bool) (a rest : jsstring) (i : nat)
    (caps : list jsstring) (k : nat → jsstring → list jsstring → option R) (res : R) :
  a ≠ [] →
  forallb p a = true →
  match rest with [] => True | c :: _ => p c = false end →
  k (i + length a) rest caps = Some res →
  rmatch (Plus p) i (a ++ rest) caps k = Some res.
Proof.
  intros Ha Hp Hrest Hk. cbn [rmatch].
  destruct a as [|c a]; [done|]. cbn [forallb] in Hp.
  apply andb_true_iff in Hp as [Hc Hp]. cbn [app]. rewrite Hc.
  apply star_greedy; [done| |done]. cbv beta.
  by replace (S i + length a) with (i + length (c :: a)) by (cbn; lia).
Qed.

Lemma isEntryName_cases (n : jsstring) :
  isEntryName n = true →
  ∃ nm : jsstring,
    nm ≠ [] ∧ forallb (λ c, negb ((c =? 64)%N || isQuote c)) nm = true
    ∧ (n = nm ∨ n = 64%N :: nm).
Proof.
  unfold isEntryName. destruct n as [|c n]; [done|].
  destruct (c =? 64)%N eqn:Hc.
  - apply N.eqb_eq in Hc as ->. intros [Hne Hall]%andb_true_iff.
    exists n. split_and!; [|done|by right].
    intros ->. by rewrite bool_decide_eq_true_2 in Hne.
  - intros [_ Hall]%andb_true_iff. exists (c :: n). split_and!; [done|done|by left].
Qed.

(** The group of the name captures a whole entry name that is followed by
    the separator. *)
Lemma rmatch_name_group {R} (n rest : jsstring) (i : nat) (caps : list jsstring)
    (k : nat → jsstring → list jsstring → option R) (res : R) :
  isEntryName n = true →
  k (i + length n) (64%N :: rest) (caps ++ [n]) = Some res →
  rmatch (Group (Opt (Lit (js "@")) ⋅ Plus (λ c, negb ((c =? 64)%N || isQuote c))))
    i (n ++ 64%N :: rest) caps k = Some res.
Proof.
  intros (nm & Hnm & Hall & [->| ->])%isEntryName_cases Hk.
  - rewrite rmatch_group, rmatch_seq, rmatch_opt_none.
    + apply rmatch_plus; [done..|]. cbv beta.
      replace (i + length nm - i) with (length nm) by lia.
      by rewrite take_app_length.
    + rewrite rmatch_lit. destruct nm as [|c nm]; [done|].
      cbn [forallb] in Hall. apply andb_true_iff in Hall as [Hc _].
      apply negb_true_iff, orb_false_iff in Hc as [Hc _].
      change (js "@") with [64%N]. cbn [app startsWith].
      by rewrite N.eqb_sym, Hc.
  - rewrite rmatch_group, rmatch_seq. apply rmatch_opt_some.
    change (js "@") with [64%N].
    change ((64%N :: nm) ++ 64%N :: rest) with ([64%N] ++ nm ++ 64%N :: rest).
    rewrite rmatch_lit_app. apply rmatch_plus; [done..|]. cbv beta.
    change (length [64%N]) with 1.
    replace (i + 1 + length nm - i) with (length ((64%N : char) :: nm)) by (cbn; lia).
    change ([64%N] ++ nm ++ 64%N :: rest) with ((64%N :: nm) ++ 64%N :: rest).
    rewrite take_app_length.
    by replace (i + 1 + length nm) with (i + length ((64%N : char) :: nm)) by (cbn; lia).
Qed.

(** At the quote that opens a quoted entry the expression matches, and
    captures the name and the version. *)
Lemma match_at_quotedEntry (i : nat) (n v after : jsstring) :
  isEntryName n = true → isEntryVersion v = true →
  ∃ e, match_at packageAtVersionRegex i (quotedEntry n v ++ after)
       = Some (MResult i e [n; v]).
Proof.
  intros Hn [Hv Hvc]%andb_true_iff.
  assert (v ≠ []) as Hv' by (intros ->; by rewrite bool_decide_eq_true_2 in Hv).
  unfold match_at, packageAtVersionRegex, quotedEntry. eexists.
  rewrite rmatch_seq. apply rmatch_opt_some.
  change (js "@") with [64%N]. change (js ":") with [58%N].
  transitivity (rmatch (Class isQuote) i
    (39%N :: n ++ 64%N :: v ++ 39%N :: [58%N] ++ after) []
    (λ i' s' caps',
       rmatch (Group (Opt (Lit [64%N]) ⋅ Plus (λ c, negb ((c =? 64)%N || isQuote c)))
               ⋅ Lit [64%N]
               ⋅ Group (Plus (λ c, negb (isQuote c || (c =? 58)%N || isSpace c)))
               ⋅ Opt (Class isQuote) ⋅ Lit [58%N]) i' s' caps'
         (λ e _ caps, Some (MResult i e caps)))).
  { f_equal. cbn [app]. f_equal. by repeat (rewrite <- (assoc_L (++)); cbn [app]). }
  rewrite rmatch_class. change (isQuote 39%N) with true. cbv iota beta.
  rewrite rmatch_seq.
  apply (rmatch_name_group n); [done|]. cbv beta.
  rewrite rmatch_seq, rmatch_lit_cons, rmatch_seq.
  apply rmatch_group_plus; [done|done|done|]. rewrite rmatch_seq.
  apply rmatch_opt_some. rewrite rmatch_class. change (isQuote 39%N) with true.
  cbv iota beta. cbn [app]. rewrite rmatch_lit_cons. reflexivity.
Qed.

Lemma exec_loop_unfold (r : regex) (i : nat) (s : jsstring) (lastIndex : nat) :
  exec_loop r i s lastIndex
  = if i <? lastIndex
    then match s with [] => [] | _ :: s' => exec_loop r (S i) s' lastIndex end
    else match match_at r i s with
         | Some m => m :: match s with
                          | [] => []
                          | _ :: s' => exec_loop r (S i) s' (m_end m)
                          end
         | None => match s with [] => [] | _ :: s' => exec_loop r (S i) s' lastIndex end
         end.
Proof. by destruct s. Qed.

(** A match that starts in white space before a quote ends at the quote
    or before it. *)
Lemma match_at_before_quote (i : nat) (u : jsstring) (c0 q : char) (t : jsstring)
    (m : mresult) :
  isSpace c0 = true → isQuote q = true →
  match_at packageAtVersionRegex i ((u ++ [c0]) ++ q :: t) = Some m →
  m_end m ≤ i + length (u ++ [c0]).
Proof.
  intros Hc0 Hq (w & rest & Heq & Hd & _ & ->)%match_at_derives.
  destruct (decide (length w ≤ length (u ++ [c0]))) as [|Hlong]; [lia|].
  exfalso.
  assert (∃ w', w = u ++ c0 :: q :: w') as [w' Hw].
  { exists (take (length w - S (length (u ++ [c0]))) t).
    transitivity (take (length w) ((u ++ [c0]) ++ q :: t));
      [by rewrite Heq, take_app_length|].
    rewrite take_app_ge by lia. rewrite <- (assoc_L (++)). cbn [app]. do 2 f_equal.
    by replace (length w - length (u ++ [c0]))
      with (S (length w - S (length (u ++ [c0])))) by lia. }
  by apply (packageAtVersion_no_cross _ _ _ _ u c0 q w' Hd Hc0 Hq).
Qed.

Lemma exec_loop_quotedEntry (u : jsstring) (i lastIndex : nat) (n v after : jsstring) :
  isEntryName n = true → isEntryVersion v = true →
  match last u with Some c => isSpace c = true | None => True end →
  lastIndex ≤ i + length u →
  ∃ m, m ∈ exec_loop packageAtVersionRegex i (u ++ quotedEntry n v ++ after) lastIndex
       ∧ m_groups m = [n; v].
Proof.
  intros Hn Hv. revert i lastIndex.
  induction u as [|c u IH]; intros i lastIndex Hlast Hle.
  - rewrite exec_loop_unfold. cbn [app length] in *.
    replace (i <? lastIndex) with false by (symmetry; apply Nat.ltb_ge; lia).
    destruct (match_at_quotedEntry i n v after Hn Hv) as [e ->].
    eexists. split; [by left|done].
  - assert (match last u with Some c => isSpace c = true | None => True end) as Hlast'.
    { rewrite last_cons in Hlast. by destruct (last u). }
    rewrite exec_loop_unfold. cbn [app length] in *.
    destruct (i <? lastIndex).
    { apply IH; [done|lia]. }
    destruct (match_at _ _ _) as [m|] eqn:Hm; [|apply IH; [done|lia]].
    assert (m_end m ≤ S i + length u) as Hend.
    { destruct (last (c :: u)) as [c0|] eqn:Hc0; [|by apply last_None in Hc0].
      apply last_Some in Hc0 as [u0 Hu0].
      change (c :: u ++ quotedEntry n v ++ after)
        with ((c :: u) ++ quotedEntry n v ++ after) in Hm.
      rewrite Hu0 in Hm. unfold quotedEntry in Hm.
      rewrite <- !(assoc_L (++) [39%N]) in Hm. cbn [app] in Hm.
      apply match_at_before_quote in Hm; [|done..].
      rewrite <- Hu0 in Hm. cbn [length] in Hm. lia. }
    destruct (IH (S i) (m_end m) Hlast' Hend) as (m' & Hin & Hg).
    exists m'. split; [by right|done].
Qed.

Lemma yamlCandidates_quotedEntry (before after n v : jsstring) :
  isEntryName n = true → isEntryVersion v = true →
  match last before with Some c => isSpace c = true | None => True end →
  (n, JString v) ∈ yamlCandidates (before ++ quotedEntry n v ++ after).
Proof.
  intros Hn Hv Hlast. unfold yamlCandidates, exec_all. apply elem_of_app. left.
  destruct (exec_loop_quotedEntry before 0 0 n v after Hn Hv Hlast) as (m & Hin & Hg);
    [lia|].
  apply list_elem_of_fmap. exists (m_groups m). split; [by rewrite Hg|].
  apply list_elem_of_fmap. by exists m.
Qed.

(** X15. A quoted entry is read whatever surrounds it: for a name and a
    version as above, an entry [\x27name@version\x27:] at the start of a
    text or after a white space character gives the pair of the name and
    the version to the matcher, whatever text comes before and after. *)
Theorem quoted_entry_candidate (before after n v : jsstring) :
  isEntryName n = true → isEntryVersion v = true →
  match last before with Some c => isSpace c = true | None => True end →
  (n, JString v) ∈ yamlCandidates (before ++ quotedEntry n v ++ after).
Proof.
  intros Hn Hv Hlast. unfold yamlCandidates, exec_all. apply elem_of_app. left.
  destruct (exec_loop_quotedEntry before 0 0 n v after Hn Hv Hlast) as (m & Hin & Hg);
    [lia|].
  apply list_elem_of_fmap. exists (m_groups m). split; [by rewrite Hg|].
  apply list_elem_of_fmap. by exists m.
Qed.

Lemma quoted_entry_candidate_witness :
  (js "left-pad", JString (js "1.3.0"))
  ∈ yamlCandidates (js "packages:" ++ [10%N] ++ js "  'left-pad@1.3.0':" ++ [10%N]).
Proof.
  apply (quoted_entry_candidate (js "packages:" ++ [10%N] ++ js "  ") [10%N]
           (js "left-pad") (js "1.3.0")).
  - reflexivity.
  - reflexivity.
  - reflexivity.
Defined.

Lemma exec_loop_match_at (r : regex) (i : nat) (s : jsstring) (lastIndex : nat)
    (m : mresult) :
  m ∈ exec_loop r i s lastIndex →
  ∃ pre s', s = pre ++ s' ∧ match_at r (i + length pre) s' = Some m.
Proof.
  revert i lastIndex. induction s as [|c s IH]; intros i lastIndex.
  - rewrite exec_loop_unfold. destruct (i <? lastIndex); [by intros ?%elem_of_nil|].
    destruct (match_at r i []) as [m'|] eqn:Hm; [|by intros ?%elem_of_nil].
    intros ->%list_elem_of_singleton. exists [], []. by rewrite Nat.add_0_r.
  - rewrite exec_loop_unfold.
    assert (∀ li, m ∈ exec_loop r (S i) s li →
              ∃ pre s', c :: s = pre ++ s' ∧ match_at r (i + length pre) s' = Some m)
      as Hnext.
    { intros li (pre & s' & -> & Hm)%IH. exists (c :: pre), s'. split; [done|].
      by replace (i + length (c :: pre)) with (S i + length pre) by (cbn; lia). }
    destruct (i <? lastIndex); [apply Hnext|].
    destruct (match_at r i (c :: s)) as [m'|] eqn:Hm; [|apply Hnext].
    intros [->|Hin]%elem_of_cons; [|by apply (Hnext (m_end m'))].
    exists [], (c :: s). by rewrite Nat.add_0_r.
Qed.

Lemma isEntryName_intro (at' nm : jsstring) :
  at' = [] ∨ at' = [64%N] → nm ≠ [] →
  forallb (λ c, negb ((c =? 64)%N || isQuote c)) nm = true →
  isEntryName (at' ++ nm) = true.
Proof.
  intros Hat Hnm Hall. unfold isEntryName. destruct Hat as [->| ->]; cbn [app].
  - destruct nm as [|c nm]; [done|].
    assert ((c =? 64)%N = false) as ->.
    { cbn [forallb] in Hall. apply andb_true_iff in Hall as [Hc _].
      apply negb_true_iff, orb_false_iff in Hc. tauto. }
    by rewrite Hall, bool_decide_eq_false_2.
  - change (64 =? 64)%N with true. cbv iota.
    by rewrite Hall, bool_decide_eq_false_2.
Qed.

(** X18. What the first method can read: every pair that it hands to the
    matcher stands in the text as [name@version], followed by a colon or
    by a quote and a colon, with a name and a version of the forms
    above. *)
Theorem first_method_sound (content : jsstring) (m : list jsstring) :
  m ∈ exec_all packageAtVersionRegex content →
  ∃ n v before quote after,
    m = [n; v]
    ∧ isEntryName n = true ∧ isEntryVersion v = true
    ∧ (quote = [] ∨ quote = [39%N] ∨ quote = [34%N])
    ∧ content = before ++ n ++ js "@" ++ v ++ quote ++ js ":" ++ after.
Proof.
  unfold exec_all. intros (r & -> & Hin)%list_elem_of_fmap.
  apply exec_loop_match_at in Hin as (pre & s' & -> & Hm).
  apply match_at_derives in Hm as (w & rest & -> & Hd & _).
  apply packageAtVersion_shape in Hd
    as (oq & at' & nm & ver & cq & -> & -> & Hoq & Hat & Hnm & Hnmc & Hver & Hverc & Hcq).
  exists (at' ++ nm), ver, (pre ++ oq), cq, rest. split_and!.
  - done.
  - by apply isEntryName_intro.
  - unfold isEntryVersion. by rewrite Hverc, bool_decide_eq_false_2.
  - destruct Hcq as [->|(c & -> & [->| ->]%isQuote_cases)]; auto.
  - change (js "@") with [64%N]. change (js ":") with [58%N].
    by rewrite <- !(assoc_L (++)).
Qed.

Lemma first_method_sound_witness :
  ∃ n v before quote after,
    [js "left-pad"; js "1.3.0"] = [n; v]
    ∧ isEntryName n = true ∧ isEntryVersion v = true
    ∧ (quote = [] ∨ quote = [39%N] ∨ quote = [34%N])
    ∧ js "  'left-pad@1.3.0':" = before ++ n ++ js "@" ++ v ++ quote ++ js ":" ++ after.
Proof.
  apply (first_method_sound (js "  'left-pad@1.3.0':") [js "left-pad"; js "1.3.0"]).
  vm_compute. left.
Defined.

(** ** The generator of demo lockfiles *)

Lemma assoc_elem (k : jsstring) (props : list (jsstring * json)) (x : json) :
  assoc k props = Some x → (k, x) ∈ props.
Proof.
  induction props as [|[k' y] props IH]; [done|]. cbn [assoc].
  case_bool_decide; [intros [= ->]; subst; by left|]. intros ?%IH. by right.
Qed.

Lemma assoc_assocSet (k k' : jsstring) (v : json) (props : list (jsstring * json)) :
  assoc k' (Generator.assocSet k v props)
  = if bool_decide (k = k') then Some v else assoc k' props.
Proof.
  induction props as [|[k0 v0] props IH]; cbn [Generator.assocSet assoc].
  - by destruct (bool_decide (k = k')).
  - destruct (decide (k0 = k)) as [->|Hne].
    + rewrite (bool_decide_eq_true_2 (k = k)) by done. cbn [assoc].
      by destruct (bool_decide (k = k')).
    + rewrite (bool_decide_eq_false_2 (k0 = k)) by done. cbn [assoc]. rewrite IH.
      destruct (decide (k = k')) as [->|Hne'].
      * by rewrite bool_decide_eq_false_2, bool_decide_eq_true_2.
      * by rewrite (bool_decide_eq_false_2 (k = k')).
Qed.

Section generator_properties.
Variable generateFakeIntegrity : nat → jsstring.
Variable JSON_parse : jsstring → option json.
Variable readFileSync : jsstring → option jsstring.

Lemma injectPackages_object (props : list (jsstring * json)) (packagesToInject : list pkg)
    (k : nat) :
  ∃ props',
    Generator.injectPackages generateFakeIntegrity (JObject props) packagesToInject k
    = Normal (JObject props')
    ∧ ∀ n, Forall (λ r, packageName r ≠ n) packagesToInject →
           assoc (js "node_modules/" ++ n) props' = assoc (js "node_modules/" ++ n) props.
Proof.
  revert props k. induction packagesToInject as [|r l IH]; intros props k.
  - exists props. by split.
  - cbn [Generator.injectPackages].
    destruct (IH (Generator.assocSet (js "node_modules/" ++ packageName r)
                    (Generator.packageEntry r (generateFakeIntegrity k)) props) (S k))
      as (props' & -> & Hother).
    exists props'. split; [done|]. intros n [Hr Hl]%Forall_cons.
    rewrite Hother, assoc_assocSet by done.
    rewrite bool_decide_eq_false_2; [done|]. by intros ?%(inj (app _)).
Qed.

(** The entry of the last record with a name stands under its key. *)
Lemma injectPackages_last (props : list (jsstring * json)) (l1 l2 : list pkg) (r : pkg)
    (k : nat) :
  Forall (λ r', packageName r' ≠ packageName r) l2 →
  ∃ props',
    Generator.injectPackages generateFakeIntegrity (JObject props) (l1 ++ r :: l2) k
    = Normal (JObject props')
    ∧ assoc (js "node_modules/" ++ packageName r) props'
      = Some (Generator.packageEntry r (generateFakeIntegrity (k + length l1))).
Proof.
  intros Hl2. revert props k. induction l1 as [|r1 l1 IH]; intros props k.
  - cbn [app Generator.injectPackages length].
    destruct (injectPackages_object
                (Generator.assocSet (js "node_modules/" ++ packageName r)
                   (Generator.packageEntry r (generateFakeIntegrity k)) props) l2 (S k))
      as (props' & -> & Hother).
    exists props'. split; [done|].
    by rewrite Hother, assoc_assocSet, bool_decide_eq_true_2, Nat.add_0_r.
  - cbn [app Generator.injectPackages length].
    destruct (IH (Generator.assocSet (js "node_modules/" ++ packageName r1)
                    (Generator.packageEntry r1 (generateFakeIntegrity k)) props) (S k))
      as (props' & -> & Hassoc).
    exists props'. split; [done|]. rewrite Hassoc. do 3 f_equal. lia.
Qed.

End generator_properties.

Section generator_text_properties.
Variable generateFakeIntegrity : nat → jsstring.
Variable readFileSync : jsstring → option jsstring.

Lemma yamlEntry_quotedEntry (r : pkg) (integrity : jsstring) :
  ∃ rest, Generator.yamlEntry r integrity
          = js "  " ++ quotedEntry (packageName r) (version r) ++ rest.
Proof.
  unfold Generator.yamlEntry, quotedEntry. eexists.
  change (js "  '") with (js "  " ++ [39%N]). change (js "':") with ([39%N] ++ js ":").
  rewrite <- !(assoc_L (++)). reflexivity.
Qed.

Lemma yamlEntries_elem (packagesToInject : list pkg) (r : pkg) (k : nat) :
  r ∈ packagesToInject →
  ∃ E1 E2, Generator.yamlEntries generateFakeIntegrity packagesToInject k
           = E1 ++ js "  " ++ quotedEntry (packageName r) (version r) ++ E2.
Proof.
  revert k. induction packagesToInject as [|r' l IH]; intros k Hin;
    [by apply elem_of_nil in Hin|].
  cbn [Generator.yamlEntries]. apply elem_of_cons in Hin as [<-|Hin].
  - destruct (yamlEntry_quotedEntry r (generateFakeIntegrity k)) as [rest ->].
    exists [], (rest ++ Generator.yamlEntries generateFakeIntegrity l (S k)).
    by rewrite <- !(assoc_L (++)).
  - destruct (IH (S k) Hin) as (E1 & E2 & ->).
    exists (Generator.yamlEntry r' (generateFakeIntegrity k) ++ E1), E2.
    by rewrite <- !(assoc_L (++)).
Qed.

(** X17. What the generator injects into a text lockfile, the scanner
    reads: wherever the entries are inserted, the text that the generator
    writes gives, for every injected record whose name and version are
    those of a quoted entry, the name and the version of the record to the
    matcher. *)
Theorem injected_text_candidates (sourcePath content : jsstring)
    (packagesToInject : list pkg) (r : pkg) :
  readFileSync sourcePath = Some content →
  r ∈ packagesToInject →
  isEntryName (packageName r) = true →
  isEntryVersion (version r) = true →
  ∃ text,
    Generator.injectIntoPnpmLock generateFakeIntegrity readFileSync sourcePath
      packagesToInject = Normal text
    ∧ (packageName r, JString (version r)) ∈ yamlCandidates text.
Proof.
  intros Hread Hin Hn Hv. unfold Generator.injectIntoPnpmLock. rewrite Hread.
  destruct (match match Generator.indexOf content ([10%N] ++ js "packages:") 0 with
                  | Some i => Some i
                  | None => Generator.indexOf content ([10%N] ++ js "snapshots:") 0
                  end with
            | Some i => _
            | None => _
            end) as [content' insertPoint].
  eexists. split; [done|].
  destruct (yamlEntries_elem packagesToInject r 0 Hin) as (E1 & E2 & ->).
  set (before := take insertPoint content').
  set (after := drop insertPoint content').
  replace (before ++ ([10%N] ++ E1 ++ js "  "
                      ++ quotedEntry (packageName r) (version r) ++ E2) ++ after)
    with ((before ++ [10%N] ++ E1 ++ js "  ")
          ++ quotedEntry (packageName r) (version r) ++ E2 ++ after)
    by (by rewrite <- !(assoc_L (++))).
  apply yamlCandidates_quotedEntry; [done..|].
  rewrite !(assoc_L (++)). change (js "  ") with ([32%N] ++ [32%N]).
  by rewrite (assoc_L (++)), last_snoc.
Qed.
End generator_text_properties.


Lemma injected_text_candidates_witness :
  ∃ text,
    Generator.injectIntoPnpmLock (λ _, js "sha512-AAAA==")
      (λ _, Some (js "lockfileVersion: '9.0'" ++ [10%N; 10%N] ++ js "packages:" ++ [10%N]))
      (js "demo/pnpm-lock.yaml") [Pkg (js "left-pad") (js "1.3.0")] = Normal text
    ∧ (js "left-pad", JString (js "1.3.0")) ∈ yamlCandidates text.
Proof.
  apply (injected_text_candidates (λ _, js "sha512-AAAA==")
           (λ _, Some (js "lockfileVersion: '9.0'" ++ [10%N; 10%N] ++ js "packages:" ++ [10%N]))
           (js "demo/pnpm-lock.yaml")
           (js "lockfileVersion: '9.0'" ++ [10%N; 10%N] ++ js "packages:" ++ [10%N])
           [Pkg (js "left-pad") (js "1.3.0")] (Pkg (js "left-pad") (js "1.3.0"))).
  - reflexivity.
  - left.
  - reflexivity.
  - reflexivity.
Defined.

(** ** The second method of the text scan *)

Lemma search_from_here (r : regex) (i : nat) (s : jsstring) (m : mresult) :
  match_at r i s = Some m → search_from r i s = Some m.
Proof. intros Hm. destruct s; cbn [search_from]; by rewrite Hm. Qed.

Lemma rmatch_opt_class {R} (p : char → bool) (oq rest : jsstring) (i : nat)
    (caps : list jsstring) (k : nat → jsstring → list jsstring → option R) (res : R) :
  match oq with [] => true | [c] => p c | _ => false end = true →
  match oq, rest with [], c :: _ => p c = false | _, _ => True end →
  k (i + length oq) rest caps = Some res →
  rmatch (Opt (Class p)) i (oq ++ rest) caps k = Some res.
Proof.
  intros Hoq Hrest Hk. destruct oq as [|c [|c' oq]]; [| |done].
  - cbn [app length] in *. rewrite Nat.add_0_r in Hk. rewrite rmatch_opt_none; [done|].
    destruct rest as [|c rest]; [done|]. by rewrite rmatch_class, Hrest.
  - apply rmatch_opt_some. cbn [app length] in *. rewrite rmatch_class, Hoq.
    by replace (S i) with (i + 1) by lia.
Qed.

Lemma rmatch_bol {R} (s : jsstring) (caps : list jsstring)
    (k : nat → jsstring → list jsstring → option R) :
  rmatch Bol 0 s caps k = k 0 s caps.
Proof. reflexivity. Qed.

Lemma isImporterName_cases (n : jsstring) :
  isImporterName n = true →
  ∃ nm : jsstring,
    nm ≠ [] ∧ forallb (λ c, isWord c || oneOf "-./" c) nm = true
    ∧ (n = nm ∨ n = 64%N :: nm).
Proof.
  unfold isImporterName. destruct n as [|c n]; [done|].
  destruct (c =? 64)%N eqn:Hc.
  - apply N.eqb_eq in Hc as ->. intros [Hne Hall]%andb_true_iff.
    exists n. split_and!; [|done|by right].
    intros ->. by rewrite bool_decide_eq_true_2 in Hne.
  - intros [_ Hall]%andb_true_iff. exists (c :: n). split_and!; [done|done|by left].
Qed.

(** The group of the name captures a whole name that is followed by a
    character that no name holds. *)
Lemma rmatch_importer_name {R} (n rest : jsstring) (i : nat) (caps : list jsstring)
    (k : nat → jsstring → list jsstring → option R) (res : R) :
  isImporterName n = true →
  match rest with [] => True | c :: _ => (isWord c || oneOf "-./" c) = false end →
  k (i + length n) rest (caps ++ [n]) = Some res →
  rmatch (Group (Opt (Lit (js "@")) ⋅ Plus (λ c, isWord c || oneOf "-./" c)))
    i (n ++ rest) caps k = Some res.
Proof.
  intros (nm & Hnm & Hall & [->| ->])%isImporterName_cases Hrest Hk.
  - rewrite rmatch_group, rmatch_seq, rmatch_opt_none.
    + apply rmatch_plus; [done..|]. cbv beta.
      replace (i + length nm - i) with (length nm) by lia.
      by rewrite take_app_length.
    + rewrite rmatch_lit. destruct nm as [|c nm]; [done|].
      cbn [forallb] in Hall. apply andb_true_iff in Hall as [Hc _].
      change (js "@") with [64%N]. cbn [app startsWith].
      destruct (64 =? c)%N eqn:Hc64; [|done].
      apply N.eqb_eq in Hc64 as <-. done.
  - rewrite rmatch_group, rmatch_seq. apply rmatch_opt_some.
    change (js "@") with [64%N].
    change ((64%N :: nm) ++ rest) with ([64%N] ++ nm ++ rest).
    rewrite rmatch_lit_app. apply rmatch_plus; [done..|]. cbv beta.
    change (length [64%N]) with 1.
    replace (i + 1 + length nm - i) with (length ((64%N : char) :: nm)) by (cbn; lia).
    change ([64%N] ++ nm ++ rest) with ((64%N :: nm) ++ rest).
    rewrite take_app_length.
    by replace (i + 1 + length nm) with (i + length ((64%N : char) :: nm)) by (cbn; lia).
Qed.

Lemma isIndent_cases (s : jsstring) :
  isIndent s = true → s ≠ [] ∧ forallb isSpace s = true.
Proof.
  unfold isIndent. intros [Hne Hall]%andb_true_iff. split; [|done].
  intros ->. by rewrite bool_decide_eq_true_2 in Hne.
Qed.

Lemma isOptQuote_head (q rest : jsstring) (p : char → bool) :
  isOptQuote q = true →
  (∀ c, isQuote c = true → p c = false) →
  match rest with [] => True | c :: _ => p c = false end →
  match q ++ rest with [] => True | c :: _ => p c = false end.
Proof.
  intros Hq Hp Hrest. destruct q as [|c [|c' q]]; [done| |done].
  cbn [app]. by apply Hp.
Qed.

(** A name line is read as one. *)
Lemma str_match_importerNameLine (indent oq n cq trailing : jsstring) :
  isIndent indent = true → isOptQuote oq = true → isImporterName n = true →
  isOptQuote cq = true → forallb isSpace trailing = true →
  str_match (importerNameLine indent oq n cq trailing) pkgLineRegex = Some [n].
Proof.
  intros [Hi Hic]%isIndent_cases Hoq Hn Hcq Htr.
  assert (∃ c n', n = c :: n' ∧ isSpace c = false ∧ isQuote c = false) as (c0 & n' & Hn0 & Hc0s & Hc0q).
  { apply isImporterName_cases in Hn as (nm & Hnm & Hall & [->| ->]).
    - destruct nm as [|c nm]; [done|]. exists c, nm. split; [done|].
      cbn [forallb] in Hall. apply andb_true_iff in Hall as [Hc _].
      revert Hc. unfold isWord, oneOf, isSpace, isQuote.
      rewrite !orb_true_iff, !andb_true_iff, bool_decide_eq_true.
      rewrite !orb_false_iff, !andb_false_iff, !N.leb_le, !N.leb_gt, !N.eqb_eq, !N.eqb_neq.
      change (js "-./") with [45%N; 46%N; 47%N]. rewrite !elem_of_cons, elem_of_nil. lia.
    - by exists 64%N, nm. }
  unfold str_match, importerNameLine.
  assert (∃ e, match_at pkgLineRegex 0 (indent ++ oq ++ n ++ cq ++ js ":" ++ trailing)
               = Some (MResult 0 e [n])) as [e Hm].
  2:{ by rewrite (search_from_here _ _ _ _ Hm). }
  unfold match_at, pkgLineRegex. eexists.
  rewrite rmatch_seq, rmatch_bol, rmatch_seq.
  apply rmatch_plus; [done|done| |].
  { destruct oq as [|c [|c' oq]]; [|cbn [app]|done].
    - cbn [app]. by rewrite Hn0.
    - unfold isOptQuote in Hoq. revert Hoq. unfold isQuote, isSpace.
      rewrite !orb_true_iff, !orb_false_iff, !andb_false_iff, !N.leb_gt, !N.eqb_eq,
        !N.eqb_neq. lia. }
  rewrite rmatch_seq.
  apply rmatch_opt_class; [done|destruct oq; [by rewrite Hn0|done]|].
  rewrite rmatch_seq.
  apply rmatch_importer_name; [done| |].
  { destruct cq as [|c [|c' cq]]; [done| |done]. cbn [app].
    unfold isOptQuote in Hcq. by apply isQuote_cases in Hcq as [->| ->]. }
  rewrite rmatch_seq. change (js ":") with [58%N].
  apply rmatch_opt_class; [done|by destruct cq|].
  rewrite rmatch_seq, rmatch_lit_app, rmatch_seq. cbn [rmatch].
  rewrite star_eol, Htr. reflexivity.
Qed.

Lemma first_occurrence (x : char) (a a' b b' : jsstring) :
  a ++ x :: b = a' ++ x :: b' → x ∉ a → x ∉ a' → a = a' ∧ b = b'.
Proof.
  revert a'. induction a as [|c a IH]; intros [|c' a'] Heq Ha Ha'; cbn [app] in Heq.
  - by injection Heq as <-.
  - injection Heq as <- _. by destruct Ha'; left.
  - injection Heq as -> _. by destruct Ha; left.
  - injection Heq as <- Heq. apply not_elem_of_cons in Ha as [_ Ha], Ha' as [_ Ha'].
    destruct (IH a' Heq Ha Ha') as [-> ->]. done.
Qed.

(** A line that is read as a name line has one colon, and only white
    space after it. *)
Lemma pkgLine_shape (line : jsstring) (m : list jsstring) :
  str_match line pkgLineRegex = Some m →
  ∃ a b, line = a ++ 58%N :: b ∧ (58%N ∉ a) ∧ forallb isSpace b = true.
Proof.
  intros (pre & w & rest & -> & Hd)%str_match_derives.
  unfold pkgLineRegex in Hd. cbn [derives] in Hd.
  destruct Hd as (w0 & w1 & cs0 & cs1 & -> & -> & (-> & Hpre & ->)
    & (ws1 & w2 & cs2 & cs3 & -> & -> & (_ & Hws1 & ->)
    & (oq & w3 & cs4 & cs5 & -> & -> & Hoq
    & (nmw & w4 & cs6 & cs7 & -> & -> & (cs8 & (at' & nm & cs9 & cs10 & -> & -> & Hat
         & (_ & Hnm & ->)) & ->)
    & (cq & w5 & cs11 & cs12 & -> & -> & Hcq
    & (colon & w6 & cs13 & cs14 & -> & -> & [-> ->]
    & (ws2 & w7 & cs15 & cs16 & -> & -> & (Hws2 & ->) & (-> & -> & ->)))))))).
  apply length_zero_iff_nil in Hpre as ->.
  exists (ws1 ++ oq ++ (at' ++ nm) ++ cq), ws2. split_and!; [|  |done].
  - change (js ":") with [58%N]. cbn [app]. rewrite !(right_id_L [] (++)).
    by rewrite <- !(assoc_L (++)).
  - rewrite !not_elem_of_app. split_and!.
    + intros Hin. by apply (forallb_elem _ _ _ Hws1) in Hin.
    + destruct Hoq as [[-> _]|(c & -> & Hc & _)]; [apply not_elem_of_nil|].
      intros Heq%list_elem_of_singleton. by subst c.
    + destruct Hat as [[-> _]|[-> _]]; [apply not_elem_of_nil|].
      by intros ?%list_elem_of_singleton.
    + intros Hin. by apply (forallb_elem _ _ _ Hnm) in Hin.
    + destruct Hcq as [[-> _]|(c & -> & Hc & _)]; [apply not_elem_of_nil|].
      intros Heq%list_elem_of_singleton. by subst c.
Qed.

(** A line with other text than white space after its first colon is not
    read as a name line. *)
Lemma not_pkgLine (a text : jsstring) :
  58%N ∉ a → forallb isSpace text = false →
  str_match (a ++ 58%N :: text) pkgLineRegex = None.
Proof.
  intros Ha Htext. destruct (str_match _ _) as [m|] eqn:Hm; [|done].
  apply pkgLine_shape in Hm as (a' & b & Heq & Ha' & Hb).
  destruct (first_occurrence _ _ _ _ _ Heq Ha Ha') as [_ ->]. congruence.
Qed.

Lemma trimStart_keep (c : char) (s : jsstring) :
  isSpace c = false → trimStart (c :: s) = c :: s.
Proof. intros Hc. cbn [trimStart]. by rewrite Hc. Qed.

(** A line that is read as a version line begins, after its indentation,
    with the key [version:]. *)
Lemma versionLine_shape (line : jsstring) (m : list jsstring) :
  str_match line versionLineRegex = Some m →
  ∃ tail, trimStart line = js "version:" ++ tail.
Proof.
  intros (pre & w & rest & -> & Hd)%str_match_derives.
  unfold versionLineRegex in Hd. cbn [derives] in Hd.
  destruct Hd as (w0 & w1 & cs0 & cs1 & -> & -> & (-> & Hpre & ->)
    & (ws1 & w2 & cs2 & cs3 & -> & -> & (_ & Hws1 & ->)
    & (key & w3 & cs4 & cs5 & -> & -> & [-> ->] & _))).
  apply length_zero_iff_nil in Hpre as ->. cbn [app].
  exists (w3 ++ rest). rewrite <- !(assoc_L (++)).
  rewrite trimStart_spaces by done. reflexivity.
Qed.

Lemma not_versionLine (indent text : jsstring) :
  forallb isSpace indent = true →
  str_match (importerSpecifierLine indent text) versionLineRegex = None.
Proof.
  intros Hi. destruct (str_match _ _) as [m|] eqn:Hm; [|done].
  apply versionLine_shape in Hm as [tail Hm]. unfold importerSpecifierLine in Hm.
  by rewrite trimStart_spaces in Hm by done.
Qed.

Lemma str_match_importerSpecifierLine (indent text : jsstring) :
  isIndent indent = true →
  is_Some (str_match (importerSpecifierLine indent text) specifierLineRegex).
Proof.
  intros [Hi Hic]%isIndent_cases. unfold str_match, importerSpecifierLine.
  assert (∃ m, match_at specifierLineRegex 0 (indent ++ js "specifier:" ++ text) = Some m)
    as [m Hm].
  2:{ rewrite (search_from_here _ _ _ _ Hm). by eexists. }
  unfold match_at, specifierLineRegex. eexists.
  rewrite rmatch_seq, rmatch_bol, rmatch_seq.
  apply rmatch_plus; [done|done|done|].
  rewrite rmatch_lit_app. reflexivity.
Qed.

Lemma rmatch_star {R} (p : char → bool) (a rest : jsstring) (i : nat)
    (caps : list jsstring) (k : nat → jsstring → list jsstring → option R) (res : R) :
  forallb p a = true →
  match rest with [] => True | c :: _ => p c = false end →
  k (i + length a) rest caps = Some res →
  rmatch (Star p) i (a ++ rest) caps k = Some res.
Proof. intros Ha Hrest Hk. cbn [rmatch]. by apply star_greedy. Qed.

Lemma isLineVersion_cases (v : jsstring) :
  isLineVersion v = true →
  ∃ c v', v = c :: v' ∧ isSpace c = false ∧ isQuote c = false
          ∧ forallb (λ c, negb (isQuote c || (c =? 40)%N || isSpace c)) v = true.
Proof.
  unfold isLineVersion. destruct v as [|c v]; [done|].
  intros [_ Hall]%andb_true_iff. exists c, v. split; [done|].
  pose proof Hall as Hall'. cbn [forallb] in Hall'.
  apply andb_true_iff in Hall' as [Hc _].
  apply negb_true_iff, orb_false_iff in Hc as [Hc ?].
  apply orb_false_iff in Hc as [? _]. done.
Qed.

(** A version line is read as one, and its version is captured up to the
    first quote, opening parenthesis or white space. *)
Lemma str_match_importerVersionLine (indent ws oq v rest : jsstring) :
  isIndent indent = true → forallb isSpace ws = true → isOptQuote oq = true →
  isLineVersion v = true →
  match rest with
  | [] => True
  | c :: _ => (isQuote c || (c =? 40)%N || isSpace c) = true
  end →
  str_match (importerVersionLine indent ws oq v rest) versionLineRegex = Some [v].
Proof.
  intros [Hi Hic]%isIndent_cases Hws Hoq (c0 & v' & Hv0 & Hc0s & Hc0q & Hall)%isLineVersion_cases
    Hrest.
  unfold str_match, importerVersionLine.
  assert (∃ e, match_at versionLineRegex 0 (indent ++ js "version:" ++ ws ++ oq ++ v ++ rest)
               = Some (MResult 0 e [v])) as [e Hm].
  2:{ by rewrite (search_from_here _ _ _ _ Hm). }
  unfold match_at, versionLineRegex. eexists.
  rewrite rmatch_seq, rmatch_bol, rmatch_seq.
  apply rmatch_plus; [done|done|done|].
  rewrite rmatch_seq, rmatch_lit_app, rmatch_seq.
  apply rmatch_star; [done| |].
  { destruct oq as [|c [|c' oq]]; [|cbn [app]|done].
    - cbn [app]. by rewrite Hv0.
    - unfold isOptQuote in Hoq. by apply isQuote_cases in Hoq as [->| ->]. }
  rewrite rmatch_seq.
  apply rmatch_opt_class; [done|destruct oq; [by rewrite Hv0|done]|].
  apply rmatch_group_plus; [by rewrite Hv0|done| |reflexivity].
  destruct rest as [|c rest]; [done|]. by rewrite Hrest.
Qed.

Lemma not_space_text (a : jsstring) (c : char) (b : jsstring) :
  isSpace c = false → forallb isSpace (a ++ c :: b) = false.
Proof.
  intros Hc. rewrite forallb_app. cbn [forallb]. rewrite Hc.
  by rewrite andb_false_r.
Qed.

Lemma indent_no_colon (indent key : jsstring) :
  forallb isSpace indent = true → 58%N ∉ key → 58%N ∉ indent ++ key.
Proof.
  intros Hi Hkey [Hin|Hin]%elem_of_app; [|done].
  by apply (forallb_elem _ _ _ Hi) in Hin.
Qed.

(** The lines before an entry only change the pending name. *)
Lemma importerCandidates_app (pre lines : list jsstring)
    (currentPackage : option jsstring) :
  ∃ cs currentPackage',
    importerCandidates (pre ++ lines) currentPackage
    = cs ++ importerCandidates lines currentPackage'.
Proof.
  revert currentPackage. induction pre as [|line pre IH]; intros currentPackage.
  - by exists [], currentPackage.
  - cbn [app importerCandidates].
    destruct (str_match line pkgLineRegex); [apply IH|].
    destruct currentPackage as [name|]; [|apply IH].
    destruct (bool_decide (name = [])); [apply IH|].
    destruct (str_match line versionLineRegex).
    + destruct (IH None) as (cs & cur' & ->). by eexists (_ :: cs), cur'.
    + destruct (str_match line specifierLineRegex); apply IH.
Qed.

Lemma importerCandidates_specifiers (specifiers rest : list jsstring) (name : jsstring) :
  name ≠ [] →
  Forall (λ line, ∃ indent text, line = importerSpecifierLine indent text
                    ∧ isIndent indent = true ∧ forallb isSpace text = false)
    specifiers →
  importerCandidates (specifiers ++ rest) (Some name)
  = importerCandidates rest (Some name).
Proof.
  intros Hname. induction 1 as [|line specifiers (indent & text & -> & Hi & Htext) _ IH];
    [done|].
  cbn [app importerCandidates].
  pose proof Hi as [_ Hic]%isIndent_cases.
  assert (str_match (importerSpecifierLine indent text) pkgLineRegex = None) as ->.
  { unfold importerSpecifierLine. change (js "specifier:") with (js "specifier" ++ [58%N]).
    rewrite <- !(assoc_L (++)), (assoc_L (++) indent). cbn [app].
    apply not_pkgLine; [|done]. apply indent_no_colon; [done|].
    by apply forallb_not_elem. }
  rewrite bool_decide_eq_false_2, not_versionLine by done.
  by destruct (str_match_importerSpecifierLine indent text Hi) as [m ->].
Qed.

(** X19. A two-line entry is read wherever it stands: a name line, then
    any number of specifier lines, then a version line give the name and
    the version to the matcher, whatever lines come before and after.  The
    name is taken without its quotes; the version is taken up to the first
    quote, opening parenthesis or white space. *)
Theorem two_line_entry (content : jsstring) (pre specifiers post : list jsstring)
    (indent oq n cq trailing indent' ws oq' v rest : jsstring) :
  isIndent indent = true → isOptQuote oq = true → isImporterName n = true →
  isOptQuote cq = true → forallb isSpace trailing = true →
  Forall (λ line, ∃ indent text, line = importerSpecifierLine indent text
                    ∧ isIndent indent = true ∧ forallb isSpace text = false)
    specifiers →
  isIndent indent' = true → forallb isSpace ws = true → isOptQuote oq' = true →
  isLineVersion v = true →
  match rest with
  | [] => True
  | c :: _ => (isQuote c || (c =? 40)%N || isSpace c) = true
  end →
  split_lines content
  = pre ++ importerNameLine indent oq n cq trailing
        :: specifiers ++ importerVersionLine indent' ws oq' v rest :: post →
  (n, JString v) ∈ yamlCandidates content.
Proof.
  intros Hi Hoq Hn Hcq Htr Hspec Hi' Hws Hoq' Hv Hrest Hlines.
  unfold yamlCandidates. apply elem_of_app. right. rewrite Hlines.
  destruct (importerCandidates_app pre
              (importerNameLine indent oq n cq trailing
                 :: specifiers ++ importerVersionLine indent' ws oq' v rest :: post) None)
    as (cs & cur & ->).
  apply elem_of_app. right. cbn [importerCandidates].
  rewrite str_match_importerNameLine by done.
  change (capture [n] 1) with n.
  assert (n ≠ []) as Hne by (intros ->; done).
  rewrite importerCandidates_specifiers by done. cbn [importerCandidates].
  assert (str_match (importerVersionLine indent' ws oq' v rest) pkgLineRegex = None) as ->.
  { apply isLineVersion_cases in Hv as (c0 & v' & -> & Hc0 & _).
    apply isIndent_cases in Hi' as [_ Hic].
    unfold importerVersionLine. change (js "version:") with (js "version" ++ [58%N]).
    rewrite <- !(assoc_L (++)), (assoc_L (++) indent'). cbn [app].
    apply not_pkgLine.
    - apply indent_no_colon; [done|]. by apply forallb_not_elem.
    - rewrite (assoc_L (++) ws). by apply not_space_text. }
  rewrite bool_decide_eq_false_2, str_match_importerVersionLine by done.
  left.
Qed.

Lemma two_line_entry_witness :
  (js "@scope/pkg", JString (js "1.3.0"))
  ∈ yamlCandidates (js "importers:" ++ [10%N] ++ js "  '@scope/pkg':" ++ [10%N]
                    ++ js "    specifier: ^1.3.0" ++ [10%N]
                    ++ js "    version: 1.3.0(react@18.0.0)").
Proof.
  apply (two_line_entry _ [js "importers:"]
           [importerSpecifierLine (js "    ") (js " ^1.3.0")] []
           (js "  ") [39%N] (js "@scope/pkg") [39%N] []
           (js "    ") (js " ") [] (js "1.3.0") (js "(react@18.0.0)")).
  - reflexivity.
  - reflexivity.
  - reflexivity.
  - reflexivity.
  - reflexivity.
  - repeat constructor. exists (js "    "), (js " ^1.3.0"). repeat split; reflexivity.
  - reflexivity.
  - reflexivity.
  - reflexivity.
  - reflexivity.
  - reflexivity.
  - vm_compute. reflexivity.
Defined.
